(** * Dependences: dependence analysis of a Scop on top of isl

    A shallow embedding of [lib/Analysis/Dependences.cpp].  The pass keeps
    three cached union maps (RAW, WAR, WAW), computes them with isl's
    dataflow analysis, and answers two kinds of queries from them: whether
    a new scattering is valid, and whether a dimension is parallel.

    The integer set library is external to the file.  [Module Isl] models
    the part of its interface the pass calls.  Relations are extensional:
    a map is a finite list of pairs of integer vectors, taken at one
    valuation of the symbolic parameters, whose names are carried along.
    Sets are finite unions of boxes whose coordinates are finite or
    co-finite, which is enough for [isl_set_universe], [isl_set_fix_si],
    [isl_set_subtract] and [isl_set_complement].  A NULL pointer is [None],
    and every function hands NULL through, as isl does. *)

From Stdlib Require Import String ZArith List Bool Lia Relations.
Import ListNotations.
Local Open Scope Z_scope.

Module Isl.

(** ** Spaces, vectors and points *)

(** A tuple is a name and a number of dimensions; the anonymous tuple has
    the empty name. *)
Abbreviation tuple := (string * nat)%type (only parsing).

Abbreviation vec := (list Z) (only parsing).

(** An element of a union set: the name of its tuple and its coordinates.
    Its space is read off the point. *)
Abbreviation point := (string * list Z)%type (only parsing).

Definition point_space (p : point) : tuple := (fst p, length (snd p)).

Definition vec_eq_dec : forall a b : vec, {a = b} + {a <> b} :=
  list_eq_dec Z.eq_dec.

Definition tuple_eq_dec (s t : tuple) : {s = t} + {s <> t}.
Proof. decide equality; [apply Nat.eq_dec | apply string_dec]. Defined.

Definition point_eq_dec (p q : point) : {p = q} + {p <> q}.
Proof. decide equality; [apply vec_eq_dec | apply string_dec]. Defined.

Definition pair_eq_dec (a b : point * point) : {a = b} + {a <> b}.
Proof. decide equality; apply point_eq_dec. Defined.

Arguments vec_eq_dec : simpl never.
Arguments tuple_eq_dec : simpl never.
Arguments point_eq_dec : simpl never.
Arguments pair_eq_dec : simpl never.

Inductive isl_dim_type := isl_dim_param | isl_dim_in | isl_dim_out.

(** In isl [isl_dim_set] is the same enumerator as [isl_dim_out]. *)
Definition isl_dim_set : isl_dim_type := isl_dim_out.

Definition is_dim_out (t : isl_dim_type) : bool :=
  match t with isl_dim_out => true | _ => false end.

Record space_rep := mk_space {
  sp_params : list string;
  sp_in : option tuple;
  sp_out : option tuple
}.

Definition isl_space : Type := option space_rep.

Definition isl_ctx : Type := unit.

(** Parameters of two objects are aligned by name: the second list is
    appended without the names already present. *)
Definition align (ps qs : list string) : list string :=
  ps ++ filter (fun q => negb (existsb (String.eqb q) ps)) qs.

(** ** Lexicographic order and differences of vectors *)

Fixpoint lex_ltb (a b : vec) : bool :=
  match a, b with
  | x :: a', y :: b' => (x <? y) || ((x =? y) && lex_ltb a' b')
  | _, _ => false
  end.

Definition lex_leb (a b : vec) : bool :=
  lex_ltb a b || (if vec_eq_dec a b then true else false).

(** [vsub b a] is [b - a], coordinate by coordinate. *)
Fixpoint vsub (b a : vec) : vec :=
  match b, a with
  | y :: b', x :: a' => (y - x) :: vsub b' a'
  | _, _ => []
  end.

(** ** Sets: unions of boxes *)

(** One coordinate of a box ranges over a finite set or over the
    complement of one. *)
Inductive coord :=
| OneOf (l : list Z)
| NoneOf (l : list Z).

Definition zmem (z : Z) (l : list Z) : bool := existsb (Z.eqb z) l.

Definition coord_mem (c : coord) (z : Z) : bool :=
  match c with
  | OneOf l => zmem z l
  | NoneOf l => negb (zmem z l)
  end.

Definition coord_inter (c d : coord) : coord :=
  match c, d with
  | OneOf l, _ => OneOf (filter (coord_mem d) l)
  | NoneOf l, OneOf m => OneOf (filter (coord_mem c) m)
  | NoneOf l, NoneOf m => NoneOf (l ++ m)
  end.

Definition coord_compl (c : coord) : coord :=
  match c with
  | OneOf l => NoneOf l
  | NoneOf l => OneOf l
  end.

Definition coord_empty (c : coord) : bool :=
  match c with
  | OneOf [] => true
  | _ => false
  end.

Abbreviation cell := (list coord) (only parsing).

Fixpoint cell_mem (c : cell) (v : vec) : bool :=
  match c, v with
  | [], [] => true
  | a :: c', z :: v' => coord_mem a z && cell_mem c' v'
  | _, _ => false
  end.

(** Intersection of two boxes; boxes of different lengths have none, which
    a coordinate without values records. *)
Fixpoint cell_inter (c d : cell) : cell :=
  match c, d with
  | [], [] => []
  | a :: c', b :: d' => coord_inter a b :: cell_inter c' d'
  | _, _ => [OneOf []]
  end.

(** Membership in a union of boxes. *)
Definition mem_any (cs : list cell) (v : vec) : bool :=
  existsb (fun c => cell_mem c v) cs.

Definition cell_univ (n : nat) : cell := repeat (NoneOf []) n.

(** The box of one point. *)
Definition point_cell (v : vec) : cell := map (fun z => OneOf [z]) v.

(** The complement of a box, as a union of boxes: some coordinate lies
    outside. *)
Fixpoint cell_compl (c : cell) : list cell :=
  match c with
  | [] => []
  | a :: c' =>
      (coord_compl a :: cell_univ (length c'))
        :: map (cons (NoneOf [])) (cell_compl c')
  end.

Definition cell_empty (c : cell) : bool := existsb coord_empty c.

Definition cells_inter (cs ds : list cell) : list cell :=
  flat_map (fun c => map (cell_inter c) ds) cs.

Record set_rep := mk_set {
  set_params : list string;
  set_tuple : tuple;
  set_cells : list cell
}.

Definition isl_set : Type := option set_rep.

(** The boxes of a set that have as many coordinates as its tuple. *)
Definition set_boxes (s : set_rep) : list cell :=
  filter (fun c => Nat.eqb (length c) (snd (set_tuple s))) (set_cells s).

Definition set_mem (s : set_rep) (v : vec) : bool :=
  mem_any (set_boxes s) v.

Definition cells_compl (n : nat) (cs : list cell) : list cell :=
  fold_right (fun c acc => cells_inter (cell_compl c) acc) [cell_univ n] cs.

Definition isl_set_universe (sp : isl_space) : isl_set :=
  match sp with
  | Some (mk_space ps None (Some t)) => Some (mk_set ps t [cell_univ (snd t)])
  | _ => None
  end.

Fixpoint cell_fix (c : cell) (pos : nat) (value : Z) : cell :=
  match c, pos with
  | [], _ => []
  | a :: c', O => coord_inter a (OneOf [value]) :: c'
  | a :: c', S pos' => a :: cell_fix c' pos' value
  end.

(** [isl_set_fix_si]: the coordinate [pos] gets the value [value]; a
    position outside the tuple is an error. *)
Definition isl_set_fix_si (s : isl_set) (type : isl_dim_type) (pos : Z)
    (value : Z) : isl_set :=
  match s with
  | Some r =>
      if is_dim_out type && (0 <=? pos) && (pos <? Z.of_nat (snd (set_tuple r)))
      then Some (mk_set (set_params r) (set_tuple r)
                   (map (fun c => cell_fix c (Z.to_nat pos) value) (set_boxes r)))
      else None
  | None => None
  end.

Definition isl_set_dim (s : isl_set) (type : isl_dim_type) : Z :=
  match s with
  | Some r =>
      match type with
      | isl_dim_param => Z.of_nat (length (set_params r))
      | isl_dim_in => 0
      | isl_dim_out => Z.of_nat (snd (set_tuple r))
      end
  | None => 0
  end.

Definition isl_set_n_dim (s : isl_set) : Z := isl_set_dim s isl_dim_set.

Definition isl_set_align_params (s : isl_set) (model : isl_space) : isl_set :=
  match s, model with
  | Some r, Some m =>
      Some (mk_set (align (sp_params m) (set_params r)) (set_tuple r) (set_cells r))
  | _, _ => None
  end.

Definition isl_set_complement (s : isl_set) : isl_set :=
  match s with
  | Some r =>
      Some (mk_set (set_params r) (set_tuple r)
              (cells_compl (snd (set_tuple r)) (set_boxes r)))
  | None => None
  end.

Definition set_is_empty (s : set_rep) : bool :=
  forallb cell_empty (set_boxes s).

(** The points of a box, when every coordinate is a finite set. *)
Fixpoint cell_enum (c : cell) : option (list vec) :=
  match c with
  | [] => Some [[]]
  | OneOf l :: c' =>
      match cell_enum c' with
      | Some vs => Some (flat_map (fun z => map (cons z) vs) l)
      | None => None
      end
  | NoneOf _ :: _ => None
  end.

Definition cell_points (c : cell) : option (list vec) :=
  if cell_empty c then Some [] else cell_enum c.

Fixpoint cells_points (cs : list cell) : option (list vec) :=
  match cs with
  | [] => Some []
  | c :: cs' =>
      match cell_points c, cells_points cs' with
      | Some vs, Some ws => Some (vs ++ ws)
      | _, _ => None
      end
  end.

Definition set_points (s : set_rep) : option (list vec) :=
  cells_points (set_boxes s).

(** The difference of two sets of one tuple. *)
Definition set_diff (a b : set_rep) : set_rep :=
  mk_set (align (set_params a) (set_params b)) (set_tuple a)
    (cells_inter (set_boxes a) (cells_compl (snd (set_tuple a)) (set_boxes b))).

(** [isl_set_subtract]: both sets live in the same tuple, else error. *)
Definition isl_set_subtract (s1 s2 : isl_set) : isl_set :=
  match s1, s2 with
  | Some a, Some b =>
      if tuple_eq_dec (set_tuple a) (set_tuple b) then Some (set_diff a b)
      else None
  | _, _ => None
  end.

(** Emptiness tests return isl's three-valued integer: 1, 0, or -1 on
    error, which is what a NULL argument gives. *)
Definition isl_set_is_empty (s : isl_set) : Z :=
  match s with
  | Some r => if set_is_empty r then 1 else 0
  | None => -1
  end.

(** ** Spaces *)

Definition isl_space_copy (sp : isl_space) : isl_space := sp.

Definition isl_space_range (sp : isl_space) : isl_space :=
  match sp with
  | Some (mk_space ps (Some _) (Some o)) => Some (mk_space ps None (Some o))
  | _ => None
  end.

(** [isl_space_set_alloc ctx nparam dim]: an anonymous set tuple. *)
Definition isl_space_set_alloc (ctx : isl_ctx) (nparam dim : Z) : isl_space :=
  if (0 <=? nparam) && (0 <=? dim)
  then Some (mk_space (repeat EmptyString (Z.to_nat nparam)) None
               (Some (EmptyString, Z.to_nat dim)))
  else None.

Definition isl_space_dim (sp : isl_space) (type : isl_dim_type) : Z :=
  match sp with
  | Some r =>
      match type with
      | isl_dim_param => Z.of_nat (length (sp_params r))
      | isl_dim_in => match sp_in r with Some t => Z.of_nat (snd t) | None => 0 end
      | isl_dim_out => match sp_out r with Some t => Z.of_nat (snd t) | None => 0 end
      end
  | None => 0
  end.

(** ** Maps *)

Record map_rep := mk_map {
  map_params : list string;
  map_in : tuple;
  map_out : tuple;
  map_pairs : list (vec * vec)
}.

Definition isl_map : Type := option map_rep.

Definition isl_map_copy (m : isl_map) : isl_map := m.

Definition isl_map_get_space (m : isl_map) : isl_space :=
  match m with
  | Some r => Some (mk_space (map_params r) (Some (map_in r)) (Some (map_out r)))
  | None => None
  end.

(** [isl_map_intersect_domain]: the set lives in the input tuple of the
    map, else error. *)
Definition isl_map_intersect_domain (m : isl_map) (s : isl_set) : isl_map :=
  match m, s with
  | Some r, Some d =>
      if tuple_eq_dec (map_in r) (set_tuple d)
      then Some (mk_map (align (map_params r) (set_params d)) (map_in r) (map_out r)
                   (filter (fun ab => set_mem d (fst ab)) (map_pairs r)))
      else None
  | _, _ => None
  end.

Definition drop_dims (v : vec) (first n : nat) : vec :=
  firstn first v ++ skipn (first + n) v.

(** [isl_map_project_out m type first n] removes [n] coordinates starting
    at [first]; the tuple they are taken from loses its name.  A range
    that leaves the tuple is an error; parameters are not projected. *)
Definition isl_map_project_out (m : isl_map) (type : isl_dim_type)
    (first n : Z) : isl_map :=
  match m with
  | Some r =>
      let f := Z.to_nat first in
      let k := Z.to_nat n in
      match type with
      | isl_dim_out =>
          if (0 <=? first) && (0 <=? n) && (first + n <=? Z.of_nat (snd (map_out r)))
          then Some (mk_map (map_params r) (map_in r)
                       (EmptyString, (snd (map_out r) - k)%nat)
                       (map (fun ab => (fst ab, drop_dims (snd ab) f k)) (map_pairs r)))
          else None
      | isl_dim_in =>
          if (0 <=? first) && (0 <=? n) && (first + n <=? Z.of_nat (snd (map_in r)))
          then Some (mk_map (map_params r)
                       (EmptyString, (snd (map_in r) - k)%nat) (map_out r)
                       (map (fun ab => (drop_dims (fst ab) f k, snd ab)) (map_pairs r)))
          else None
      | isl_dim_param => None
      end
  | None => None
  end.

Definition isl_map_is_empty (m : isl_map) : Z :=
  match m with
  | Some r => match map_pairs r with [] => 1 | _ => 0 end
  | None => -1
  end.

(** [isl_set_lex_le_set s1 s2]: the pairs of an element of [s1] and an
    element of [s2] not lexicographically below it.  A map is a list of
    pairs here, so the two sets must be lists of points; otherwise the
    result is NULL. *)
Definition isl_set_lex_le_set (s1 s2 : isl_set) : isl_map :=
  match s1, s2 with
  | Some a, Some b =>
      if tuple_eq_dec (set_tuple a) (set_tuple b)
      then match set_points a, set_points b with
           | Some la, Some lb =>
               Some (mk_map (align (set_params a) (set_params b))
                       (set_tuple a) (set_tuple b)
                       (filter (fun xy => lex_leb (fst xy) (snd xy))
                          (list_prod la lb)))
           | _, _ => None
           end
      else None
  | _, _ => None
  end.

(** ** Union sets *)

Record uset_rep := mk_uset {
  uset_params : list string;
  uset_sets : list set_rep
}.

Definition isl_union_set : Type := option uset_rep.

Definition uset_mem (u : uset_rep) (p : point) : bool :=
  existsb (fun s => (if tuple_eq_dec (set_tuple s) (point_space p) then true else false)
                    && set_mem s (snd p)) (uset_sets u).

Definition isl_union_set_copy (u : isl_union_set) : isl_union_set := u.

Definition isl_union_set_from_set (s : isl_set) : isl_union_set :=
  match s with
  | Some r => Some (mk_uset (set_params r) [r])
  | None => None
  end.

(** Each set of the first union loses the points of the sets of the second
    union that live in its tuple. *)
Definition isl_union_set_subtract (u1 u2 : isl_union_set) : isl_union_set :=
  match u1, u2 with
  | Some a, Some b =>
      Some (mk_uset (align (uset_params a) (uset_params b))
              (map (fun s =>
                      fold_left (fun acc t =>
                                   if tuple_eq_dec (set_tuple acc) (set_tuple t)
                                   then set_diff acc t else acc)
                        (uset_sets b) s)
                 (uset_sets a)))
  | _, _ => None
  end.

Definition isl_union_set_is_empty (u : isl_union_set) : Z :=
  match u with
  | Some r => if forallb set_is_empty (uset_sets r) then 1 else 0
  | None => -1
  end.

(** [isl_union_set_extract_set u sp]: the part of [u] in the set space
    [sp], empty when there is none. *)
Definition isl_union_set_extract_set (u : isl_union_set) (sp : isl_space)
    : isl_set :=
  match u, sp with
  | Some r, Some (mk_space ps None (Some t)) =>
      Some (mk_set (align (uset_params r) ps) t
              (flat_map set_boxes
                 (filter (fun s => if tuple_eq_dec (set_tuple s) t then true else false)
                    (uset_sets r))))
  | _, _ => None
  end.

(** ** Union maps *)

Record umap_rep := mk_umap {
  umap_params : list string;
  umap_pairs : list (point * point)
}.

Definition isl_union_map : Type := option umap_rep.

Definition isl_union_map_copy (u : isl_union_map) : isl_union_map := u.

Definition isl_union_map_empty (sp : isl_space) : isl_union_map :=
  match sp with
  | Some r => Some (mk_umap (sp_params r) [])
  | None => None
  end.

Definition isl_union_map_get_space (u : isl_union_map) : isl_space :=
  match u with
  | Some r => Some (mk_space (umap_params r) None None)
  | None => None
  end.

(** The pairs of a map, as pairs of points of a union map. *)
Definition map_points (m : map_rep) : list (point * point) :=
  map (fun ab => ((fst (map_in m), fst ab), (fst (map_out m), snd ab)))
    (map_pairs m).

Definition isl_union_map_add_map (u : isl_union_map) (m : isl_map)
    : isl_union_map :=
  match u, m with
  | Some r, Some x =>
      Some (mk_umap (align (umap_params r) (map_params x))
              (umap_pairs r ++ map_points x))
  | _, _ => None
  end.

Definition isl_union_map_union (u1 u2 : isl_union_map) : isl_union_map :=
  match u1, u2 with
  | Some a, Some b =>
      Some (mk_umap (align (umap_params a) (umap_params b))
              (umap_pairs a ++ umap_pairs b))
  | _, _ => None
  end.

Definition point_eqb (p q : point) : bool :=
  if point_eq_dec p q then true else false.

(** The images of a point under a list of pairs. *)
Definition images (f : list (point * point)) (p : point) : list point :=
  map snd (filter (fun xy => point_eqb (fst xy) p) f).

(** [isl_union_map_apply_domain u1 u2] applies [u2] to the domain of
    [u1]. *)
Definition isl_union_map_apply_domain (u1 u2 : isl_union_map)
    : isl_union_map :=
  match u1, u2 with
  | Some a, Some b =>
      Some (mk_umap (align (umap_params a) (umap_params b))
              (flat_map (fun pq => map (fun p' => (p', snd pq))
                                     (images (umap_pairs b) (fst pq)))
                 (umap_pairs a)))
  | _, _ => None
  end.

(** [isl_union_map_apply_range u1 u2] applies [u2] to the range of
    [u1]. *)
Definition isl_union_map_apply_range (u1 u2 : isl_union_map)
    : isl_union_map :=
  match u1, u2 with
  | Some a, Some b =>
      Some (mk_umap (align (umap_params a) (umap_params b))
              (flat_map (fun pq => map (fun q' => (fst pq, q'))
                                     (images (umap_pairs b) (snd pq)))
                 (umap_pairs a)))
  | _, _ => None
  end.

Definition isl_union_map_intersect_domain (u : isl_union_map)
    (s : isl_union_set) : isl_union_map :=
  match u, s with
  | Some a, Some d =>
      Some (mk_umap (align (umap_params a) (uset_params d))
              (filter (fun pq => uset_mem d (fst pq)) (umap_pairs a)))
  | _, _ => None
  end.

Definition isl_union_map_intersect_range (u : isl_union_map)
    (s : isl_union_set) : isl_union_map :=
  match u, s with
  | Some a, Some d =>
      Some (mk_umap (align (umap_params a) (uset_params d))
              (filter (fun pq => uset_mem d (snd pq)) (umap_pairs a)))
  | _, _ => None
  end.

(** The set of the single point [v] of the tuple [t]. *)
Definition singleton_set (ps : list string) (t : tuple) (v : vec) : set_rep :=
  mk_set ps t [point_cell v].

(** [isl_union_map_deltas]: the differences, range minus domain, of the
    pairs whose two points live in one space; the difference lives in
    that space. *)
Definition isl_union_map_deltas (u : isl_union_map) : isl_union_set :=
  match u with
  | Some r =>
      Some (mk_uset (umap_params r)
              (flat_map (fun pq =>
                           if tuple_eq_dec (point_space (fst pq)) (point_space (snd pq))
                           then [singleton_set (umap_params r) (point_space (fst pq))
                                   (vsub (snd (snd pq)) (snd (fst pq)))]
                           else [])
                 (umap_pairs r)))
  | None => None
  end.

(** Coalescing changes the representation, not the relation: here it
    drops repeated pairs. *)
Definition isl_union_map_coalesce (u : isl_union_map) : isl_union_map :=
  match u with
  | Some r => Some (mk_umap (umap_params r) (nodup pair_eq_dec (umap_pairs r)))
  | None => None
  end.

(** Equalities are implicit in a list of points. *)
Definition isl_union_map_detect_equalities (u : isl_union_map)
    : isl_union_map := u.

(** ** Dataflow analysis

    [isl_union_map_compute_flow] relates every sink access to the sources
    that access the same element last before it in the order of the
    schedule.  The model takes the order of the dates.  The library reads
    the order off the constant coordinates and the shared loop coordinates
    of the schedule of each statement, which is the order of the dates for
    the scatterings of a Scop, where constants order the statements
    between the coordinates of their common loops. *)

(** [before sched j i]: some date of [j] is lexicographically smaller than
    some date of [i] in the same space. *)
Definition before (sched : list (point * point)) (j i : point) : bool :=
  existsb (fun tj =>
             existsb (fun ti =>
                        (if tuple_eq_dec (point_space tj) (point_space ti)
                         then true else false)
                        && lex_ltb (snd tj) (snd ti))
               (images sched i))
    (images sched j).

(** The instances of an access relation that touch the element [e]. *)
Definition accessors (acc : list (point * point)) (e : point) : list point :=
  map fst (filter (fun xe => point_eqb (snd xe) e) acc).

(** The sources of [acc] for the element [e] that are dated before the
    sink instance [i]. *)
Definition sources_before (sched acc : list (point * point)) (e i : point)
    : list point :=
  filter (fun j => before sched j i) (accessors acc e).

(** [hides sched j x]: the must-source [j] hides the must-source [x] from a
    later sink.  It does when [x] is dated before [j]; when neither is
    dated before the other, the library takes the lexicographically largest
    instance of one statement, and [j] hides [x] if it is a larger
    instance of the statement of [x]. *)
Definition hides (sched : list (point * point)) (j x : point) : bool :=
  before sched x j
  || (negb (before sched j x)
      && (if tuple_eq_dec (point_space x) (point_space j) then true else false)
      && lex_ltb (snd x) (snd j)).

(** The last must-sources of the sink access [(i, e)]: the must-sources
    before [i] that no other one hides.  Instances of several statements
    on one date are all last. *)
Definition last_must (sched must : list (point * point)) (e i : point)
    : list point :=
  filter (fun j => negb (existsb (fun j' => hides sched j' j)
                           (sources_before sched must e i)))
    (sources_before sched must e i).

(** [unrivalled sched l j]: every source of [l] but [j] itself is dated
    before [j]. *)
Definition unrivalled (sched : list (point * point)) (l : list point)
    (j : point) : bool :=
  forallb (fun x => point_eqb x j || before sched x j) l.

(** The dependences of one sink access [(i, e)].  A last must-source is a
    must-dependence when it is the only one and every may-source before
    [i], but the source itself, is dated before it; otherwise it is a
    may-dependence.  A may-source before [i] is a may-dependence when it
    is dated before no last must-source, unless it is the instance of the
    must-dependence.  So an instance that reads and writes the element
    gives a must-dependence alone, and two sources of different statements
    on one date give two may-dependences.  A may-dependence is given like
    a must-dependence, from source instance to sink instance: the pass
    dates both ends of every dependence by the scatterings.  (A release
    of the library that pairs the sink instance with the accessed element
    in the range of the may-dependences leaves their targets without a
    date, and the queries of the pass with the must-dependences alone.) *)
Definition must_deps_of (sched must may : list (point * point))
    (ie : point * point) : list (point * point) :=
  let L := last_must sched must (snd ie) (fst ie) in
  let Y := sources_before sched may (snd ie) (fst ie) in
  map (fun j => (j, fst ie)) (filter (unrivalled sched (L ++ Y)) L).

Definition may_deps_of (sched must may : list (point * point))
    (ie : point * point) : list (point * point) :=
  let L := last_must sched must (snd ie) (fst ie) in
  let Y := sources_before sched may (snd ie) (fst ie) in
  map (fun j => (j, fst ie))
    (filter (fun j => negb (unrivalled sched (L ++ Y) j)) L)
  ++ map (fun k => (k, fst ie))
       (filter (fun k => forallb (fun j => negb (before sched k j)) L
                         && negb (existsb (point_eqb k)
                                    (filter (unrivalled sched (L ++ Y)) L)))
          Y).

(** [isl_union_map_compute_flow sink must_source may_source schedule]
    gives the must-dependences and the may-dependences, from source
    instance to sink instance.  The two no-source relations, which the
    pass never asks for, are left out.  An error leaves both results
    NULL. *)
Definition isl_union_map_compute_flow
    (sink must_source may_source schedule : isl_union_map)
    : isl_union_map * isl_union_map :=
  match sink, must_source, may_source, schedule with
  | Some k, Some must, Some may, Some sched =>
      let ps := align (align (align (umap_params k) (umap_params must))
                         (umap_params may)) (umap_params sched) in
      (Some (mk_umap ps
               (flat_map (must_deps_of (umap_pairs sched) (umap_pairs must)
                            (umap_pairs may)) (umap_pairs k))),
       Some (mk_umap ps
               (flat_map (may_deps_of (umap_pairs sched) (umap_pairs must)
                            (umap_pairs may)) (umap_pairs k))))
  | _, _, _, _ => (None, None)
  end.

End Isl.

Import Isl.

(** * The Scop model *)

(** Modelled from the spec: the declarations of the Scop model
    ([polly/ScopInfo.h]) are not in the file.  A memory access has a kind,
    read, must-write or may-write, and an access relation; a statement has
    an iteration domain, a list of memory accesses and a scattering; all
    share the parameter space of the Scop.  The accessors return copies,
    never NULL. *)
Inductive AccessType := READ | MUST_WRITE | MAY_WRITE.

Record MemoryAccess := mk_access {
  Type_ : AccessType;
  AccessRelation : map_rep
}.

Definition isRead (MA : MemoryAccess) : bool :=
  match Type_ MA with READ => true | _ => false end.

Definition getAccessRelation (MA : MemoryAccess) : isl_map :=
  Some (AccessRelation MA).

Record ScopStmt := mk_stmt {
  Domain : set_rep;
  MemAccs : list MemoryAccess;
  Scattering : map_rep
}.

Definition getDomain (Stmt : ScopStmt) : isl_set := Some (Domain Stmt).

Definition getScattering (Stmt : ScopStmt) : isl_map := Some (Scattering Stmt).

Definition getNumScattering (Stmt : ScopStmt) : Z :=
  Z.of_nat (snd (map_out (Scattering Stmt))).

Record Scop := mk_scop {
  Context : list string;
  Stmts : list ScopStmt
}.

Definition getParamSpace (S : Scop) : isl_space :=
  Some (mk_space (Context S) None None).

Definition getIslCtx (S : Scop) : isl_ctx := tt.

(** A statement is identified by its address, here its position in the
    Scop.  [StatementToIslMapTy] is a [std::map] from statements to
    scatterings. *)
Definition StatementToIslMapTy : Type := list (nat * isl_map).

Fixpoint find (M : StatementToIslMapTy) (Stmt : nat) : option isl_map :=
  match M with
  | [] => None
  | (k, m) :: M' => if Nat.eqb k Stmt then Some m else find M' Stmt
  end.

(** Modelled from the spec: the kinds of dependences ([polly/Dependences.h]
    is not in the file) are three distinct bits of a mask, and [TYPE_ALL]
    has them all. *)
Definition TYPE_WAR : Z := 1.
Definition TYPE_RAW : Z := 2.
Definition TYPE_WAW : Z := 4.
Definition TYPE_ALL : Z := Z.lor TYPE_WAR (Z.lor TYPE_RAW TYPE_WAW).

(** C++ arithmetic on [unsigned] wraps around, and an [int] is true as a
    [bool] when it is not zero. *)
Definition wrap32 (z : Z) : Z := z mod 2 ^ 32.

Definition int_to_bool (z : Z) : bool := negb (z =? 0).

(** * The pass *)

Record Dependences := mk_deps {
  RAW : isl_union_map;
  WAR : isl_union_map;
  WAW : isl_union_map
}.

(** [Dependences::Dependences] *)
Definition Dependences_ctor : Dependences :=
  {| RAW := None; WAR := None; WAW := None |}.

(** The body of the loop over the memory accesses of [Stmt] in
    [collectInfo]. *)
Definition collectInfo_access (Stmt : ScopStmt)
    (RW : isl_union_map * isl_union_map) (MI : MemoryAccess)
    : isl_union_map * isl_union_map :=
  let '(Read, Write) := RW in
  let domcp := getDomain Stmt in
  let accdom := getAccessRelation MI in
  let accdom := isl_map_intersect_domain accdom domcp in
  if isRead MI
  then (isl_union_map_add_map Read accdom, Write)
  else (Read, isl_union_map_add_map Write accdom).

(** The body of the loop over the statements in [collectInfo]. *)
Definition collectInfo_stmt
    (Info : isl_union_map * isl_union_map * isl_union_map * isl_union_map)
    (Stmt : ScopStmt)
    : isl_union_map * isl_union_map * isl_union_map * isl_union_map :=
  let '(Read, Write, MayWrite, Schedule) := Info in
  let '(Read, Write) :=
    fold_left (collectInfo_access Stmt) (MemAccs Stmt) (Read, Write) in
  let Schedule := isl_union_map_add_map Schedule (getScattering Stmt) in
  (Read, Write, MayWrite, Schedule).

(** [Dependences::collectInfo]: the results are [Read], [Write],
    [MayWrite] and [Schedule], in this order. *)
Definition collectInfo (S : Scop)
    : isl_union_map * isl_union_map * isl_union_map * isl_union_map :=
  let Space := getParamSpace S in
  let Read := isl_union_map_empty (isl_space_copy Space) in
  let Write := isl_union_map_empty (isl_space_copy Space) in
  let MayWrite := isl_union_map_empty (isl_space_copy Space) in
  let Schedule := isl_union_map_empty Space in
  fold_left collectInfo_stmt (Stmts S) (Read, Write, MayWrite, Schedule).

(** [Dependences::calculateDependences] *)
Definition calculateDependences (this : Dependences) (S : Scop) : Dependences :=
  let '(Read, Write, MayWrite, Schedule) := collectInfo S in
  let flow1 :=
    isl_union_map_compute_flow (isl_union_map_copy Read)
      (isl_union_map_copy Write) (isl_union_map_copy MayWrite)
      (isl_union_map_copy Schedule) in
  let RAW := fst flow1 in
  let flow2 :=
    isl_union_map_compute_flow (isl_union_map_copy Write)
      (isl_union_map_copy Write) Read Schedule in
  let WAW := fst flow2 in
  let WAR := snd flow2 in
  let RAW := isl_union_map_coalesce RAW in
  let WAW := isl_union_map_coalesce WAW in
  let WAR := isl_union_map_coalesce WAR in
  {| RAW := RAW; WAR := WAR; WAW := WAW |}.

(** [Dependences::releaseMemory] *)
Definition releaseMemory (this : Dependences) : Dependences :=
  {| RAW := None; WAR := None; WAW := None |}.

(** [Dependences::runOnScop] *)
Definition runOnScop (this : Dependences) (S : Scop) : Dependences * bool :=
  let this := releaseMemory this in
  let this := calculateDependences this S in
  (this, false).

(** [Dependences::getDependences] *)
Definition getDependences (this : Dependences) (Kinds : Z) : isl_union_map :=
  let Space := isl_union_map_get_space (RAW this) in
  let Deps := isl_union_map_empty Space in
  let Deps :=
    if int_to_bool (Z.land Kinds TYPE_RAW)
    then isl_union_map_union Deps (isl_union_map_copy (RAW this)) else Deps in
  let Deps :=
    if int_to_bool (Z.land Kinds TYPE_WAR)
    then isl_union_map_union Deps (isl_union_map_copy (WAR this)) else Deps in
  let Deps :=
    if int_to_bool (Z.land Kinds TYPE_WAW)
    then isl_union_map_union Deps (isl_union_map_copy (WAW this)) else Deps in
  let Deps := isl_union_map_coalesce Deps in
  let Deps := isl_union_map_detect_equalities Deps in
  Deps.

(** The statements of a Scop with their addresses. *)
Definition statements (S : Scop) : list (nat * ScopStmt) :=
  combine (seq 0 (length (Stmts S))) (Stmts S).

(** The body of the loop over the statements in [isValidScattering]. *)
Definition isValidScattering_stmt (NewScattering : StatementToIslMapTy)
    (acc : isl_union_map * isl_space) (SI : nat * ScopStmt)
    : isl_union_map * isl_space :=
  let '(Scattering, ScatteringSpace) := acc in
  let Stmt := snd SI in
  let StmtScat :=
    match find NewScattering (fst SI) with
    | None => getScattering Stmt
    | Some m => isl_map_copy m
    end in
  let ScatteringSpace :=
    match ScatteringSpace with
    | None => isl_space_range (isl_map_get_space StmtScat)
    | Some _ => ScatteringSpace
    end in
  let Scattering := isl_union_map_add_map Scattering StmtScat in
  (Scattering, ScatteringSpace).

(** The loops [for (i = 0; i < n; i++) Set = isl_set_fix_si(Set,
    isl_dim_set, i, 0)].  The bound is read once: every position below it
    is in the tuple, so the set does not turn NULL, and its dimension does
    not change, while the loop runs. *)
Definition fix_zero (n : Z) (Set_ : isl_set) : isl_set :=
  fold_left (fun Set_ i => isl_set_fix_si Set_ isl_dim_set (Z.of_nat i) 0)
    (seq 0 (Z.to_nat n)) Set_.

(** [Dependences::isValidScattering]; [LegalityCheckDisabled] is the
    command line option, [S] the current Scop of the pass. *)
Definition isValidScattering (LegalityCheckDisabled : bool)
    (this : Dependences) (S : Scop) (NewScattering : StatementToIslMapTy)
    : bool :=
  if LegalityCheckDisabled then true else
  let Dependences := getDependences this TYPE_ALL in
  let Space := getParamSpace S in
  let Scattering := isl_union_map_empty Space in
  let ScatteringSpace : isl_space := None in
  let '(Scattering, ScatteringSpace) :=
    fold_left (isValidScattering_stmt NewScattering) (statements S)
      (Scattering, ScatteringSpace) in
  let Dependences :=
    isl_union_map_apply_domain Dependences (isl_union_map_copy Scattering) in
  let Dependences := isl_union_map_apply_range Dependences Scattering in
  let Zero := isl_set_universe (isl_space_copy ScatteringSpace) in
  let Zero := fix_zero (isl_set_dim Zero isl_dim_set) Zero in
  let UDeltas := isl_union_map_deltas Dependences in
  let Deltas := isl_union_set_extract_set UDeltas ScatteringSpace in
  let NonPositive := isl_set_lex_le_set Deltas Zero in
  let IsValid := int_to_bool (isl_map_is_empty NonPositive) in
  IsValid.

(** The body of the loop in [getCombinedScheduleForSpace]. *)
Definition getCombinedScheduleForSpace_stmt (dimLevel : Z)
    (schedule : isl_union_map) (Stmt : ScopStmt) : isl_union_map :=
  let remainingDimensions := wrap32 (getNumScattering Stmt - dimLevel) in
  let Scattering :=
    isl_map_project_out (getScattering Stmt) isl_dim_out dimLevel
      remainingDimensions in
  isl_union_map_add_map schedule Scattering.

(** [getCombinedScheduleForSpace] *)
Definition getCombinedScheduleForSpace (scop : Scop) (dimLevel : Z)
    : isl_union_map :=
  let Space := getParamSpace scop in
  let schedule := isl_union_map_empty Space in
  fold_left (getCombinedScheduleForSpace_stmt dimLevel) (Stmts scop) schedule.

(** [Dependences::isParallelDimension]; the last statement of the source
    frees [Invalid] under a misspelt name, which has no effect on the
    result. *)
Definition isParallelDimension (this : Dependences) (S : Scop)
    (Domain : isl_set) (ParallelDim : Z) : bool :=
  let Schedule := getCombinedScheduleForSpace S ParallelDim in
  let Deps := getDependences this TYPE_ALL in
  let ScheduleSubset := isl_union_set_from_set Domain in
  let Deps := isl_union_map_apply_range Deps (isl_union_map_copy Schedule) in
  let Deps := isl_union_map_apply_domain Deps Schedule in
  let Deps :=
    isl_union_map_intersect_domain Deps (isl_union_set_copy ScheduleSubset) in
  let Deps := isl_union_map_intersect_range Deps ScheduleSubset in
  let Distance := isl_union_map_deltas Deps in
  let Space := isl_space_set_alloc (getIslCtx S) 0 ParallelDim in
  let AllZero := isl_set_universe (isl_space_copy Space) in
  let Dimensions := isl_space_dim Space isl_dim_set in
  let AllZero := fix_zero Dimensions AllZero in
  let AllZero := isl_set_align_params AllZero (getParamSpace S) in
  let LastUnknown := isl_set_universe Space in
  let LastUnknown := fix_zero (wrap32 (Dimensions - 1)) LastUnknown in
  let LastUnknown := isl_set_align_params LastUnknown (getParamSpace S) in
  let ValidDistances := isl_set_subtract LastUnknown AllZero in
  let ValidDistances := isl_set_complement ValidDistances in
  let ValidDistancesUS := isl_union_set_from_set ValidDistances in
  let Invalid := isl_union_set_subtract Distance ValidDistancesUS in
  let IsParallel := int_to_bool (isl_union_set_is_empty Invalid) in
  IsParallel.

(** [Dependences::isParallelFor]: [Domain] is the domain of the loop,
    [isl_set_from_cloog_domain(f->domain)]; the assertion fails on NULL. *)
Definition isParallelFor (this : Dependences) (S : Scop) (Domain : isl_set)
    : option bool :=
  match Domain with
  | None => None
  | Some _ => Some (isParallelDimension this S Domain (isl_set_n_dim Domain))
  end.

(** * Notions used in the statements *)

Definition is_zero (z : Z) : bool := z =? 0.

(** A vector is lexicographically non-positive when it is zero or its
    first coordinate that is not zero is negative. *)
Definition nonpositive (d : vec) : bool := lex_leb d (repeat 0 (length d)).

(** A distance is carried by the last dimension when all its coordinates
    but the last are zero and the last is not. *)
Definition carried_by_last (d : vec) : bool :=
  forallb is_zero (removelast d) && negb (is_zero (last d 0)).

(** The pattern of distances "all coordinates zero except possibly the
    last". *)
Definition zero_but_last (d : vec) : bool := forallb is_zero (removelast d).

(** A value outside a finite list, and a value of a coordinate. *)
Definition fresh (l : list Z) : Z := 1 + fold_right Z.max 0 l.

Definition coord_pick (c : coord) : Z :=
  match c with
  | OneOf l => hd 0 l
  | NoneOf l => fresh l
  end.

(** The dates of the statement instances under the current scatterings. *)
Definition schedule_points (S : Scop) : list (point * point) :=
  flat_map (fun Stmt => map_points (Scattering Stmt)) (Stmts S).

(** The scattering [isValidScattering] takes for a statement: the new one
    when [NewScattering] has one, else the current one. *)
Definition stmtScattering (NewScattering : StatementToIslMapTy)
    (SI : nat * ScopStmt) : isl_map :=
  match find NewScattering (fst SI) with
  | None => getScattering (snd SI)
  | Some m => isl_map_copy m
  end.

(** The dates of the statement instances under these scatterings. *)
Definition scattering_points (NewScattering : StatementToIslMapTy) (S : Scop)
    : list (point * point) :=
  flat_map (fun SI => match stmtScattering NewScattering SI with
                      | Some m => map_points m
                      | None => []
                      end)
    (statements S).

(** Every statement is dated in the time tuple [t], by vectors of its
    dimension. *)
Definition shared_time_space (t : tuple) (NewScattering : StatementToIslMapTy)
    (S : Scop) : bool :=
  forallb (fun SI =>
             match stmtScattering NewScattering SI with
             | Some m =>
                 (if tuple_eq_dec (map_out m) t then true else false)
                 && forallb (fun ab => Nat.eqb (length (snd ab)) (snd t))
                      (map_pairs m)
             | None => false
             end)
    (statements S).

(** No instance has two dates. *)
Definition single_valued (f : list (point * point)) : bool :=
  forallb (fun x =>
             forallb (fun y => negb (point_eqb (fst x) (fst y))
                               || point_eqb (snd x) (snd y)) f) f.

(** Every scattering has at least [dimLevel] dimensions, fewer than 2^32,
    and dates of that many coordinates. *)
Definition truncatable (dimLevel : Z) (S : Scop) : bool :=
  forallb (fun Stmt =>
             (dimLevel <=? getNumScattering Stmt)
             && (getNumScattering Stmt <? 2 ^ 32)
             && forallb (fun ab => Nat.eqb (length (snd ab))
                                     (snd (map_out (Scattering Stmt))))
                  (map_pairs (Scattering Stmt)))
    (Stmts S).

(** The point [d] lies in the set [dom]. *)
Definition in_set (dom : set_rep) (d : point) : bool :=
  (if tuple_eq_dec (set_tuple dom) (point_space d) then true else false)
  && set_mem dom (snd d).

(** Every access relation starts in the tuple of the domain of its
    statement. *)
Definition accesses_in_domain (S : Scop) : bool :=
  forallb (fun Stmt =>
             forallb (fun MA =>
                        if tuple_eq_dec (map_in (AccessRelation MA))
                             (set_tuple (Domain Stmt))
                        then true else false)
               (MemAccs Stmt))
    (Stmts S).

(** Some relation of the Scop has other parameters than the Scop. *)
Definition params_mismatch (S : Scop) : bool :=
  existsb (fun Stmt =>
             negb (if list_eq_dec string_dec (set_params (Domain Stmt)) (Context S)
                   then true else false)
             || negb (if list_eq_dec string_dec (map_params (Scattering Stmt))
                           (Context S)
                      then true else false)
             || existsb (fun MA =>
                           negb (if list_eq_dec string_dec
                                      (map_params (AccessRelation MA)) (Context S)
                                 then true else false))
                  (MemAccs Stmt))
    (Stmts S).

(** ** The life of the pass *)

Inductive request :=
| ReqRunOnScop (S : Scop)
| ReqReleaseMemory
| ReqGetDependences (Kinds : Z)
| ReqIsValidScattering (LegalityCheckDisabled : bool) (S : Scop)
    (NewScattering : StatementToIslMapTy)
| ReqIsParallelDimension (S : Scop) (Domain : isl_set) (ParallelDim : Z).

(** The state of the pass after a request; the three queries leave it as
    it is. *)
Definition serve (this : Dependences) (r : request) : Dependences :=
  match r with
  | ReqRunOnScop scop => fst (runOnScop this scop)
  | ReqReleaseMemory => releaseMemory this
  | ReqGetDependences _ => this
  | ReqIsValidScattering _ _ _ => this
  | ReqIsParallelDimension _ _ _ => this
  end.

Definition is_query (r : request) : bool :=
  match r with
  | ReqRunOnScop _ | ReqReleaseMemory => false
  | _ => true
  end.

Definition present (u : isl_union_map) : bool :=
  match u with Some _ => true | None => false end.

(** All three relations are there, or none is. *)
Definition all_or_none (this : Dependences) : bool :=
  (present (RAW this) && present (WAR this) && present (WAW this))
  || (negb (present (RAW this)) && negb (present (WAR this))
      && negb (present (WAW this))).

(** The pairs of a union map, none for NULL. *)
Definition pairs_of (u : isl_union_map) : list (point * point) :=
  match u with
  | Some r => umap_pairs r
  | None => []
  end.

(** The relation behind a pointer, empty for NULL. *)
Definition deref (u : isl_union_map) : umap_rep :=
  match u with
  | Some r => r
  | None => mk_umap [] []
  end.

(** * Example Scops *)

(** The map [v |-> f v] on the vectors [dom]. *)
Definition graph (ps : list string) (tin tout : tuple) (dom : list vec)
    (f : vec -> vec) : map_rep :=
  mk_map ps tin tout (map (fun v => (v, f v)) dom).

Definition shift (k : Z) (v : vec) : vec := map (fun x => x + k) v.

Definition param_N : list string := ["N"%string].
Definition tuple_S1 : tuple := ("S"%string, 1%nat).
Definition tuple_A1 : tuple := ("A"%string, 1%nat).
Definition tuple_T1 : tuple := ("scattering"%string, 1%nat).
Definition dom4 : list vec := [[0]; [1]; [2]; [3]].

(** The recurrence [for (i = 0; i < 4; i++) A[i] = A[i-1]]. *)
Definition rec_stmt : ScopStmt :=
  mk_stmt (mk_set param_N tuple_S1 [[OneOf [0; 1; 2; 3]]])
    [mk_access READ (graph param_N tuple_S1 tuple_A1 dom4 (shift (-1)));
     mk_access MUST_WRITE (graph param_N tuple_S1 tuple_A1 dom4 (fun v => v))]
    (graph param_N tuple_S1 tuple_T1 dom4 (fun v => v)).

Definition rec_scop : Scop := mk_scop param_N [rec_stmt].

Definition rec_cache : Dependences := fst (runOnScop Dependences_ctor rec_scop).

(** The reversed schedule [i |-> 3 - i] for the statement of the
    recurrence. *)
Definition reversed : StatementToIslMapTy :=
  [(0%nat, Some (graph param_N tuple_S1 tuple_T1 dom4
                   (map (fun x => 3 - x))))].

(** The one-dimensional and two-dimensional anonymous time spaces. *)
Definition line : set_rep := mk_set [] (EmptyString, 1%nat) [[NoneOf []]].
Definition plane : set_rep :=
  mk_set [] (EmptyString, 2%nat) [[NoneOf []; NoneOf []]].

Definition tuple_S2 : tuple := ("S"%string, 2%nat).
Definition tuple_A2 : tuple := ("A"%string, 2%nat).
Definition tuple_T2 : tuple := ("scattering"%string, 2%nat).
Definition dom32 : list vec :=
  [[0; 0]; [0; 1]; [1; 0]; [1; 1]; [2; 0]; [2; 1]].

(** The nest [for (i = 0; i < 3; i++) for (j = 0; j < 2; j++)
    A[i][j] = A[i-1][j]]: the outer loop carries the dependence. *)
Definition nest_stmt : ScopStmt :=
  mk_stmt (mk_set [] tuple_S2 [[OneOf [0; 1; 2]; OneOf [0; 1]]])
    [mk_access READ
       (graph [] tuple_S2 tuple_A2 dom32
          (fun v => match v with i :: r => (i - 1) :: r | [] => [] end));
     mk_access MUST_WRITE (graph [] tuple_S2 tuple_A2 dom32 (fun v => v))]
    (graph [] tuple_S2 tuple_T2 dom32 (fun v => v)).

Definition nest_scop : Scop := mk_scop [] [nest_stmt].

Definition nest_cache : Dependences := fst (runOnScop Dependences_ctor nest_scop).

(** The recurrence again, its relations over the parameter [M] in a Scop
    over the parameter [N]. *)
Definition param_M : list string := ["M"%string].

Definition mismatch_stmt : ScopStmt :=
  mk_stmt (mk_set param_M tuple_S1 [[OneOf [0; 1; 2; 3]]])
    [mk_access READ (graph param_M tuple_S1 tuple_A1 dom4 (shift (-1)));
     mk_access MUST_WRITE (graph param_M tuple_S1 tuple_A1 dom4 (fun v => v))]
    (graph param_M tuple_S1 tuple_T1 dom4 (fun v => v)).

Definition mismatch_scop : Scop := mk_scop param_N [mismatch_stmt].

(** Independent iterations: [for (i = 0; i < 4; i++) A[i] = A[i] + 1]. *)
Definition indep_stmt : ScopStmt :=
  mk_stmt (mk_set param_N tuple_S1 [[OneOf [0; 1; 2; 3]]])
    [mk_access READ (graph param_N tuple_S1 tuple_A1 dom4 (fun v => v));
     mk_access MUST_WRITE (graph param_N tuple_S1 tuple_A1 dom4 (fun v => v))]
    (graph param_N tuple_S1 tuple_T1 dom4 (fun v => v)).

Definition indep_scop : Scop := mk_scop param_N [indep_stmt].

Definition indep_cache : Dependences :=
  fst (runOnScop Dependences_ctor indep_scop).

(** A conditional store: [for (i = 0; i < 2; i++) if (...) A[i] = ...]. *)
Definition dom2 : list vec := [[0]; [1]].

Definition maywrite_stmt : ScopStmt :=
  mk_stmt (mk_set param_N tuple_S1 [[OneOf [0; 1]]])
    [mk_access MAY_WRITE (graph param_N tuple_S1 tuple_A1 dom2 (fun v => v))]
    (graph param_N tuple_S1 tuple_T1 dom2 (fun v => v)).

Definition maywrite_scop : Scop := mk_scop param_N [maywrite_stmt].

(** The accumulation [for (i = 0; i < 4; i++) A[0] = A[0] + i]: every
    instance reads and writes the one element. *)
Definition sum_stmt : ScopStmt :=
  mk_stmt (mk_set param_N tuple_S1 [[OneOf [0; 1; 2; 3]]])
    [mk_access READ (graph param_N tuple_S1 tuple_A1 dom4 (fun _ => [0]));
     mk_access MUST_WRITE (graph param_N tuple_S1 tuple_A1 dom4 (fun _ => [0]))]
    (graph param_N tuple_S1 tuple_T1 dom4 (fun v => v)).

Definition sum_scop : Scop := mk_scop param_N [sum_stmt].

Definition sum_cache : Dependences := fst (runOnScop Dependences_ctor sum_scop).

(** The accumulation over a shifted array,
    [for (i = 0; i < 4; i++) { A[0] = A[0] + B[i+1]; B[i] = 0; }]: the
    element [B[i+1]] is read one iteration before it is written. *)
Definition tuple_B1 : tuple := ("B"%string, 1%nat).

Definition mixed_stmt : ScopStmt :=
  mk_stmt (mk_set param_N tuple_S1 [[OneOf [0; 1; 2; 3]]])
    [mk_access READ (graph param_N tuple_S1 tuple_A1 dom4 (fun _ => [0]));
     mk_access READ (graph param_N tuple_S1 tuple_B1 dom4 (shift 1));
     mk_access MUST_WRITE (graph param_N tuple_S1 tuple_A1 dom4 (fun _ => [0]));
     mk_access MUST_WRITE (graph param_N tuple_S1 tuple_B1 dom4 (fun v => v))]
    (graph param_N tuple_S1 tuple_T1 dom4 (fun v => v)).

Definition mixed_scop : Scop := mk_scop param_N [mixed_stmt].

Definition mixed_cache : Dependences :=
  fst (runOnScop Dependences_ctor mixed_scop).

(** Three statements of one instance each, [P: A[0] = 1], [Q: x = A[0]]
    and [T: A[0] = 2], where [P] and [Q] share the date 0 and [T] has the
    date 1. *)
Definition stmt_P : tuple := ("P"%string, 1%nat).
Definition stmt_Q : tuple := ("Q"%string, 1%nat).
Definition stmt_T : tuple := ("T"%string, 1%nat).
Definition dom1 : list vec := [[0]].

Definition cosched_stmt (t : tuple) (k : AccessType) (date : Z) : ScopStmt :=
  mk_stmt (mk_set [] t [[OneOf [0]]])
    [mk_access k (graph [] t tuple_A1 dom1 (fun _ => [0]))]
    (graph [] t tuple_T1 dom1 (fun _ => [date])).

Definition cosched_scop : Scop :=
  mk_scop [] [cosched_stmt stmt_P MUST_WRITE 0;
              cosched_stmt stmt_Q READ 0;
              cosched_stmt stmt_T MUST_WRITE 1].

Definition cosched_cache : Dependences :=
  fst (runOnScop Dependences_ctor cosched_scop).

(** [for (i = 0; i < 4; i++) A[i] = A[i-1] + A[0]]: the instance 1 reads
    one element, the instances 2 and 3 read two. *)
Definition prefix_stmt : ScopStmt :=
  mk_stmt (mk_set param_N tuple_S1 [[OneOf [0; 1; 2; 3]]])
    [mk_access READ (graph param_N tuple_S1 tuple_A1 dom4 (shift (-1)));
     mk_access READ (graph param_N tuple_S1 tuple_A1 dom4 (fun _ => [0]));
     mk_access MUST_WRITE (graph param_N tuple_S1 tuple_A1 dom4 (fun v => v))]
    (graph param_N tuple_S1 tuple_T1 dom4 (fun v => v)).

Definition prefix_scop : Scop := mk_scop param_N [prefix_stmt].

Definition prefix_cache : Dependences :=
  fst (runOnScop Dependences_ctor prefix_scop).

(** The interchange [(i, j) |-> (j, i)] of the two loops of the nest. *)
Definition interchanged : StatementToIslMapTy :=
  [(0%nat, Some (graph [] tuple_S2 tuple_T2 dom32 (fun v => rev v)))].

(** A cache with two of the four dependences of the nest. *)
Definition nest_half : Dependences :=
  {| RAW := Some (mk_umap []
                    [(("S"%string, [0; 0]), ("S"%string, [1; 0]));
                     (("S"%string, [1; 1]), ("S"%string, [2; 1]))]);
     WAR := Some (mk_umap [] []);
     WAW := Some (mk_umap [] []) |}.

(** * Notions used in the further properties *)

(** The pairs of the access relation of [MA] whose instance lies in the
    domain of [Stmt], as pairs of points. *)
Definition domain_access_points (Stmt : ScopStmt) (MA : MemoryAccess)
    : list (point * point) :=
  map (fun ab => ((fst (map_in (AccessRelation MA)), fst ab),
                  (fst (map_out (AccessRelation MA)), snd ab)))
    (filter (fun ab => set_mem (Domain Stmt) (fst ab))
       (map_pairs (AccessRelation MA))).

(** The accesses [keep] selects, over all statements, in the order of the
    Scop. *)
Definition access_points (keep : MemoryAccess -> bool) (S : Scop)
    : list (point * point) :=
  flat_map (fun Stmt =>
              flat_map (fun MA => if keep MA then domain_access_points Stmt MA
                                  else [])
                (MemAccs Stmt))
    (Stmts S).

Definition isWrite (MA : MemoryAccess) : bool := negb (isRead MA).

(** The dates of the statement instances, cut to their first [k]
    coordinates, in the anonymous tuple. *)
Definition truncated_points (k : nat) (S : Scop) : list (point * point) :=
  flat_map (fun Stmt =>
              map (fun ab => ((fst (map_in (Scattering Stmt)), fst ab),
                              (EmptyString, firstn k (snd ab))))
                (map_pairs (Scattering Stmt)))
    (Stmts S).

(** * Facts about the model of isl *)

Lemma existsb_map {A B : Type} (f : B -> bool) (g : A -> B) (l : list A) :
  existsb f (map g l) = existsb (fun x => f (g x)) l.
Proof. induction l as [|x l IH]; simpl; [reflexivity | now rewrite IH]. Qed.

Lemma existsb_ext {A : Type} (f g : A -> bool) (l : list A) :
  (forall x, f x = g x) -> existsb f l = existsb g l.
Proof. intros H. induction l as [|x l IH]; simpl; [reflexivity | now rewrite H, IH]. Qed.

Lemma existsb_false {A : Type} (l : list A) : existsb (fun _ => false) l = false.
Proof. induction l; simpl; auto. Qed.

Lemma zmem_In (z : Z) (l : list Z) : zmem z l = true <-> In z l.
Proof.
  unfold zmem. rewrite existsb_exists. split.
  - intros [x [Hx Heq]]. apply Z.eqb_eq in Heq. now subst.
  - intros H. exists z. split; [assumption | apply Z.eqb_refl].
Qed.

Lemma zmem_app (z : Z) (l m : list Z) : zmem z (l ++ m) = zmem z l || zmem z m.
Proof. unfold zmem. apply existsb_app. Qed.

Lemma zmem_filter (f : Z -> bool) (z : Z) (l : list Z) :
  zmem z (filter f l) = zmem z l && f z.
Proof.
  induction l as [|x l IH]; simpl; [reflexivity|].
  destruct (f x) eqn:Hf; simpl; rewrite IH.
  - destruct (Z.eqb_spec z x) as [->|Hne]; simpl; [now rewrite Hf|reflexivity].
  - destruct (Z.eqb_spec z x) as [->|Hne]; simpl; [|reflexivity].
    rewrite Hf. now rewrite andb_false_r.
Qed.

Lemma coord_inter_mem (c d : coord) (z : Z) :
  coord_mem (coord_inter c d) z = coord_mem c z && coord_mem d z.
Proof.
  destruct c as [l|l], d as [m|m]; simpl.
  - apply zmem_filter.
  - apply zmem_filter.
  - rewrite zmem_filter. simpl. apply andb_comm.
  - rewrite zmem_app. apply negb_orb.
Qed.

Lemma cell_mem_length (c : cell) (v : vec) :
  cell_mem c v = true -> length c = length v.
Proof.
  revert v. induction c as [|a c IH]; intros [|z v]; simpl; try discriminate.
  - reflexivity.
  - intros H. apply andb_true_iff in H. f_equal. now apply IH.
Qed.

Lemma cell_inter_mem (c d : cell) (v : vec) :
  cell_mem (cell_inter c d) v = cell_mem c v && cell_mem d v.
Proof.
  revert d v. induction c as [|a c IH]; intros [|b d] [|z v]; simpl;
    try reflexivity; try (now rewrite andb_false_r).
  rewrite coord_inter_mem, IH.
  destruct (coord_mem a z), (coord_mem b z), (cell_mem c v); reflexivity.
Qed.

Lemma cell_univ_mem (n : nat) (v : vec) :
  cell_mem (cell_univ n) v = Nat.eqb (length v) n.
Proof.
  revert v. induction n as [|n IH]; intros [|z v]; simpl; try reflexivity.
  apply IH.
Qed.

Lemma cell_univ_length (n : nat) : length (cell_univ n) = n.
Proof. apply repeat_length. Qed.

Lemma cell_compl_mem (c : cell) (v : vec) :
  mem_any (cell_compl c) v = Nat.eqb (length v) (length c) && negb (cell_mem c v).
Proof.
  unfold mem_any.
  revert v. induction c as [|a c IH]; intros [|z v]; simpl; try reflexivity.
  - rewrite existsb_map. simpl. apply existsb_false.
  - rewrite cell_univ_mem, existsb_map. simpl. rewrite IH.
    destruct a as [l|l]; simpl;
      destruct (zmem z l), (Nat.eqb (length v) (length c)), (cell_mem c v);
      reflexivity.
Qed.

Lemma cells_inter_mem (cs ds : list cell) (v : vec) :
  mem_any (cells_inter cs ds) v = mem_any cs v && mem_any ds v.
Proof.
  unfold mem_any, cells_inter.
  induction cs as [|c cs IH]; simpl; [reflexivity|].
  rewrite existsb_app, IH, existsb_map.
  assert (H : existsb (fun x => cell_mem (cell_inter c x) v) ds
              = cell_mem c v && existsb (fun c0 => cell_mem c0 v) ds).
  { clear. induction ds as [|d ds IH]; simpl; [now rewrite andb_false_r|].
    rewrite IH, cell_inter_mem.
    destruct (cell_mem c v), (cell_mem d v); reflexivity. }
  rewrite H.
  destruct (cell_mem c v), (existsb (fun c0 => cell_mem c0 v) ds),
    (existsb (fun c0 => cell_mem c0 v) cs); reflexivity.
Qed.

Lemma cells_compl_mem (n : nat) (cs : list cell) (v : vec) :
  Forall (fun c => length c = n) cs ->
  mem_any (cells_compl n cs) v = Nat.eqb (length v) n && negb (mem_any cs v).
Proof.
  intros H. induction H as [|c cs Hc Hcs IH]; simpl.
  - rewrite cell_univ_mem. now rewrite orb_false_r, andb_true_r.
  - fold (cells_compl n cs). rewrite cells_inter_mem, IH, cell_compl_mem, Hc.
    fold (mem_any cs v).
    destruct (Nat.eqb (length v) n), (cell_mem c v), (mem_any cs v); reflexivity.
Qed.

(** ** Sets *)

Lemma set_boxes_length (s : set_rep) :
  Forall (fun c => length c = snd (set_tuple s)) (set_boxes s).
Proof.
  unfold set_boxes. apply Forall_forall. intros c Hc.
  apply filter_In in Hc. destruct Hc as [_ Hc]. now apply Nat.eqb_eq in Hc.
Qed.

Lemma mem_any_filter_length (n : nat) (cs : list cell) (v : vec) :
  mem_any (filter (fun c => Nat.eqb (length c) n) cs) v
  = Nat.eqb (length v) n && mem_any cs v.
Proof.
  unfold mem_any. induction cs as [|c cs IH]; simpl.
  - now rewrite andb_false_r.
  - destruct (Nat.eqb_spec (length c) n) as [Hc|Hc]; simpl; rewrite IH.
    + destruct (cell_mem c v) eqn:Hm; simpl.
      * apply cell_mem_length in Hm. rewrite <- Hm, Hc, Nat.eqb_refl. reflexivity.
      * reflexivity.
    + destruct (cell_mem c v) eqn:Hm; simpl; [|reflexivity].
      apply cell_mem_length in Hm. rewrite <- Hm.
      destruct (Nat.eqb_spec (length c) n); [contradiction | reflexivity].
Qed.

Lemma set_mem_mk (ps : list string) (t : tuple) (cs : list cell) (v : vec) :
  set_mem (mk_set ps t cs) v = Nat.eqb (length v) (snd t) && mem_any cs v.
Proof. unfold set_mem, set_boxes. simpl. apply mem_any_filter_length. Qed.

Lemma set_mem_length (s : set_rep) (v : vec) :
  set_mem s v = true -> length v = snd (set_tuple s).
Proof.
  destruct s as [ps t cs]. rewrite set_mem_mk. simpl.
  intros H. apply andb_true_iff in H. now apply Nat.eqb_eq.
Qed.

Lemma set_boxes_mem (s : set_rep) (v : vec) :
  mem_any (set_boxes s) v = set_mem s v.
Proof. reflexivity. Qed.

Lemma set_diff_mem (a b : set_rep) (v : vec) :
  set_tuple a = set_tuple b ->
  set_mem (set_diff a b) v = set_mem a v && negb (set_mem b v).
Proof.
  intros Ht. unfold set_diff. rewrite set_mem_mk. simpl.
  rewrite cells_inter_mem, cells_compl_mem, !set_boxes_mem.
  - destruct (set_mem a v) eqn:Ha; simpl.
    + apply set_mem_length in Ha. rewrite Ha, Nat.eqb_refl. reflexivity.
    + now rewrite andb_false_r.
  - rewrite Ht. apply set_boxes_length.
Qed.

Lemma set_diff_tuple (a b : set_rep) : set_tuple (set_diff a b) = set_tuple a.
Proof. reflexivity. Qed.

Lemma set_complement_mem (r : set_rep) (v : vec) :
  set_mem (mk_set (set_params r) (set_tuple r)
             (cells_compl (snd (set_tuple r)) (set_boxes r))) v
  = Nat.eqb (length v) (snd (set_tuple r)) && negb (set_mem r v).
Proof.
  rewrite set_mem_mk. simpl. rewrite cells_compl_mem, set_boxes_mem.
  - now rewrite andb_assoc, andb_diag.
  - apply set_boxes_length.
Qed.

Lemma fresh_above (l : list Z) (z : Z) : In z l -> z < fresh l.
Proof.
  unfold fresh. induction l as [|x l IH]; cbn [fold_right In]; [contradiction|].
  intros [->|H]; [lia|]. specialize (IH H). lia.
Qed.

Lemma fresh_zmem (l : list Z) : zmem (fresh l) l = false.
Proof.
  destruct (zmem (fresh l) l) eqn:H; [|reflexivity].
  apply zmem_In, fresh_above in H. lia.
Qed.

Lemma coord_pick_mem (c : coord) :
  coord_empty c = false -> coord_mem c (coord_pick c) = true.
Proof.
  destruct c as [[|x l]|l]; simpl; intros H.
  - discriminate.
  - now rewrite Z.eqb_refl.
  - now rewrite fresh_zmem.
Qed.

Lemma cell_empty_mem (c : cell) (v : vec) :
  cell_empty c = true -> cell_mem c v = false.
Proof.
  unfold cell_empty. revert v.
  induction c as [|a c IH]; intros [|z v]; simpl; try reflexivity; try discriminate.
  intros H. apply orb_true_iff in H. destruct H as [H|H].
  - destruct a as [[|x l]|l]; simpl in H; try discriminate. reflexivity.
  - rewrite (IH v H). apply andb_false_r.
Qed.

Lemma cell_pick_mem (c : cell) :
  cell_empty c = false -> cell_mem c (map coord_pick c) = true.
Proof.
  unfold cell_empty. induction c as [|a c IH]; simpl; [reflexivity|].
  intros H. apply orb_false_iff in H. destruct H as [Ha Hc].
  now rewrite coord_pick_mem, IH.
Qed.

Lemma set_is_empty_spec (s : set_rep) :
  set_is_empty s = true <-> forall v, set_mem s v = false.
Proof.
  unfold set_is_empty, set_mem, mem_any. split.
  - intros H v. rewrite forallb_forall in H.
    destruct (existsb _ _) eqn:E; [|reflexivity].
    apply existsb_exists in E. destruct E as [c [Hc Hm]].
    rewrite (cell_empty_mem c v (H c Hc)) in Hm. discriminate.
  - intros H. apply forallb_forall. intros c Hc.
    destruct (cell_empty c) eqn:E; [reflexivity|].
    specialize (H (map coord_pick c)).
    assert (existsb (fun c0 => cell_mem c0 (map coord_pick c)) (set_boxes s) = true).
    { apply existsb_exists. exists c. split; [assumption | now apply cell_pick_mem]. }
    congruence.
Qed.

Lemma cell_fix_length (c : cell) (pos : nat) (val : Z) :
  length (cell_fix c pos val) = length c.
Proof.
  revert pos. induction c as [|a c IH]; intros [|pos]; simpl; try reflexivity.
  now rewrite IH.
Qed.

Lemma cell_fix_mem (c : cell) (pos : nat) (val : Z) (v : vec) :
  (pos < length c)%nat ->
  cell_mem (cell_fix c pos val) v = cell_mem c v && (nth pos v 0 =? val).
Proof.
  revert pos v. induction c as [|a c IH]; intros pos v Hpos; simpl in Hpos; [lia|].
  destruct pos as [|pos], v as [|z v]; simpl; try reflexivity.
  - rewrite coord_inter_mem. simpl. rewrite orb_false_r.
    destruct (coord_mem a z), (cell_mem c v), (z =? val); reflexivity.
  - rewrite IH by lia. now rewrite andb_assoc.
Qed.

Lemma mem_any_map_fix (cs : list cell) (pos : nat) (val : Z) (v : vec) :
  Forall (fun c => (pos < length c)%nat) cs ->
  mem_any (map (fun c => cell_fix c pos val) cs) v
  = mem_any cs v && (nth pos v 0 =? val).
Proof.
  unfold mem_any. intros H. induction H as [|c cs Hc Hcs IH]; simpl; [reflexivity|].
  rewrite IH, cell_fix_mem by assumption.
  destruct (cell_mem c v), (nth pos v 0 =? val); simpl; try reflexivity.
  now rewrite andb_false_r.
Qed.

Lemma isl_set_fix_si_mem (r : set_rep) (pos val : Z) :
  0 <= pos < Z.of_nat (snd (set_tuple r)) ->
  exists r', isl_set_fix_si (Some r) isl_dim_set pos val = Some r'
             /\ set_tuple r' = set_tuple r
             /\ set_params r' = set_params r
             /\ forall v, set_mem r' v
                          = set_mem r v && (nth (Z.to_nat pos) v 0 =? val).
Proof.
  intros Hpos. unfold isl_set_fix_si. simpl.
  destruct (Z.leb_spec 0 pos); [|lia].
  destruct (Z.ltb_spec pos (Z.of_nat (snd (set_tuple r)))); [|lia]. simpl.
  eexists. split; [reflexivity|]. simpl. repeat split.
  intros v. rewrite set_mem_mk, mem_any_map_fix, set_boxes_mem.
  - destruct (set_mem r v) eqn:Hm; simpl; [|now rewrite andb_false_r].
    apply set_mem_length in Hm. now rewrite Hm, Nat.eqb_refl.
  - eapply Forall_impl; [|apply set_boxes_length]. simpl. intros c Hc. lia.
Qed.

Lemma forallb_firstn_S {A : Type} (f : A -> bool) (d : A) (k : nat) (v : list A) :
  (k < length v)%nat ->
  forallb f (firstn (S k) v) = forallb f (firstn k v) && f (nth k v d).
Proof.
  revert v. induction k as [|k IH]; intros [|z v] H; simpl in *; try lia.
  - destruct v; simpl; now rewrite andb_true_r.
  - rewrite (IH v) by lia. simpl. now rewrite andb_assoc.
Qed.

Lemma fix_zero_nat_mem (k : nat) (r : set_rep) :
  (k <= snd (set_tuple r))%nat ->
  exists r', fold_left (fun Set_ i => isl_set_fix_si Set_ isl_dim_set (Z.of_nat i) 0)
               (seq 0 k) (Some r) = Some r'
             /\ set_tuple r' = set_tuple r
             /\ set_params r' = set_params r
             /\ forall v, set_mem r' v = set_mem r v && forallb is_zero (firstn k v).
Proof.
  induction k as [|k IH]; intros Hk.
  - exists r. simpl. repeat split. intros v. now rewrite andb_true_r.
  - destruct IH as [r1 [E1 [T1 [P1 M1]]]]; [lia|].
    rewrite seq_S, fold_left_app, E1. cbn [fold_left Nat.add].
    destruct (isl_set_fix_si_mem r1 (Z.of_nat k) 0) as [r2 [E2 [T2 [P2 M2]]]].
    { rewrite T1. lia. }
    exists r2. split; [exact E2|]. split; [congruence|]. split; [congruence|].
    intros v. rewrite M2, M1, Nat2Z.id.
    destruct (set_mem r v) eqn:Hm; [|reflexivity].
    apply set_mem_length in Hm.
    rewrite (forallb_firstn_S is_zero 0 k v) by lia. reflexivity.
Qed.

Lemma fix_zero_mem (n : Z) (r : set_rep) :
  0 <= n <= Z.of_nat (snd (set_tuple r)) ->
  exists r', fix_zero n (Some r) = Some r'
             /\ set_tuple r' = set_tuple r
             /\ set_params r' = set_params r
             /\ forall v, set_mem r' v
                          = set_mem r v && forallb is_zero (firstn (Z.to_nat n) v).
Proof. intros Hn. unfold fix_zero. apply fix_zero_nat_mem. lia. Qed.

Lemma universe_mem (ps : list string) (t : tuple) (v : vec) :
  set_mem (mk_set ps t [cell_univ (snd t)]) v = Nat.eqb (length v) (snd t).
Proof.
  rewrite set_mem_mk. unfold mem_any. simpl.
  rewrite cell_univ_mem, orb_false_r. apply andb_diag.
Qed.

(** ** Enumerating the points of a set *)

Lemma cell_enum_spec (c : cell) (l : list vec) :
  cell_enum c = Some l -> forall v, In v l <-> cell_mem c v = true.
Proof.
  revert l. induction c as [|a c IH]; intros l H v; simpl in H.
  - injection H as <-. simpl. destruct v; simpl; intuition congruence.
  - destruct a as [m|m]; [|discriminate].
    destruct (cell_enum c) as [vs|] eqn:E; [|discriminate].
    injection H as <-. rewrite in_flat_map. split.
    + intros [z [Hz Hv]]. apply in_map_iff in Hv. destruct Hv as [w [<- Hw]].
      simpl. apply andb_true_iff. split.
      * now apply zmem_In.
      * now apply (IH vs eq_refl).
    + destruct v as [|z w]; simpl; [discriminate|].
      intros Hm. apply andb_true_iff in Hm. destruct Hm as [Hz Hw].
      exists z. split; [now apply zmem_In|].
      apply in_map. now apply (IH vs eq_refl).
Qed.

Lemma cell_points_spec (c : cell) (l : list vec) :
  cell_points c = Some l -> forall v, In v l <-> cell_mem c v = true.
Proof.
  unfold cell_points. destruct (cell_empty c) eqn:E.
  - intros H v. injection H as <-. rewrite (cell_empty_mem c v E).
    simpl. intuition congruence.
  - apply cell_enum_spec.
Qed.

Lemma cells_points_spec (cs : list cell) (l : list vec) :
  cells_points cs = Some l -> forall v, In v l <-> mem_any cs v = true.
Proof.
  unfold mem_any. revert l. induction cs as [|c cs IH]; intros l H v; simpl in H.
  - injection H as <-. simpl. intuition congruence.
  - destruct (cell_points c) as [vs|] eqn:E1; [|discriminate].
    destruct (cells_points cs) as [ws|] eqn:E2; [|discriminate].
    injection H as <-. simpl. rewrite in_app_iff, orb_true_iff.
    rewrite (cell_points_spec c vs E1 v), (IH ws eq_refl v). reflexivity.
Qed.

Lemma set_points_spec (s : set_rep) (l : list vec) :
  set_points s = Some l -> forall v, In v l <-> set_mem s v = true.
Proof. apply cells_points_spec. Qed.

Lemma point_cell_length (v : vec) : length (point_cell v) = length v.
Proof. apply length_map. Qed.

Lemma point_cell_mem (v w : vec) : cell_mem (point_cell v) w = true <-> w = v.
Proof.
  revert w. induction v as [|z v IH]; intros [|y w]; simpl;
    try (split; [discriminate | congruence]).
  - split; reflexivity.
  - rewrite orb_false_r, andb_true_iff, IH, Z.eqb_eq. split.
    + intros [-> ->]. reflexivity.
    + intros H. injection H as -> ->. split; reflexivity.
Qed.

Lemma point_cell_points (v : vec) : exists l, cell_points (point_cell v) = Some l.
Proof.
  unfold cell_points.
  assert (E : cell_empty (point_cell v) = false).
  { unfold cell_empty. induction v as [|z v IH]; simpl; [reflexivity | exact IH]. }
  rewrite E. induction v as [|z v IH]; simpl.
  - eexists. reflexivity.
  - destruct IH as [l Hl].
    + unfold cell_empty in E. simpl in E. exact E.
    + rewrite Hl. eexists. reflexivity.
Qed.

Lemma cells_points_defined (cs : list cell) :
  Forall (fun c => exists v, c = point_cell v) cs ->
  exists l, cells_points cs = Some l.
Proof.
  intros H. induction H as [|c cs [v ->] Hcs [ws Hws]]; simpl.
  - eexists. reflexivity.
  - destruct (point_cell_points v) as [vs Hvs]. rewrite Hvs, Hws.
    eexists. reflexivity.
Qed.

(** The set fixed to zero in every coordinate is the point zero. *)
Lemma cell_fix_app (l1 l2 : cell) (a : coord) (k : nat) (val : Z) :
  length l1 = k ->
  cell_fix (l1 ++ a :: l2) k val = l1 ++ coord_inter a (OneOf [val]) :: l2.
Proof.
  intros <-. induction l1 as [|b l1 IH]; simpl; [reflexivity | now rewrite IH].
Qed.

Lemma fix_zero_nat_universe (ps : list string) (nm : string) (n k : nat) :
  (k <= n)%nat ->
  fold_left (fun Set_ i => isl_set_fix_si Set_ isl_dim_set (Z.of_nat i) 0)
    (seq 0 k) (Some (mk_set ps (nm, n) [cell_univ n]))
  = Some (mk_set ps (nm, n) [point_cell (repeat 0 k) ++ cell_univ (n - k)]).
Proof.
  induction k as [|k IH]; intros Hk.
  - simpl. now rewrite Nat.sub_0_r.
  - rewrite seq_S, fold_left_app, IH by lia. cbn [fold_left Nat.add].
    unfold isl_set_fix_si, set_boxes. cbn [set_tuple set_params set_cells snd is_dim_out isl_dim_set].
    cbn [filter].
    assert (L : length (point_cell (repeat 0 k) ++ cell_univ (n - k)) = n).
    { rewrite length_app, point_cell_length, repeat_length, cell_univ_length. lia. }
    rewrite L, Nat.eqb_refl.
    destruct (Z.leb_spec 0 (Z.of_nat k)); [|lia].
    destruct (Z.ltb_spec (Z.of_nat k) (Z.of_nat n)); [|lia].
    cbn [andb map]. rewrite Nat2Z.id.
    replace (n - k)%nat with (S (n - S k)) by lia.
    cbn [cell_univ repeat].
    rewrite cell_fix_app by (now rewrite point_cell_length, repeat_length).
    cbn [coord_inter coord_mem zmem existsb negb filter].
    do 3 f_equal.
    rewrite repeat_cons. unfold point_cell. rewrite map_app. cbn [map].
    now rewrite <- app_assoc.
Qed.

Lemma Zero_is_point (ps : list string) (t : tuple) :
  fix_zero (Z.of_nat (snd t)) (Some (mk_set ps t [cell_univ (snd t)]))
  = Some (mk_set ps t [point_cell (repeat 0 (snd t))]).
Proof.
  unfold fix_zero. destruct t as [nm n]. cbn [snd]. rewrite Nat2Z.id.
  rewrite fix_zero_nat_universe by lia.
  rewrite Nat.sub_diag. cbn [cell_univ repeat]. now rewrite app_nil_r.
Qed.

(** ** Union sets *)

Lemma tuple_eqb_true (s t : tuple) :
  (if tuple_eq_dec s t then true else false) = true <-> s = t.
Proof. destruct (tuple_eq_dec s t); split; congruence. Qed.

Lemma point_eqb_true (p q : point) : point_eqb p q = true <-> p = q.
Proof. unfold point_eqb. destruct (point_eq_dec p q); split; congruence. Qed.

Lemma uset_mem_spec (u : uset_rep) (p : point) :
  uset_mem u p = true <->
  exists s, In s (uset_sets u) /\ set_tuple s = point_space p
            /\ set_mem s (snd p) = true.
Proof.
  unfold uset_mem. rewrite existsb_exists. split.
  - intros [s [Hs H]]. apply andb_true_iff in H. destruct H as [Ht Hm].
    apply tuple_eqb_true in Ht. now exists s.
  - intros [s [Hs [Ht Hm]]]. exists s. split; [assumption|].
    apply andb_true_iff. split; [now apply tuple_eqb_true | assumption].
Qed.

Lemma subtract_fold_spec (ts : list set_rep) (s : set_rep) :
  let r := fold_left (fun acc t =>
                        if tuple_eq_dec (set_tuple acc) (set_tuple t)
                        then set_diff acc t else acc) ts s in
  set_tuple r = set_tuple s
  /\ forall v, set_mem r v
               = set_mem s v
                 && negb (existsb (fun t =>
                                     (if tuple_eq_dec (set_tuple t) (set_tuple s)
                                      then true else false) && set_mem t v) ts).
Proof.
  revert s. induction ts as [|t ts IH]; intros s; simpl.
  - split; [reflexivity|]. intros v. now rewrite andb_true_r.
  - destruct (tuple_eq_dec (set_tuple s) (set_tuple t)) as [E|E].
    + destruct (IH (set_diff s t)) as [T M]. split; [exact T|].
      intros v. rewrite M, set_diff_mem by exact E. simpl.
      destruct (tuple_eq_dec (set_tuple t) (set_tuple s)); [|congruence].
      simpl. rewrite negb_orb, andb_assoc. reflexivity.
    + destruct (IH s) as [T M]. split; [exact T|].
      intros v. rewrite M.
      destruct (tuple_eq_dec (set_tuple t) (set_tuple s)); [congruence|].
      reflexivity.
Qed.

Lemma isl_union_set_subtract_mem (a b : uset_rep) :
  exists c, isl_union_set_subtract (Some a) (Some b) = Some c
            /\ forall p, uset_mem c p = uset_mem a p && negb (uset_mem b p).
Proof.
  eexists. split; [reflexivity|]. intros p.
  unfold uset_mem at 1 2. cbn [uset_sets]. rewrite existsb_map.
  induction (uset_sets a) as [|s ss IH]; simpl; [reflexivity|].
  rewrite IH. clear IH.
  destruct (subtract_fold_spec (uset_sets b) s) as [T M]. simpl in T, M.
  rewrite T, M.
  destruct (tuple_eq_dec (set_tuple s) (point_space p)) as [E|E]; simpl.
  - rewrite E. fold (uset_mem b p).
    destruct (set_mem s (snd p)), (uset_mem b p),
      (existsb (fun s0 => (if tuple_eq_dec (set_tuple s0) (point_space p)
                           then true else false) && set_mem s0 (snd p)) ss);
      reflexivity.
  - reflexivity.
Qed.

Lemma isl_union_set_is_empty_spec (u : uset_rep) :
  int_to_bool (isl_union_set_is_empty (Some u)) = true
  <-> forall p, uset_mem u p = false.
Proof.
  unfold isl_union_set_is_empty. split.
  - destruct (forallb set_is_empty (uset_sets u)) eqn:E; [|discriminate].
    intros _ p. destruct (uset_mem u p) eqn:Hp; [|reflexivity].
    apply uset_mem_spec in Hp. destruct Hp as [s [Hs [_ Hm]]].
    rewrite forallb_forall in E. specialize (E s Hs).
    rewrite set_is_empty_spec in E. congruence.
  - intros H.
    assert (E : forallb set_is_empty (uset_sets u) = true).
    { apply forallb_forall. intros s Hs. apply set_is_empty_spec. intros v.
      destruct (set_mem s v) eqn:Hm; [|reflexivity].
      specialize (H (fst (set_tuple s), v)).
      assert (uset_mem u (fst (set_tuple s), v) = true); [|congruence].
      apply uset_mem_spec. exists s. split; [assumption|]. split; [|assumption].
      unfold point_space. simpl. rewrite (set_mem_length s v Hm).
      now destruct (set_tuple s). }
    now rewrite E.
Qed.

Lemma extract_set_mem (u : uset_rep) (ps : list string) (t : tuple) :
  exists e, isl_union_set_extract_set (Some u) (Some (mk_space ps None (Some t)))
            = Some e
            /\ set_tuple e = t
            /\ (forall c, In c (set_boxes e) ->
                          exists s, In s (uset_sets u) /\ In c (set_boxes s))
            /\ forall v, length v = snd t ->
                         set_mem e v = uset_mem u (fst t, v).
Proof.
  eexists. split; [reflexivity|]. split; [reflexivity|]. split.
  - intros c Hc. unfold set_boxes at 1 in Hc. cbn [set_cells] in Hc.
    apply filter_In in Hc. destruct Hc as [Hc _].
    apply in_flat_map in Hc. destruct Hc as [s [Hs Hc]].
    apply filter_In in Hs. destruct Hs as [Hs _]. now exists s.
  - intros v Hv. rewrite set_mem_mk. unfold uset_mem, mem_any.
    assert (Ht : point_space (fst t, v) = t).
    { unfold point_space. simpl. rewrite Hv. now destruct t. }
    rewrite Ht. cbn [snd]. rewrite Hv, Nat.eqb_refl. cbn [andb].
    induction (uset_sets u) as [|s ss IH]; simpl; [reflexivity|].
    destruct (tuple_eq_dec (set_tuple s) t) as [E|E]; simpl.
    + rewrite existsb_app. fold (mem_any (set_boxes s) v).
      rewrite set_boxes_mem, IH. reflexivity.
    + exact IH.
Qed.

(** ** Union maps *)

Lemma In_images (f : list (point * point)) (p q : point) :
  In q (images f p) <-> In (p, q) f.
Proof.
  unfold images. rewrite in_map_iff. split.
  - intros [[x y] [Hy Hin]]. simpl in Hy. subst y.
    apply filter_In in Hin. destruct Hin as [Hin Hx].
    apply point_eqb_true in Hx. simpl in Hx. now subst x.
  - intros H. exists (p, q). split; [reflexivity|].
    apply filter_In. split; [assumption | now apply point_eqb_true].
Qed.

Lemma In_apply_domain (a b : list (point * point)) (p' q : point) :
  In (p', q) (flat_map (fun pq => map (fun x => (x, snd pq)) (images b (fst pq))) a)
  <-> exists p, In (p, q) a /\ In (p, p') b.
Proof.
  rewrite in_flat_map. split.
  - intros [[p q0] [Ha Hm]]. simpl in Hm. apply in_map_iff in Hm.
    destruct Hm as [x [Hx Hi]]. injection Hx as -> ->.
    exists p. split; [assumption | now apply In_images].
  - intros [p [Ha Hb]]. exists (p, q). split; [assumption|]. simpl.
    apply in_map_iff. exists p'. split; [reflexivity | now apply In_images].
Qed.

Lemma In_apply_range (a b : list (point * point)) (p q' : point) :
  In (p, q') (flat_map (fun pq => map (fun x => (fst pq, x)) (images b (snd pq))) a)
  <-> exists q, In (p, q) a /\ In (q, q') b.
Proof.
  rewrite in_flat_map. split.
  - intros [[p0 q] [Ha Hm]]. simpl in Hm. apply in_map_iff in Hm.
    destruct Hm as [x [Hx Hi]]. injection Hx as -> ->.
    exists q. split; [assumption | now apply In_images].
  - intros [q [Ha Hb]]. exists (p, q). split; [assumption|]. simpl.
    apply in_map_iff. exists q'. split; [reflexivity | now apply In_images].
Qed.

Lemma vsub_length (b a : vec) :
  length a = length b -> length (vsub b a) = length a.
Proof.
  revert a. induction b as [|y b IH]; intros [|x a] H; simpl in *; try lia.
  now rewrite IH by lia.
Qed.

Lemma cell_points_point (v : vec) : cell_points (point_cell v) = Some [v].
Proof.
  unfold cell_points.
  assert (E : cell_empty (point_cell v) = false).
  { unfold cell_empty. induction v as [|z v IH]; simpl; [reflexivity | exact IH]. }
  rewrite E. clear E. induction v as [|z v IH]; simpl; [reflexivity|].
  now rewrite IH.
Qed.

Lemma singleton_set_boxes (ps : list string) (t : tuple) (v : vec) (c : cell) :
  In c (set_boxes (singleton_set ps t v)) -> c = point_cell v.
Proof.
  unfold set_boxes, singleton_set. simpl.
  destruct (Nat.eqb _ _); simpl; intuition.
Qed.

Lemma singleton_set_mem (ps : list string) (t : tuple) (v w : vec) :
  length v = snd t ->
  (set_mem (singleton_set ps t v) w = true <-> w = v).
Proof.
  intros Hv. unfold singleton_set. rewrite set_mem_mk. unfold mem_any. simpl.
  rewrite orb_false_r, andb_true_iff, point_cell_mem, Nat.eqb_eq. split.
  - now intros [_ H].
  - intros ->. now split.
Qed.

Lemma deltas_spec (r : umap_rep) :
  exists u, isl_union_map_deltas (Some r) = Some u
            /\ (forall s, In s (uset_sets u) -> forall c, In c (set_boxes s) ->
                          exists v, c = point_cell v)
            /\ forall p, uset_mem u p = true <->
                         exists a b, In (a, b) (umap_pairs r)
                                     /\ point_space a = point_space b
                                     /\ p = (fst a, vsub (snd b) (snd a)).
Proof.
  eexists. split; [reflexivity|]. cbn [uset_sets]. split.
  - intros s Hs c Hc. apply in_flat_map in Hs. destruct Hs as [[a b] [_ Hs]].
    simpl in Hs. destruct (tuple_eq_dec _ _); [|contradiction].
    destruct Hs as [<-|[]]. apply singleton_set_boxes in Hc. now exists (vsub (snd b) (snd a)).
  - intros p. rewrite uset_mem_spec. cbn [uset_sets]. split.
    + intros [s [Hs [Ht Hm]]]. apply in_flat_map in Hs.
      destruct Hs as [[a b] [Hab Hs]]. simpl in Hs.
      destruct (tuple_eq_dec (point_space a) (point_space b)) as [E|E]; [|contradiction].
      destruct Hs as [<-|[]]. simpl in Ht.
      apply singleton_set_mem in Hm.
      * exists a, b. split; [assumption|]. split; [assumption|].
        destruct p as [nm v]. simpl in Hm. subst v.
        unfold point_space in Ht. simpl in Ht. injection Ht as Hn _.
        now rewrite Hn.
      * simpl. apply vsub_length. unfold point_space in E. now injection E.
    + intros [a [b [Hab [E ->]]]].
      exists (singleton_set (umap_params r) (point_space a) (vsub (snd b) (snd a))).
      assert (L : length (vsub (snd b) (snd a)) = length (snd a)).
      { apply vsub_length. unfold point_space in E. now injection E. }
      split; [|split].
      * apply in_flat_map. exists (a, b). split; [assumption|]. simpl.
        destruct (tuple_eq_dec (point_space a) (point_space b)); [|contradiction].
        now left.
      * unfold point_space. simpl. now rewrite L.
      * simpl. apply singleton_set_mem; [exact L | reflexivity].
Qed.

(** ** The lexicographic order *)

Lemma lex_leb_cons (x y : Z) (d z : vec) :
  lex_leb (x :: d) (y :: z) = (x <? y) || ((x =? y) && lex_leb d z).
Proof.
  unfold lex_leb. cbn [lex_ltb].
  destruct (Z.ltb_spec x y) as [H|H]; [reflexivity|]. cbn [orb].
  destruct (Z.eqb_spec x y) as [E|E]; cbn [andb].
  - subst y. destruct (vec_eq_dec d z) as [->|F].
    + destruct (vec_eq_dec (x :: z) (x :: z)); [reflexivity | congruence].
    + destruct (vec_eq_dec (x :: d) (x :: z)); [congruence | reflexivity].
  - destruct (vec_eq_dec (x :: d) (y :: z)); [congruence | reflexivity].
Qed.

Lemma nonpositive_cons (x : Z) (d : vec) :
  nonpositive (x :: d) = (x <? 0) || (is_zero x && nonpositive d).
Proof. unfold nonpositive. cbn [length repeat]. apply lex_leb_cons. Qed.

Lemma nonpositive_zero (n : nat) : nonpositive (repeat 0 n) = true.
Proof.
  induction n as [|n IH]; cbn [repeat]; [reflexivity|].
  now rewrite nonpositive_cons, IH.
Qed.

Lemma lex_ltb_positive (a b : vec) :
  length a = length b -> lex_ltb a b = true -> nonpositive (vsub b a) = false.
Proof.
  revert b. induction a as [|x a IH]; intros [|y b] L H; simpl in *; try discriminate.
  rewrite nonpositive_cons. unfold is_zero.
  apply orb_true_iff in H. destruct H as [H|H].
  - apply Z.ltb_lt in H.
    destruct (Z.ltb_spec (y - x) 0); [lia|].
    destruct (Z.eqb_spec (y - x) 0); [lia|]. reflexivity.
  - apply andb_true_iff in H. destruct H as [E H]. apply Z.eqb_eq in E. subst y.
    rewrite (IH b) by (assumption || lia).
    destruct (Z.ltb_spec (x - x) 0); [lia|]. now rewrite andb_false_r.
Qed.

Lemma carried_by_last_spec (v : vec) (n : nat) :
  length v = S n ->
  forallb is_zero (firstn n v) && negb (forallb is_zero v) = carried_by_last v.
Proof.
  intros L. unfold carried_by_last.
  assert (Hv : v <> []) by (intros ->; discriminate).
  rewrite (removelast_firstn_len v), L. cbn [Nat.pred].
  rewrite (app_removelast_last 0 Hv) at 2.
  rewrite forallb_app, (removelast_firstn_len v), L. cbn [Nat.pred forallb].
  destruct (forallb is_zero (firstn n v)), (is_zero (last v 0)); reflexivity.
Qed.

Lemma filter_nil_iff {A : Type} (f : A -> bool) (l : list A) :
  filter f l = [] <-> forall x, In x l -> f x = false.
Proof.
  induction l as [|x l IH]; simpl.
  - split; [intros _ y [] | reflexivity].
  - destruct (f x) eqn:E; split.
    + discriminate.
    + intros H. specialize (H x (or_introl eq_refl)). congruence.
    + intros H y [<-|Hy]; [assumption | now apply IH].
    + intros H. apply IH. intros y Hy. apply H. now right.
Qed.

Lemma is_empty_pairs (ps : list string) (s t : tuple) (l : list (vec * vec)) :
  int_to_bool (isl_map_is_empty (Some (mk_map ps s t l))) = true <-> l = [].
Proof.
  unfold int_to_bool. destruct l; simpl; split; intros H;
    try reflexivity; discriminate.
Qed.

(** ** The test of [isValidScattering] on the dated dependences *)

Lemma NonPositive_spec (D2 : umap_rep) (ps : list string) (t : tuple) :
  let sp := Some (mk_space ps None (Some t)) in
  let Zero := isl_set_universe (isl_space_copy sp) in
  let Zero := fix_zero (isl_set_dim Zero isl_dim_set) Zero in
  let Deltas := isl_union_set_extract_set (isl_union_map_deltas (Some D2)) sp in
  int_to_bool (isl_map_is_empty (isl_set_lex_le_set Deltas Zero)) = true
  <-> forall a b, In (a, b) (umap_pairs D2) ->
                  point_space a = t -> point_space b = t ->
                  nonpositive (vsub (snd b) (snd a)) = false.
Proof.
  cbv zeta. unfold isl_space_copy. cbn [isl_set_universe isl_set_dim isl_dim_set set_tuple].
  rewrite Zero_is_point.
  destruct (deltas_spec D2) as [u [Eu [Hcells Hmem]]]. rewrite Eu.
  destruct (extract_set_mem u ps t) as [e [Ee [Te [Hbox Hm]]]]. rewrite Ee.
  destruct (cells_points_defined (set_boxes e)) as [la Hla].
  { apply Forall_forall. intros c Hc. destruct (Hbox c Hc) as [s [Hs Hcs]].
    exact (Hcells s Hs c Hcs). }
  assert (Hz : set_points (mk_set ps t [point_cell (repeat 0 (snd t))])
               = Some [repeat 0 (snd t)]).
  { unfold set_points, set_boxes. cbn [set_cells set_tuple filter].
    rewrite point_cell_length, repeat_length, Nat.eqb_refl.
    cbn [cells_points]. now rewrite cell_points_point. }
  unfold isl_set_lex_le_set. rewrite Te. cbn [set_tuple].
  destruct (tuple_eq_dec t t) as [_|F]; [|contradiction].
  fold (set_points e) in Hla. rewrite Hla, Hz.
  rewrite is_empty_pairs, filter_nil_iff.
  split.
  - intros H a b Hab Ha Hb.
    assert (L : length (vsub (snd b) (snd a)) = snd t).
    { rewrite vsub_length; unfold point_space in Ha, Hb.
      - now rewrite <- Ha.
      - rewrite <- Ha in Hb. now injection Hb. }
    specialize (H (vsub (snd b) (snd a), repeat 0 (snd t))).
    unfold nonpositive. rewrite L. apply H.
    apply in_prod_iff. split; [|now left].
    apply (set_points_spec e la Hla). rewrite Hm by exact L.
    apply Hmem. exists a, b. split; [assumption|]. split; [congruence|].
    unfold point_space in Ha. rewrite <- Ha. reflexivity.
  - intros H [v z] Hvz. apply in_prod_iff in Hvz. destruct Hvz as [Hv [<-|[]]].
    cbn [fst snd].
    apply (set_points_spec e la Hla) in Hv.
    pose proof (set_mem_length e v Hv) as L. rewrite Te in L.
    rewrite Hm in Hv by exact L. apply Hmem in Hv.
    destruct Hv as [a [b [Hab [E Hp]]]]. injection Hp as Hn ->.
    assert (Ha : point_space a = t).
    { unfold point_space in *. rewrite <- Hn.
      rewrite vsub_length in L by (now injection E). rewrite L. now destruct t. }
    specialize (H a b Hab Ha (eq_trans (eq_sym E) Ha)).
    unfold nonpositive in H. now rewrite L in H.
Qed.

(** * Facts about the pass *)

Lemma add_map_fold_Some {A : Type} (f : A -> map_rep) (l : list A) (u : umap_rep) :
  exists ps,
    fold_left (fun s x => isl_union_map_add_map s (Some (f x))) l (Some u)
    = Some (mk_umap ps (umap_pairs u ++ flat_map (fun x => map_points (f x)) l)).
Proof.
  revert u. induction l as [|x l IH]; intros u; simpl.
  - exists (umap_params u). rewrite app_nil_r. now destruct u.
  - destruct (IH (mk_umap (align (umap_params u) (map_params (f x)))
                    (umap_pairs u ++ map_points (f x)))) as [ps E].
    exists ps. rewrite E. simpl. now rewrite <- app_assoc.
Qed.

Lemma collectInfo_fold (l : list ScopStmt)
    (R W M Sch : isl_union_map) :
  exists R' W',
    fold_left collectInfo_stmt l (R, W, M, Sch)
    = (R', W', M,
       fold_left (fun s Stmt => isl_union_map_add_map s (getScattering Stmt)) l Sch).
Proof.
  revert R W Sch. induction l as [|Stmt l IH]; intros R W Sch; simpl.
  - now exists R, W.
  - destruct (fold_left (collectInfo_access Stmt) (MemAccs Stmt) (R, W))
      as [R1 W1] eqn:E.
    apply IH.
Qed.

Lemma collectInfo_spec (S : Scop) :
  exists R W ps,
    collectInfo S
    = (R, W, Some (mk_umap (Context S) []), Some (mk_umap ps (schedule_points S))).
Proof.
  unfold collectInfo.
  destruct (collectInfo_fold (Stmts S)
              (isl_union_map_empty (isl_space_copy (getParamSpace S)))
              (isl_union_map_empty (isl_space_copy (getParamSpace S)))
              (isl_union_map_empty (isl_space_copy (getParamSpace S)))
              (isl_union_map_empty (getParamSpace S))) as [R [W E]].
  rewrite E. simpl.
  destruct (add_map_fold_Some Scattering (Stmts S) (mk_umap (Context S) []))
    as [ps Eps].
  exists R, W, ps. unfold getScattering. rewrite Eps. reflexivity.
Qed.

Lemma collectInfo_access_present (Stmt : ScopStmt) (l : list MemoryAccess)
    (R W : isl_union_map) :
  present R = true -> present W = true ->
  forallb (fun MA => if tuple_eq_dec (map_in (AccessRelation MA))
                          (set_tuple (Domain Stmt))
                     then true else false) l = true ->
  present (fst (fold_left (collectInfo_access Stmt) l (R, W))) = true
  /\ present (snd (fold_left (collectInfo_access Stmt) l (R, W))) = true.
Proof.
  revert R W. induction l as [|MA l IH]; intros R W HR HW Hl; simpl.
  - now split.
  - simpl in Hl. apply andb_true_iff in Hl. destruct Hl as [HMA Hl].
    unfold getAccessRelation, getDomain, isl_map_intersect_domain.
    destruct (tuple_eq_dec (map_in (AccessRelation MA)) (set_tuple (Domain Stmt)));
      [|discriminate].
    destruct R as [r|], W as [w|]; try discriminate.
    destruct (isRead MA); apply IH; auto.
Qed.

Lemma collectInfo_fold_present (l : list ScopStmt) (R W M Sch : isl_union_map) :
  present R = true -> present W = true ->
  forallb (fun Stmt =>
             forallb (fun MA => if tuple_eq_dec (map_in (AccessRelation MA))
                                     (set_tuple (Domain Stmt))
                                then true else false) (MemAccs Stmt)) l = true ->
  present (fst (fst (fst (fold_left collectInfo_stmt l (R, W, M, Sch))))) = true
  /\ present (snd (fst (fst (fold_left collectInfo_stmt l (R, W, M, Sch))))) = true.
Proof.
  revert R W Sch. induction l as [|Stmt l IH]; intros R W Sch HR HW Hl; simpl.
  - now split.
  - simpl in Hl. apply andb_true_iff in Hl. destruct Hl as [HS Hl].
    destruct (collectInfo_access_present Stmt (MemAccs Stmt) R W HR HW HS)
      as [H1 H2].
    destruct (fold_left (collectInfo_access Stmt) (MemAccs Stmt) (R, W))
      as [R1 W1].
    now apply IH.
Qed.

Lemma collectInfo_present (S : Scop) :
  accesses_in_domain S = true ->
  exists r w ps,
    collectInfo S
    = (Some r, Some w, Some (mk_umap (Context S) []),
       Some (mk_umap ps (schedule_points S))).
Proof.
  intros H. destruct (collectInfo_spec S) as [R [W [ps E]]].
  pose proof (collectInfo_fold_present (Stmts S)
                (isl_union_map_empty (isl_space_copy (getParamSpace S)))
                (isl_union_map_empty (isl_space_copy (getParamSpace S)))
                (isl_union_map_empty (isl_space_copy (getParamSpace S)))
                (isl_union_map_empty (getParamSpace S)) eq_refl eq_refl H) as [H1 H2].
  fold (collectInfo S) in H1, H2. rewrite E in H1, H2. simpl in H1, H2.
  destruct R as [r|], W as [w|]; try discriminate.
  now exists r, w, ps.
Qed.

Lemma calculateDependences_all_or_none (this : Dependences) (S : Scop) :
  all_or_none (calculateDependences this S) = true.
Proof.
  unfold calculateDependences.
  destruct (collectInfo_spec S) as [R [W [ps E]]]. rewrite E.
  destruct R as [r|], W as [w|]; reflexivity.
Qed.

(** ** Dependences go forward in time *)

Lemma before_spec (sched : list (point * point)) (j i : point) :
  before sched j i = true <->
  exists tj ti, In (j, tj) sched /\ In (i, ti) sched
                /\ point_space tj = point_space ti
                /\ lex_ltb (snd tj) (snd ti) = true.
Proof.
  unfold before. rewrite existsb_exists. split.
  - intros [tj [Hj H]]. apply existsb_exists in H. destruct H as [ti [Hi H]].
    apply andb_true_iff in H. destruct H as [Hs Hl].
    exists tj, ti. rewrite <- !In_images. now rewrite <- tuple_eqb_true.
  - intros [tj [ti [Hj [Hi [Hs Hl]]]]]. exists tj. split; [now apply In_images|].
    apply existsb_exists. exists ti. split; [now apply In_images|].
    apply andb_true_iff. split; [now apply tuple_eqb_true | assumption].
Qed.

Lemma In_accessors (acc : list (point * point)) (e j : point) :
  In j (accessors acc e) <-> In (j, e) acc.
Proof.
  unfold accessors. rewrite in_map_iff. split.
  - intros [[x y] [Hx Hin]]. simpl in Hx. subst x.
    apply filter_In in Hin. destruct Hin as [Hin Hy].
    apply point_eqb_true in Hy. simpl in Hy. now subst y.
  - intros H. exists (j, e). split; [reflexivity|].
    apply filter_In. split; [assumption | now apply point_eqb_true].
Qed.

Lemma In_sources_before (sched acc : list (point * point)) (e i j : point) :
  In j (sources_before sched acc e i) <->
  In (j, e) acc /\ before sched j i = true.
Proof.
  unfold sources_before. rewrite filter_In, In_accessors. reflexivity.
Qed.

Lemma In_last_must (sched must : list (point * point)) (e i j : point) :
  In j (last_must sched must e i) <->
  In (j, e) must /\ before sched j i = true
  /\ forall j', In (j', e) must -> before sched j' i = true ->
                hides sched j' j = false.
Proof.
  unfold last_must. rewrite filter_In, In_sources_before, negb_true_iff. split.
  - intros [[Hin Hb] Hn]. split; [assumption|]. split; [assumption|].
    intros j' Hin' Hb'. destruct (hides sched j' j) eqn:Hh; [|reflexivity].
    rewrite <- Hn. symmetry. apply existsb_exists. exists j'.
    split; [now apply In_sources_before | assumption].
  - intros [Hin [Hb Hn]]. split; [now split|].
    destruct (existsb _ _) eqn:Hx; [|reflexivity].
    apply existsb_exists in Hx. destruct Hx as [j' [Hj' Hh]].
    apply In_sources_before in Hj'. destruct Hj' as [Hin' Hb'].
    now rewrite (Hn j' Hin' Hb') in Hh.
Qed.

Lemma unrivalled_spec (sched : list (point * point)) (l : list point)
    (j : point) :
  unrivalled sched l j = true <->
  forall x, In x l -> x = j \/ before sched x j = true.
Proof.
  unfold unrivalled. rewrite forallb_forall. split; intros H x Hx.
  - specialize (H x Hx). apply orb_true_iff in H. destruct H as [H|H]; [|now right].
    left. now apply point_eqb_true.
  - apply orb_true_iff. destruct (H x Hx) as [E|E]; [|now right].
    left. now apply point_eqb_true.
Qed.

Lemma In_must_deps_of (sched must may : list (point * point))
    (ie : point * point) (j i : point) :
  In (j, i) (must_deps_of sched must may ie) <->
  i = fst ie
  /\ In j (last_must sched must (snd ie) (fst ie))
  /\ unrivalled sched (last_must sched must (snd ie) (fst ie)
                       ++ sources_before sched may (snd ie) (fst ie)) j = true.
Proof.
  unfold must_deps_of. cbv zeta. rewrite in_map_iff. split.
  - intros [x [Hx Hin]]. injection Hx as -> <-. apply filter_In in Hin.
    destruct Hin as [Hin Hu]. auto.
  - intros [-> [Hin Hu]]. exists j. split; [reflexivity|].
    apply filter_In. now split.
Qed.

Lemma In_may_deps_of (sched must may : list (point * point))
    (ie : point * point) (j i : point) :
  In (j, i) (may_deps_of sched must may ie) ->
  i = fst ie /\ (In (j, snd ie) must \/ In (j, snd ie) may)
  /\ before sched j i = true.
Proof.
  unfold may_deps_of. cbv zeta. rewrite in_app_iff, !in_map_iff.
  intros [[x [Hx Hin]]|[x [Hx Hin]]]; injection Hx as -> <-;
    apply filter_In in Hin; destruct Hin as [Hin _].
  - apply In_last_must in Hin. destruct Hin as [Hin [Hb _]]. auto.
  - apply In_sources_before in Hin. destruct Hin as [Hin Hb]. auto.
Qed.

Lemma must_deps_before (sched must may : list (point * point))
    (ie pq : point * point) :
  In pq (must_deps_of sched must may ie) -> before sched (fst pq) (snd pq) = true.
Proof.
  destruct pq as [j i]. intros H. apply In_must_deps_of in H.
  destruct H as [-> [H _]]. apply In_last_must in H. cbn [fst snd]. tauto.
Qed.

Lemma may_deps_before (sched must may : list (point * point))
    (ie pq : point * point) :
  In pq (may_deps_of sched must may ie) -> before sched (fst pq) (snd pq) = true.
Proof.
  destruct pq as [j i]. intros H. apply In_may_deps_of in H.
  destruct H as [-> [_ H]]. exact H.
Qed.

Lemma flat_map_before (f : point * point -> list (point * point))
    (sched k : list (point * point)) (pq : point * point) :
  (forall ie x, In x (f ie) -> before sched (fst x) (snd x) = true) ->
  In pq (flat_map f k) -> before sched (fst pq) (snd pq) = true.
Proof.
  intros Hf H. apply in_flat_map in H. destruct H as [ie [_ H]]. eauto.
Qed.

Lemma cache_before (this : Dependences) (S : Scop) (deps : umap_rep) :
  getDependences (fst (runOnScop this S)) TYPE_ALL = Some deps ->
  forall pq, In pq (umap_pairs deps) ->
             before (schedule_points S) (fst pq) (snd pq) = true.
Proof.
  unfold runOnScop, calculateDependences. cbn [fst].
  destruct (collectInfo_spec S) as [R [W [ps E]]]. rewrite E.
  destruct R as [r|], W as [w|]; try discriminate.
  unfold getDependences. cbn -[nodup must_deps_of may_deps_of].
  intros H. injection H as <-. cbn [umap_pairs]. intros pq Hpq.
  apply nodup_In in Hpq. rewrite !in_app_iff in Hpq.
  destruct Hpq as [[Hpq|Hpq]|Hpq]; apply nodup_In in Hpq;
    eapply flat_map_before; try exact Hpq; intros ie x Hx.
  - eapply must_deps_before; exact Hx.
  - eapply may_deps_before; exact Hx.
  - eapply must_deps_before; exact Hx.
Qed.

(** ** [isValidScattering] *)

Lemma fold_scattering (N : StatementToIslMapTy) (l : list (nat * ScopStmt))
    (u : umap_rep) (sp : isl_space) :
  Forall (fun SI => stmtScattering N SI <> None) l ->
  exists ps,
    fold_left (isValidScattering_stmt N) l (Some u, sp)
    = (Some (mk_umap ps
               (umap_pairs u
                ++ flat_map (fun SI => match stmtScattering N SI with
                                       | Some m => map_points m
                                       | None => []
                                       end) l)),
       match sp with
       | Some _ => sp
       | None =>
           match l with
           | [] => None
           | SI :: _ => isl_space_range (isl_map_get_space (stmtScattering N SI))
           end
       end).
Proof.
  intros H. revert u sp. induction H as [|SI l HSI Hl IH]; intros u sp.
  - exists (umap_params u). simpl. rewrite app_nil_r. destruct u, sp; reflexivity.
  - cbn [fold_left]. unfold isValidScattering_stmt at 2.
    fold (stmtScattering N SI).
    destruct (stmtScattering N SI) as [m|] eqn:E; [|contradiction].
    cbn [isl_union_map_add_map].
    match goal with
    | |- context [fold_left _ l (Some ?u1, ?sp1)] =>
        destruct (IH u1 sp1) as [ps Eps]
    end.
    exists ps. etransitivity; [exact Eps|].
    cbn [umap_pairs flat_map]. rewrite E, <- app_assoc.
    destruct sp; reflexivity.
Qed.

Lemma isValidScattering_null (this : Dependences) (S : Scop)
    (N : StatementToIslMapTy) :
  getDependences this TYPE_ALL = None ->
  isValidScattering false this S N = true.
Proof.
  intros H. unfold isValidScattering. rewrite H.
  destruct (fold_left _ _ _) as [sc sp]. reflexivity.
Qed.

Lemma isValidScattering_no_stmt (this : Dependences) (S : Scop)
    (N : StatementToIslMapTy) :
  statements S = [] -> isValidScattering false this S N = true.
Proof.
  intros H. unfold isValidScattering. rewrite H. cbn [fold_left].
  destruct (getDependences this TYPE_ALL); reflexivity.
Qed.

Lemma isValidScattering_gen (this : Dependences) (S : Scop)
    (N : StatementToIslMapTy) (deps : umap_rep)
    (SI0 : nat * ScopStmt) (rest : list (nat * ScopStmt)) (m0 : map_rep) :
  getDependences this TYPE_ALL = Some deps ->
  Forall (fun SI => stmtScattering N SI <> None) (statements S) ->
  statements S = SI0 :: rest ->
  stmtScattering N SI0 = Some m0 ->
  (isValidScattering false this S N = true <->
   forall s t ds dt,
     In (s, t) (umap_pairs deps) ->
     In (s, ds) (scattering_points N S) ->
     In (t, dt) (scattering_points N S) ->
     point_space ds = map_out m0 -> point_space dt = map_out m0 ->
     nonpositive (vsub (snd dt) (snd ds)) = false).
Proof.
  intros Hdeps Hall Hst Hm0. unfold isValidScattering. rewrite Hdeps.
  destruct (fold_scattering N (statements S) (mk_umap (Context S) []) None Hall)
    as [ps Eps].
  cbv zeta.
  destruct (fold_left (isValidScattering_stmt N) (statements S) _)
    as [sc sp] eqn:E0.
  clear E0. injection Eps as -> ->.
  fold (scattering_points N S). cbn [umap_pairs app].
  rewrite Hst, Hm0. cbn [isl_map_get_space isl_space_range].
  cbn [isl_union_map_copy isl_union_map_apply_domain isl_union_map_apply_range
       umap_pairs umap_params].
  rewrite NonPositive_spec. cbn [umap_pairs]. split.
  - intros H s t ds dt Hd Hs Ht Es Et. apply (H ds dt); [|assumption|assumption].
    apply In_apply_range. exists t. split; [|assumption].
    apply In_apply_domain. exists s. now split.
  - intros H a b Hab Ea Eb. apply In_apply_range in Hab.
    destruct Hab as [t [Hat Htb]]. apply In_apply_domain in Hat.
    destruct Hat as [s [Hst' Hsa]]. now apply (H s t a b).
Qed.

Lemma single_valued_spec (f : list (point * point)) :
  single_valued f = true ->
  forall p d1 d2, In (p, d1) f -> In (p, d2) f -> d1 = d2.
Proof.
  unfold single_valued. intros H p d1 d2 H1 H2.
  rewrite forallb_forall in H. specialize (H _ H1).
  rewrite forallb_forall in H. specialize (H _ H2). cbn [fst snd] in H.
  apply orb_true_iff in H. destruct H as [H|H].
  - apply negb_true_iff in H. unfold point_eqb in H.
    destruct (point_eq_dec p p); [discriminate | congruence].
  - now apply point_eqb_true.
Qed.

Lemma flat_map_combine_snd {A B C : Type} (f : B -> list C) (l1 : list A)
    (l2 : list B) :
  length l1 = length l2 ->
  flat_map (fun x => f (snd x)) (combine l1 l2) = flat_map f l2.
Proof.
  revert l2. induction l1 as [|a l1 IH]; intros [|b l2] H; simpl in *;
    try reflexivity; try discriminate.
  now rewrite IH by lia.
Qed.

Lemma scattering_points_current (S : Scop) :
  scattering_points [] S = schedule_points S.
Proof.
  unfold scattering_points, schedule_points, statements, stmtScattering.
  cbn [find getScattering].
  apply (flat_map_combine_snd (fun Stmt => map_points (Scattering Stmt))).
  apply length_seq.
Qed.

Lemma In_scattering_points (N : StatementToIslMapTy) (S : Scop) (p d : point) :
  In (p, d) (scattering_points N S) ->
  exists SI m, In SI (statements S) /\ stmtScattering N SI = Some m
               /\ In (p, d) (map_points m).
Proof.
  unfold scattering_points. intros H. apply in_flat_map in H.
  destruct H as [SI [HSI H]]. destruct (stmtScattering N SI) as [m|] eqn:E;
    [|contradiction].
  now exists SI, m.
Qed.

Lemma shared_time_space_date (t : tuple) (N : StatementToIslMapTy) (S : Scop)
    (p d : point) :
  shared_time_space t N S = true ->
  In (p, d) (scattering_points N S) -> point_space d = t.
Proof.
  intros Hsh H. apply In_scattering_points in H.
  destruct H as [SI [m [HSI [Em H]]]].
  unfold shared_time_space in Hsh. rewrite forallb_forall in Hsh.
  specialize (Hsh SI HSI). rewrite Em in Hsh.
  apply andb_true_iff in Hsh. destruct Hsh as [Ht Hl].
  apply tuple_eqb_true in Ht. rewrite forallb_forall in Hl.
  unfold map_points in H. apply in_map_iff in H. destruct H as [ab [Hab Hin]].
  specialize (Hl ab Hin). apply Nat.eqb_eq in Hl.
  injection Hab as _ <-. unfold point_space. cbn [fst snd].
  rewrite Ht. destruct t as [nm n]. cbn [fst snd] in *. f_equal. exact Hl.
Qed.

Lemma shared_time_space_present (t : tuple) (N : StatementToIslMapTy) (S : Scop) :
  shared_time_space t N S = true ->
  Forall (fun SI => stmtScattering N SI <> None) (statements S).
Proof.
  unfold shared_time_space. intros H. rewrite forallb_forall in H.
  apply Forall_forall. intros SI HSI. specialize (H SI HSI).
  destruct (stmtScattering N SI); [discriminate | discriminate].
Qed.

(** ** [isParallelDimension] *)

Lemma truncated_fold (dimLevel : Z) (l : list ScopStmt) (u : umap_rep) :
  0 <= dimLevel ->
  forallb (fun Stmt =>
             (dimLevel <=? getNumScattering Stmt)
             && (getNumScattering Stmt <? 2 ^ 32)
             && forallb (fun ab => Nat.eqb (length (snd ab))
                                     (snd (map_out (Scattering Stmt))))
                  (map_pairs (Scattering Stmt))) l = true ->
  (forall p d, In (p, d) (umap_pairs u) ->
               point_space d = (EmptyString, Z.to_nat dimLevel)) ->
  exists u',
    fold_left (getCombinedScheduleForSpace_stmt dimLevel) l (Some u) = Some u'
    /\ forall p d, In (p, d) (umap_pairs u') ->
                   point_space d = (EmptyString, Z.to_nat dimLevel).
Proof.
  intros Hd. revert u. induction l as [|Stmt l IH]; intros u Hl Hu.
  - exists u. now split.
  - cbn [forallb] in Hl. apply andb_true_iff in Hl. destruct Hl as [HS Hl].
    apply andb_true_iff in HS. destruct HS as [HS Hlen].
    apply andb_true_iff in HS. destruct HS as [Hle Hlt].
    apply Z.leb_le in Hle. apply Z.ltb_lt in Hlt.
    cbn [fold_left]. unfold getCombinedScheduleForSpace_stmt at 2.
    unfold wrap32. rewrite Z.mod_small by lia.
    unfold getScattering, isl_map_project_out.
    unfold getNumScattering in *.
    destruct (Z.leb_spec 0 dimLevel); [|lia].
    destruct (Z.leb_spec 0 (Z.of_nat (snd (map_out (Scattering Stmt))) - dimLevel));
      [|lia].
    destruct (Z.leb_spec
                (dimLevel + (Z.of_nat (snd (map_out (Scattering Stmt))) - dimLevel))
                (Z.of_nat (snd (map_out (Scattering Stmt))))); [|lia].
    cbn [andb isl_union_map_add_map].
    apply IH; [exact Hl|].
    cbn [umap_pairs]. intros p d Hpd. apply in_app_iff in Hpd.
    destruct Hpd as [Hpd|Hpd].
    + now apply (Hu p).
    + unfold map_points in Hpd. cbn [map_pairs map_out map_in fst] in Hpd.
      rewrite map_map in Hpd. apply in_map_iff in Hpd.
      destruct Hpd as [ab [Hab Hin]]. cbn [fst snd] in Hab.
      injection Hab as _ <-. unfold point_space. cbn [fst snd]. f_equal.
      rewrite forallb_forall in Hlen. specialize (Hlen ab Hin).
      apply Nat.eqb_eq in Hlen. unfold drop_dims.
      rewrite length_app, length_firstn, length_skipn. lia.
Qed.

Lemma getCombinedScheduleForSpace_dates (S : Scop) (dimLevel : Z) :
  0 <= dimLevel -> truncatable dimLevel S = true ->
  exists sched,
    getCombinedScheduleForSpace S dimLevel = Some sched
    /\ forall p d, In (p, d) (umap_pairs sched) ->
                   point_space d = (EmptyString, Z.to_nat dimLevel).
Proof.
  intros Hd Ht. unfold getCombinedScheduleForSpace.
  apply truncated_fold; [assumption | exact Ht |]. intros p d [].
Qed.

Lemma align_params_mem (r : set_rep) (ps : list string) :
  exists r', isl_set_align_params (Some r) (Some (mk_space ps None None)) = Some r'
             /\ set_tuple r' = set_tuple r
             /\ forall v, set_mem r' v = set_mem r v.
Proof. eexists. split; [reflexivity|]. split; reflexivity. Qed.

Lemma set_mem_reparam (ps : list string) (r : set_rep) (v : list Z) :
  set_mem (mk_set ps (set_tuple r) (set_cells r)) v = set_mem r v.
Proof. reflexivity. Qed.

Lemma ValidDistances_spec (n : nat) (ps : list string) :
  (0 < n)%nat -> Z.of_nat n < 2 ^ 32 ->
  let Space := isl_space_set_alloc tt 0 (Z.of_nat n) in
  let Dimensions := isl_space_dim Space isl_dim_set in
  let AllZero :=
    isl_set_align_params
      (fix_zero Dimensions (isl_set_universe (isl_space_copy Space)))
      (Some (mk_space ps None None)) in
  let LastUnknown :=
    isl_set_align_params
      (fix_zero (wrap32 (Dimensions - 1)) (isl_set_universe Space))
      (Some (mk_space ps None None)) in
  exists vd,
    isl_set_complement (isl_set_subtract LastUnknown AllZero) = Some vd
    /\ set_tuple vd = (EmptyString, n)
    /\ forall v, length v = n -> set_mem vd v = negb (carried_by_last v).
Proof.
  intros Hn Hlt. cbv zeta. unfold isl_space_set_alloc, isl_space_copy.
  destruct (Z.leb_spec 0 (Z.of_nat n)); [|lia].
  change (0 <=? 0) with true. cbn [andb]. change (Z.to_nat 0) with 0%nat.
  rewrite Nat2Z.id. cbn [repeat isl_space_dim sp_out snd isl_dim_set isl_set_universe].
  unfold wrap32. rewrite Z.mod_small by lia.
  destruct (fix_zero_mem (Z.of_nat n) (mk_set [] (EmptyString, n) [cell_univ n]))
    as [az [Eaz [Taz [_ Maz]]]]; [cbn [set_tuple snd]; lia|].
  destruct (fix_zero_mem (Z.of_nat n - 1) (mk_set [] (EmptyString, n) [cell_univ n]))
    as [lu [Elu [Tlu [_ Mlu]]]]; [cbn [set_tuple snd]; lia|].
  rewrite Eaz, Elu. cbn [isl_set_align_params].
  unfold isl_set_subtract. cbn [set_tuple].
  destruct (tuple_eq_dec (set_tuple lu) (set_tuple az)) as [Et|F];
    [|exfalso; apply F; congruence].
  cbn [isl_set_complement]. eexists. split; [reflexivity|].
  split; [exact Tlu|]. intros v Hv.
  rewrite set_complement_mem, set_diff_mem by exact Et.
  rewrite !set_mem_reparam. cbn [set_tuple set_diff]. rewrite Tlu. cbn [snd].
  rewrite Hv, Nat.eqb_refl. cbn [andb]. f_equal.
  rewrite Mlu, Maz, !universe_mem. cbn [snd].
  rewrite Hv, Nat.eqb_refl. cbn [andb]. rewrite Nat2Z.id.
  replace (Z.to_nat (Z.of_nat n - 1)) with (Nat.pred n) by lia.
  rewrite (firstn_all2 (n := n) v) by lia.
  apply carried_by_last_spec. lia.
Qed.

Lemma uset_mem_single (ps : list string) (dom : set_rep) (d : string * list Z) :
  uset_mem (mk_uset ps [dom]) d = in_set dom d.
Proof. unfold uset_mem, in_set. simpl. apply orb_false_r. Qed.

Lemma In_parallel_pairs (deps sched : list ((string * list Z) * (string * list Z)))
    (ps : list string) (dom : set_rep) (a b : string * list Z) :
  In (a, b)
    (filter (fun pq => uset_mem (mk_uset ps [dom]) (snd pq))
       (filter (fun pq => uset_mem (mk_uset ps [dom]) (fst pq))
          (flat_map (fun pq => map (fun p' => (p', snd pq)) (images sched (fst pq)))
             (flat_map (fun pq => map (fun q' => (fst pq, q'))
                                    (images sched (snd pq))) deps))))
  <-> exists src tgt, In (src, tgt) deps /\ In (src, a) sched /\ In (tgt, b) sched
                      /\ in_set dom a = true /\ in_set dom b = true.
Proof.
  rewrite !filter_In, In_apply_domain. cbn [fst snd].
  rewrite !uset_mem_single. split.
  - intros [[[src [H1 H2]] Ha] Hb]. apply In_apply_range in H1.
    destruct H1 as [tgt [H1 H3]]. exists src, tgt. auto.
  - intros [src [tgt [H1 [H2 [H3 [Ha Hb]]]]]]. split; [split|]; try assumption.
    exists src. split; [|assumption]. apply In_apply_range. exists tgt. auto.
Qed.

(** ** The cache *)

Lemma serve_queries (rs : list request) (this : Dependences) :
  forallb is_query rs = true -> fold_left serve rs this = this.
Proof.
  revert this. induction rs as [|r rs IH]; intros this H; [reflexivity|].
  cbn [forallb] in H. apply andb_true_iff in H. destruct H as [Hr Hrs].
  cbn [fold_left]. destruct r; try discriminate; now apply IH.
Qed.

Lemma serve_all_or_none (this : Dependences) (r : request) :
  all_or_none this = true -> all_or_none (serve this r) = true.
Proof.
  intros H. destruct r; cbn [serve]; try assumption.
  - apply calculateDependences_all_or_none.
  - reflexivity.
Qed.

Lemma int_to_bool_true (z : Z) : int_to_bool z = true <-> z <> 0.
Proof.
  unfold int_to_bool. destruct (Z.eqb_spec z 0); simpl; split; congruence.
Qed.

(** ** When [collectInfo] fails *)

Lemma add_map_None (u : isl_union_map) : isl_union_map_add_map u None = None.
Proof. now destruct u. Qed.

Lemma collectInfo_access_absorb (Stmt : ScopStmt) (l : list MemoryAccess)
    (R W : isl_union_map) :
  R = None \/ W = None ->
  fst (fold_left (collectInfo_access Stmt) l (R, W)) = None
  \/ snd (fold_left (collectInfo_access Stmt) l (R, W)) = None.
Proof.
  revert R W. induction l as [|MA l IH]; intros R W H; [exact H|].
  cbn [fold_left]. unfold collectInfo_access at 2 4.
  destruct (isRead MA); apply IH; destruct H as [-> | ->]; auto.
Qed.

Lemma collectInfo_access_fail (Stmt : ScopStmt) (l : list MemoryAccess)
    (R W : isl_union_map) :
  forallb (fun MA => if tuple_eq_dec (map_in (AccessRelation MA))
                          (set_tuple (Domain Stmt))
                     then true else false) l = false ->
  fst (fold_left (collectInfo_access Stmt) l (R, W)) = None
  \/ snd (fold_left (collectInfo_access Stmt) l (R, W)) = None.
Proof.
  revert R W. induction l as [|MA l IH]; intros R W H; [discriminate|].
  cbn [forallb] in H. cbn [fold_left].
  destruct (tuple_eq_dec (map_in (AccessRelation MA)) (set_tuple (Domain Stmt)))
    as [E|E] eqn:D.
  - cbn [andb] in H. destruct (collectInfo_access Stmt (R, W) MA) as [R1 W1].
    now apply IH.
  - unfold collectInfo_access at 2 4.
    unfold getAccessRelation, getDomain, isl_map_intersect_domain. rewrite D.
    rewrite !add_map_None.
    destruct (isRead MA); apply collectInfo_access_absorb; auto.
Qed.

Lemma collectInfo_stmt_step (Info : isl_union_map * isl_union_map
                                    * isl_union_map * isl_union_map)
    (Stmt : ScopStmt) :
  fst (fst (fst (collectInfo_stmt Info Stmt)))
  = fst (fold_left (collectInfo_access Stmt) (MemAccs Stmt)
           (fst (fst (fst Info)), snd (fst (fst Info))))
  /\ snd (fst (fst (collectInfo_stmt Info Stmt)))
     = snd (fold_left (collectInfo_access Stmt) (MemAccs Stmt)
              (fst (fst (fst Info)), snd (fst (fst Info)))).
Proof.
  destruct Info as [[[R W] M] Sch]. unfold collectInfo_stmt. cbn [fst snd].
  destruct (fold_left (collectInfo_access Stmt) (MemAccs Stmt) (R, W)).
  split; reflexivity.
Qed.

Lemma collectInfo_fold_absorb (l : list ScopStmt)
    (Info : isl_union_map * isl_union_map * isl_union_map * isl_union_map) :
  fst (fst (fst Info)) = None \/ snd (fst (fst Info)) = None ->
  fst (fst (fst (fold_left collectInfo_stmt l Info))) = None
  \/ snd (fst (fst (fold_left collectInfo_stmt l Info))) = None.
Proof.
  revert Info. induction l as [|Stmt l IH]; intros Info H; [exact H|].
  cbn [fold_left]. apply IH.
  destruct (collectInfo_stmt_step Info Stmt) as [E1 E2]. rewrite E1, E2.
  now apply collectInfo_access_absorb.
Qed.

Lemma collectInfo_fold_fail (l : list ScopStmt)
    (Info : isl_union_map * isl_union_map * isl_union_map * isl_union_map) :
  forallb (fun Stmt =>
             forallb (fun MA => if tuple_eq_dec (map_in (AccessRelation MA))
                                     (set_tuple (Domain Stmt))
                                then true else false) (MemAccs Stmt)) l = false ->
  fst (fst (fst (fold_left collectInfo_stmt l Info))) = None
  \/ snd (fst (fst (fold_left collectInfo_stmt l Info))) = None.
Proof.
  revert Info. induction l as [|Stmt l IH]; intros Info H; [discriminate|].
  cbn [forallb] in H. cbn [fold_left].
  destruct (forallb _ (MemAccs Stmt)) eqn:D.
  - cbn [andb] in H. now apply IH.
  - apply collectInfo_fold_absorb.
    destruct (collectInfo_stmt_step Info Stmt) as [E1 E2]. rewrite E1, E2.
    now apply collectInfo_access_fail.
Qed.

Lemma collectInfo_fail (S : Scop) :
  accesses_in_domain S = false ->
  fst (fst (fst (collectInfo S))) = None \/ snd (fst (fst (collectInfo S))) = None.
Proof. intros H. unfold collectInfo. now apply collectInfo_fold_fail. Qed.

(** ** The members of [getDependences] *)

Lemma getDependences_members (this : Dependences) (Kinds : Z)
    (raw war waw : umap_rep) (pq : (string * list Z) * (string * list Z)) :
  RAW this = Some raw -> WAR this = Some war -> WAW this = Some waw ->
  In pq (pairs_of (getDependences this Kinds)) <->
  (Z.land Kinds TYPE_RAW <> 0 /\ In pq (umap_pairs raw))
  \/ (Z.land Kinds TYPE_WAR <> 0 /\ In pq (umap_pairs war))
  \/ (Z.land Kinds TYPE_WAW <> 0 /\ In pq (umap_pairs waw)).
Proof.
  intros HR HA HW. unfold getDependences. rewrite HR, HA, HW.
  pose proof (int_to_bool_true (Z.land Kinds TYPE_RAW)) as B1.
  pose proof (int_to_bool_true (Z.land Kinds TYPE_WAR)) as B2.
  pose proof (int_to_bool_true (Z.land Kinds TYPE_WAW)) as B3.
  destruct (int_to_bool (Z.land Kinds TYPE_RAW)),
    (int_to_bool (Z.land Kinds TYPE_WAR)),
    (int_to_bool (Z.land Kinds TYPE_WAW));
    cbn -[nodup]; rewrite nodup_In; rewrite ?in_app_iff;
    assert (T : true = true) by reflexivity;
    intuition (try discriminate; auto).
Qed.

Lemma getDependences_all (this : Dependences) (raw war waw : umap_rep) :
  RAW this = Some raw -> WAR this = Some war -> WAW this = Some waw ->
  exists deps,
    getDependences this TYPE_ALL = Some deps
    /\ forall pq, In pq (umap_pairs deps) <->
                  In pq (umap_pairs raw) \/ In pq (umap_pairs war)
                  \/ In pq (umap_pairs waw).
Proof.
  intros HR HA HW. unfold getDependences. rewrite HR, HA, HW.
  eexists. split; [reflexivity|]. intros pq. cbn [umap_pairs].
  rewrite nodup_In. cbn [app]. rewrite !in_app_iff. tauto.
Qed.

(** ** The distances [isParallelDimension] rejects *)

(** The distances that keep a dimension from being parallel, in terms of
    the relation [getDependences] returns. *)
Lemma isParallelDimension_char
    (this : Dependences) (S : Scop) (dom : set_rep) (ParallelDim : Z)
    (deps sched : umap_rep) :
  0 < ParallelDim < 2 ^ 32 ->
  truncatable ParallelDim S = true ->
  getDependences this TYPE_ALL = Some deps ->
  getCombinedScheduleForSpace S ParallelDim = Some sched ->
  (isParallelDimension this S (Some dom) ParallelDim = true <->
   forall src tgt dsrc dtgt,
     In (src, tgt) (umap_pairs deps) ->
     In (src, dsrc) (umap_pairs sched) ->
     In (tgt, dtgt) (umap_pairs sched) ->
     in_set dom dsrc = true -> in_set dom dtgt = true ->
     carried_by_last (vsub (snd dtgt) (snd dsrc)) = false).
Proof.
  intros HPD Htr Hdeps Hsched.
  destruct (getCombinedScheduleForSpace_dates S ParallelDim) as [sched' [E' Hdates]];
    [lia | assumption |].
  rewrite Hsched in E'. injection E' as <-.
  set (n := Z.to_nat ParallelDim) in *.
  assert (Hn : (0 < n)%nat) by lia.
  assert (Hlt : Z.of_nat n < 2 ^ 32) by lia.
  pose proof (ValidDistances_spec n (Context S) Hn Hlt) as HV. cbv zeta in HV.
  replace (Z.of_nat n) with ParallelDim in HV by lia.
  destruct HV as [vd [Evd [Tvd Mvd]]].
  unfold isParallelDimension. rewrite Hsched, Hdeps. cbv zeta.
  unfold getIslCtx, getParamSpace.
  match goal with
  | |- context [isl_union_set_from_set (isl_set_complement ?x)] =>
      replace (isl_set_complement x) with (Some vd) by (symmetry; exact Evd)
  end.
  cbn [isl_union_set_from_set isl_union_set_copy isl_union_map_copy
       isl_union_map_apply_range isl_union_map_apply_domain
       isl_union_map_intersect_domain isl_union_map_intersect_range
       umap_pairs umap_params uset_params].
  match goal with
  | |- context [isl_union_map_deltas (Some ?r)] =>
      destruct (deltas_spec r) as [u [Eu [_ Hmem]]]; rewrite Eu;
      cbn [umap_pairs] in Hmem
  end.
  destruct (isl_union_set_subtract_mem u (mk_uset (set_params vd) [vd]))
    as [c [Ec Hc]].
  rewrite Ec, isl_union_set_is_empty_spec.
  assert (Hvd : forall a b : string * list Z,
             point_space a = (EmptyString, n) -> point_space b = (EmptyString, n) ->
             uset_mem (mk_uset (set_params vd) [vd]) (fst a, vsub (snd b) (snd a))
             = negb (carried_by_last (vsub (snd b) (snd a)))).
  { intros a b Ha Hb. rewrite uset_mem_single. unfold in_set. cbn [snd].
    assert (L : length (vsub (snd b) (snd a)) = n).
    { unfold point_space in Ha, Hb. injection Ha as _ Ha. injection Hb as _ Hb.
      rewrite vsub_length; congruence. }
    rewrite Mvd by exact L. rewrite Tvd. unfold point_space. cbn [fst snd].
    rewrite L. unfold point_space in Ha. injection Ha as -> _.
    destruct (tuple_eq_dec (EmptyString, n) (EmptyString, n)); [reflexivity|contradiction]. }
  split.
  - intros H src tgt dsrc dtgt Hd Hs Hg Is Ig.
    pose proof (Hdates _ _ Hs) as Es. pose proof (Hdates _ _ Hg) as Eg.
    specialize (H (fst dsrc, vsub (snd dtgt) (snd dsrc))).
    rewrite Hc, (Hvd dsrc dtgt Es Eg) in H.
    assert (Hu : uset_mem u (fst dsrc, vsub (snd dtgt) (snd dsrc)) = true).
    { apply Hmem. exists dsrc, dtgt. split; [|split; [congruence | reflexivity]].
      apply In_parallel_pairs. exists src, tgt. auto. }
    rewrite Hu in H. cbn [andb] in H. rewrite negb_involutive in H. exact H.
  - intros H p. rewrite Hc.
    destruct (uset_mem u p) eqn:Hu; [|reflexivity]. cbn [andb].
    apply Hmem in Hu. destruct Hu as [a [b [Hab [Esp ->]]]].
    apply In_parallel_pairs in Hab.
    destruct Hab as [src [tgt [Hd [Hs [Hg [Is Ig]]]]]].
    pose proof (Hdates _ _ Hs) as Es. pose proof (Hdates _ _ Hg) as Eg.
    rewrite (Hvd a b Es Eg), (H src tgt a b Hd Hs Hg Is Ig). reflexivity.
Qed.


(** * The examples of the specification *)

(** The recurrence has one flow dependence per iteration but the first,
    from the write of [A[i-1]] to its read. *)
Example recurrence_dependences :
  rec_cache
  = {| RAW := Some (mk_umap param_N
                      [(("S"%string, [0]), ("S"%string, [1]));
                       (("S"%string, [1]), ("S"%string, [2]));
                       (("S"%string, [2]), ("S"%string, [3]))]);
       WAR := Some (mk_umap param_N []);
       WAW := Some (mk_umap param_N []) |}.
Proof. reflexivity. Qed.

Example recurrence_not_parallel :
  isParallelDimension rec_cache rec_scop (Some line) 1 = false.
Proof. reflexivity. Qed.

Example recurrence_reversal_invalid :
  isValidScattering false rec_cache rec_scop reversed = false.
Proof. reflexivity. Qed.

Example independent_iterations :
  indep_cache
  = {| RAW := Some (mk_umap param_N []);
       WAR := Some (mk_umap param_N []);
       WAW := Some (mk_umap param_N []) |}
  /\ isParallelDimension indep_cache indep_scop (Some line) 1 = true.
Proof. split; reflexivity. Qed.

(** The accumulation: every instance reads and writes [A[0]].  Each
    write is the source of the next read and of the next write; the read of
    an instance is no source of its own write, nor of a later one. *)
Example accumulation_dependences :
  sum_cache
  = {| RAW := Some (mk_umap param_N
                      [(("S"%string, [0]), ("S"%string, [1]));
                       (("S"%string, [1]), ("S"%string, [2]));
                       (("S"%string, [2]), ("S"%string, [3]))]);
       WAR := Some (mk_umap param_N []);
       WAW := Some (mk_umap param_N
                      [(("S"%string, [0]), ("S"%string, [1]));
                       (("S"%string, [1]), ("S"%string, [2]));
                       (("S"%string, [2]), ("S"%string, [3]))]) |}.
Proof. reflexivity. Qed.

(** A write and a read of different statements on one date: the read has
    no source, and the later write has both for sources, in WAR, and no
    source in WAW. *)
Example coscheduled_dependences :
  RAW cosched_cache = Some (mk_umap [] [])
  /\ WAW cosched_cache = Some (mk_umap [] [])
  /\ map fst (pairs_of (WAR cosched_cache))
     = [("P"%string, [0]); ("Q"%string, [0])].
Proof. repeat split; reflexivity. Qed.

Example nest_inner_parallel_outer_not :
  isParallelDimension nest_cache nest_scop (Some plane) 2 = true
  /\ isParallelDimension nest_cache nest_scop (Some line) 1 = false.
Proof. split; reflexivity. Qed.

(** * The claims *)

(** C3.  With the three relations cached and every statement dated in one
    time tuple by the completed schedule (the new scattering where
    [NewScattering] has one, the current one elsewhere), [isValidScattering]
    returns true exactly when no pair of the cached RAW, WAR or WAW has a
    lexicographically non-positive difference between the date of its
    target and the date of its source; in particular a zero difference
    makes it return false. *)
Theorem isValidScattering_iff_no_nonpositive_delta
    (this : Dependences) (S : Scop) (NewScattering : StatementToIslMapTy)
    (raw war waw : umap_rep) (t : tuple) :
  RAW this = Some raw -> WAR this = Some war -> WAW this = Some waw ->
  shared_time_space t NewScattering S = true ->
  (isValidScattering false this S NewScattering = true <->
   forall src tgt dsrc dtgt,
     In (src, tgt) (umap_pairs raw) \/ In (src, tgt) (umap_pairs war)
     \/ In (src, tgt) (umap_pairs waw) ->
     In (src, dsrc) (scattering_points NewScattering S) ->
     In (tgt, dtgt) (scattering_points NewScattering S) ->
     nonpositive (vsub (snd dtgt) (snd dsrc)) = false)
  /\ (forall src tgt dsrc dtgt,
        In (src, tgt) (umap_pairs raw) \/ In (src, tgt) (umap_pairs war)
        \/ In (src, tgt) (umap_pairs waw) ->
        In (src, dsrc) (scattering_points NewScattering S) ->
        In (tgt, dtgt) (scattering_points NewScattering S) ->
        vsub (snd dtgt) (snd dsrc) = repeat 0 (snd t) ->
        isValidScattering false this S NewScattering = false).
Proof.
  intros HR HA HW Hsh.
  destruct (getDependences_all this raw war waw HR HA HW) as [deps [Hdeps Hmem]].
  assert (Hiff :
    isValidScattering false this S NewScattering = true <->
    forall src tgt dsrc dtgt,
      In (src, tgt) (umap_pairs raw) \/ In (src, tgt) (umap_pairs war)
      \/ In (src, tgt) (umap_pairs waw) ->
      In (src, dsrc) (scattering_points NewScattering S) ->
      In (tgt, dtgt) (scattering_points NewScattering S) ->
      nonpositive (vsub (snd dtgt) (snd dsrc)) = false).
  { destruct (statements S) as [|SI0 rest] eqn:Hst.
    - split.
      + intros _ src tgt dsrc dtgt _ H. unfold scattering_points in H.
        rewrite Hst in H. destruct H.
      + intros _. now apply isValidScattering_no_stmt.
    - pose proof (shared_time_space_present t NewScattering S Hsh) as Hall.
      assert (HSI0 : In SI0 (statements S)) by (rewrite Hst; now left).
      destruct (stmtScattering NewScattering SI0) as [m0|] eqn:Em0.
      2:{ rewrite Forall_forall in Hall. now specialize (Hall SI0 HSI0). }
      assert (Ht : map_out m0 = t).
      { unfold shared_time_space in Hsh. rewrite forallb_forall in Hsh.
        specialize (Hsh SI0 HSI0). rewrite Em0 in Hsh.
        apply andb_true_iff in Hsh. destruct Hsh as [Hsh _].
        now apply tuple_eqb_true. }
      rewrite (isValidScattering_gen this S NewScattering deps SI0 rest m0
                 Hdeps Hall Hst Em0).
      rewrite Ht. split.
      + intros H src tgt dsrc dtgt Hd Hs Hg.
        apply (H src tgt); try assumption;
          [now apply Hmem | |]; eapply shared_time_space_date; eassumption.
      + intros H src tgt dsrc dtgt Hd Hs Hg _ _. apply (H src tgt); try assumption.
        now apply Hmem. }
  split; [exact Hiff|].
  intros src tgt dsrc dtgt Hd Hs Hg Hz.
  destruct (isValidScattering false this S NewScattering) eqn:E; [|reflexivity].
  exfalso. pose proof (proj1 Hiff eq_refl src tgt dsrc dtgt Hd Hs Hg) as F.
  rewrite Hz, nonpositive_zero in F. discriminate.
Qed.

(** C4.  With the cache computed by [runOnScop] on a Scop whose schedule
    gives every statement instance one date, [isValidScattering] on the
    empty [NewScattering], where every statement keeps its scattering,
    returns true. *)
Theorem isValidScattering_current_schedule (this : Dependences) (S : Scop) :
  single_valued (schedule_points S) = true ->
  isValidScattering false (fst (runOnScop this S)) S [] = true.
Proof.
  intros Hsv.
  destruct (getDependences (fst (runOnScop this S)) TYPE_ALL) as [deps|] eqn:Hdeps.
  2:{ now apply isValidScattering_null. }
  destruct (statements S) as [|SI0 rest] eqn:Hst.
  { now apply isValidScattering_no_stmt. }
  assert (Hall : Forall (fun SI => stmtScattering [] SI <> None) (statements S)).
  { apply Forall_forall. intros SI _. discriminate. }
  apply (isValidScattering_gen _ S [] deps SI0 rest (Scattering (snd SI0))
           Hdeps Hall Hst eq_refl).
  rewrite scattering_points_current.
  intros src tgt dsrc dtgt Hd Hs Hg Es Eg.
  pose proof (cache_before this S deps Hdeps (src, tgt) Hd) as Hb.
  cbn [fst snd] in Hb. apply before_spec in Hb.
  destruct Hb as [tj [ti [Hj [Hi [Hsp Hlt]]]]].
  rewrite (single_valued_spec _ Hsv src dsrc tj Hs Hj).
  rewrite (single_valued_spec _ Hsv tgt dtgt ti Hg Hi).
  apply lex_ltb_positive; [|assumption].
  unfold point_space in Hsp. now injection Hsp.
Qed.

(** C2, as the pass decides it.  With the three relations cached, a
    positive depth and scatterings of at least that many dimensions,
    [isParallelDimension] returns true exactly when no pair of the cached
    RAW, WAR or WAW between two instances dated inside [Domain] by the
    truncated schedule has a distance whose coordinates are all zero
    except the last, which is not zero: the distances that keep a
    dimension from being parallel are the ones carried by that very
    dimension. *)
Theorem isParallelDimension_iff_not_carried
    (this : Dependences) (S : Scop) (dom : set_rep) (ParallelDim : Z)
    (raw war waw sched : umap_rep) :
  0 < ParallelDim < 2 ^ 32 ->
  truncatable ParallelDim S = true ->
  RAW this = Some raw -> WAR this = Some war -> WAW this = Some waw ->
  getCombinedScheduleForSpace S ParallelDim = Some sched ->
  (isParallelDimension this S (Some dom) ParallelDim = true <->
   forall src tgt dsrc dtgt,
     In (src, tgt) (umap_pairs raw) \/ In (src, tgt) (umap_pairs war)
     \/ In (src, tgt) (umap_pairs waw) ->
     In (src, dsrc) (umap_pairs sched) ->
     In (tgt, dtgt) (umap_pairs sched) ->
     in_set dom dsrc = true -> in_set dom dtgt = true ->
     carried_by_last (vsub (snd dtgt) (snd dsrc)) = false).
Proof.
  intros HPD Htr HR HA HW Hsched.
  destruct (getDependences_all this raw war waw HR HA HW) as [deps [Hdeps Hmem]].
  rewrite (isParallelDimension_char this S dom ParallelDim deps sched
             HPD Htr Hdeps Hsched).
  split; intros H src tgt dsrc dtgt Hd; apply (H src tgt); now apply Hmem.
Qed.

(** C2, witness: the recurrence at depth one. *)
Lemma isParallelDimension_iff_not_carried_witness :
  0 < 1 < 2 ^ 32
  /\ truncatable 1 rec_scop = true
  /\ RAW rec_cache = Some (deref (RAW rec_cache))
  /\ WAR rec_cache = Some (deref (WAR rec_cache))
  /\ WAW rec_cache = Some (deref (WAW rec_cache))
  /\ getCombinedScheduleForSpace rec_scop 1
     = Some (deref (getCombinedScheduleForSpace rec_scop 1))
  /\ (isParallelDimension rec_cache rec_scop (Some line) 1 = true <->
      forall src tgt dsrc dtgt,
        In (src, tgt) (umap_pairs (deref (RAW rec_cache)))
        \/ In (src, tgt) (umap_pairs (deref (WAR rec_cache)))
        \/ In (src, tgt) (umap_pairs (deref (WAW rec_cache))) ->
        In (src, dsrc)
          (umap_pairs (deref (getCombinedScheduleForSpace rec_scop 1))) ->
        In (tgt, dtgt)
          (umap_pairs (deref (getCombinedScheduleForSpace rec_scop 1))) ->
        in_set line dsrc = true -> in_set line dtgt = true ->
        carried_by_last (vsub (snd dtgt) (snd dsrc)) = false).
Proof.
  split; [lia|]. split; [reflexivity|]. split; [reflexivity|].
  split; [reflexivity|]. split; [reflexivity|]. split; [reflexivity|].
  apply (isParallelDimension_iff_not_carried rec_cache rec_scop line 1
           (deref (RAW rec_cache)) (deref (WAR rec_cache))
           (deref (WAW rec_cache))
           (deref (getCombinedScheduleForSpace rec_scop 1)));
    [lia | reflexivity | reflexivity | reflexivity | reflexivity | reflexivity].
Defined.

(** C2, as stated, fails.  In the nest the dependence from [S[0,0]] to
    [S[1,0]] has the distance (1, 0) at depth two, not zero at index 0,
    below depth - 1, and the answer is true, so that the answer is not
    "true exactly when every distance is zero except possibly in its last
    coordinate"; in the recurrence the dependence from [S[0]] to [S[1]]
    has the distance (1) at depth one, all zero except the last coordinate,
    and the answer is false. *)
Lemma isParallelDimension_outer_distance :
  (In (("S"%string, [0; 0]), ("S"%string, [1; 0]))
     (pairs_of (getDependences nest_cache TYPE_ALL))
   /\ In (("S"%string, [0; 0]), (EmptyString, [0; 0]))
        (pairs_of (getCombinedScheduleForSpace nest_scop 2))
   /\ In (("S"%string, [1; 0]), (EmptyString, [1; 0]))
        (pairs_of (getCombinedScheduleForSpace nest_scop 2))
   /\ in_set plane (EmptyString, [0; 0]) = true
   /\ in_set plane (EmptyString, [1; 0]) = true
   /\ vsub [1; 0] [0; 0] = [1; 0]
   /\ isParallelDimension nest_cache nest_scop (Some plane) 2 = true)
  /\ ~ (isParallelDimension nest_cache nest_scop (Some plane) 2 = true <->
        forall src tgt dsrc dtgt,
          In (src, tgt) (pairs_of (getDependences nest_cache TYPE_ALL)) ->
          In (src, dsrc) (pairs_of (getCombinedScheduleForSpace nest_scop 2)) ->
          In (tgt, dtgt) (pairs_of (getCombinedScheduleForSpace nest_scop 2)) ->
          in_set plane dsrc = true -> in_set plane dtgt = true ->
          zero_but_last (vsub (snd dtgt) (snd dsrc)) = true)
  /\ (In (("S"%string, [0]), ("S"%string, [1]))
        (pairs_of (getDependences rec_cache TYPE_ALL))
      /\ In (("S"%string, [0]), (EmptyString, [0]))
           (pairs_of (getCombinedScheduleForSpace rec_scop 1))
      /\ In (("S"%string, [1]), (EmptyString, [1]))
           (pairs_of (getCombinedScheduleForSpace rec_scop 1))
      /\ in_set line (EmptyString, [0]) = true
      /\ in_set line (EmptyString, [1]) = true
      /\ vsub [1] [0] = [1]
      /\ zero_but_last [1] = true
      /\ isParallelDimension rec_cache rec_scop (Some line) 1 = false).
Proof.
  split; [vm_compute; intuition reflexivity|].
  split; [|vm_compute; intuition reflexivity].
  intros [H _].
  specialize (H eq_refl ("S"%string, [0; 0]) ("S"%string, [1; 0])
                (EmptyString, [0; 0]) (EmptyString, [1; 0])).
  assert (F : zero_but_last (vsub [1; 0] [0; 0]) = true).
  { apply H; vm_compute; intuition reflexivity. }
  vm_compute in F. discriminate.
Qed.

(** C3, witness: the recurrence under the reversed schedule. *)
Lemma isValidScattering_iff_no_nonpositive_delta_witness :
  RAW rec_cache = Some (deref (RAW rec_cache))
  /\ WAR rec_cache = Some (deref (WAR rec_cache))
  /\ WAW rec_cache = Some (deref (WAW rec_cache))
  /\ shared_time_space tuple_T1 reversed rec_scop = true
  /\ (isValidScattering false rec_cache rec_scop reversed = true <->
   forall src tgt dsrc dtgt,
     In (src, tgt) (umap_pairs (deref (RAW rec_cache)))
     \/ In (src, tgt) (umap_pairs (deref (WAR rec_cache)))
     \/ In (src, tgt) (umap_pairs (deref (WAW rec_cache))) ->
     In (src, dsrc) (scattering_points reversed rec_scop) ->
     In (tgt, dtgt) (scattering_points reversed rec_scop) ->
     nonpositive (vsub (snd dtgt) (snd dsrc)) = false)
  /\ (forall src tgt dsrc dtgt,
        In (src, tgt) (umap_pairs (deref (RAW rec_cache)))
        \/ In (src, tgt) (umap_pairs (deref (WAR rec_cache)))
        \/ In (src, tgt) (umap_pairs (deref (WAW rec_cache))) ->
        In (src, dsrc) (scattering_points reversed rec_scop) ->
        In (tgt, dtgt) (scattering_points reversed rec_scop) ->
        vsub (snd dtgt) (snd dsrc) = repeat 0 (snd tuple_T1) ->
        isValidScattering false rec_cache rec_scop reversed = false).
Proof.
  split; [reflexivity|]. split; [reflexivity|]. split; [reflexivity|].
  split; [reflexivity|].
  apply (isValidScattering_iff_no_nonpositive_delta rec_cache rec_scop reversed
           (deref (RAW rec_cache)) (deref (WAR rec_cache))
           (deref (WAW rec_cache)) tuple_T1);
    reflexivity.
Defined.

(** C4, witness: the recurrence under its own schedule. *)
Lemma isValidScattering_current_schedule_witness :
  single_valued (schedule_points rec_scop) = true
  /\ isValidScattering false (fst (runOnScop Dependences_ctor rec_scop))
       rec_scop [] = true.
Proof.
  split; [reflexivity|].
  apply (isValidScattering_current_schedule Dependences_ctor rec_scop).
  reflexivity.
Defined.

(** C1.  On the Scop of a conditional store [collectInfo] puts the
    may-write access into [Write], the must-sources of the dataflow, and
    leaves [MayWrite] empty. *)
Theorem collectInfo_may_write_in_Write :
  collectInfo maywrite_scop
  = (Some (mk_umap param_N []),
     Some (mk_umap param_N
             [(("S"%string, [0]), ("A"%string, [0]));
              (("S"%string, [1]), ("A"%string, [1]))]),
     Some (mk_umap param_N []),
     Some (mk_umap param_N
             [(("S"%string, [0]), ("scattering"%string, [0]));
              (("S"%string, [1]), ("scattering"%string, [1]))])).
Proof. reflexivity. Qed.

(** C5, as stated, fails.  The relations of the Scop range over the
    parameter [M] and the Scop over [N]; [runOnScop] runs the dataflow all
    the same and caches its results, over both parameters. *)
Lemma runOnScop_mismatched_params :
  params_mismatch mismatch_scop = true
  /\ fst (runOnScop Dependences_ctor mismatch_scop)
     = {| RAW := Some (mk_umap ["N"%string; "M"%string]
                         [(("S"%string, [0]), ("S"%string, [1]));
                          (("S"%string, [1]), ("S"%string, [2]));
                          (("S"%string, [2]), ("S"%string, [3]))]);
          WAR := Some (mk_umap ["N"%string; "M"%string] []);
          WAW := Some (mk_umap ["N"%string; "M"%string] []) |}.
Proof. split; reflexivity. Qed.

(** C5, as the pass does it.  There is no check of the parameter spaces:
    whatever the parameters of its relations, a Scop whose access
    relations start in the tuple of their statement's domain has its
    dependences computed, all three kinds, from the two runs of the
    dataflow on the relations [collectInfo] gathers. *)
Theorem runOnScop_no_parameter_check (this : Dependences) (S : Scop) :
  accesses_in_domain S = true ->
  exists Read Write MayWrite Schedule,
    collectInfo S = (Some Read, Some Write, Some MayWrite, Some Schedule)
    /\ RAW (fst (runOnScop this S))
       = isl_union_map_coalesce
           (fst (isl_union_map_compute_flow (Some Read) (Some Write)
                   (Some MayWrite) (Some Schedule)))
    /\ WAW (fst (runOnScop this S))
       = isl_union_map_coalesce
           (fst (isl_union_map_compute_flow (Some Write) (Some Write)
                   (Some Read) (Some Schedule)))
    /\ WAR (fst (runOnScop this S))
       = isl_union_map_coalesce
           (snd (isl_union_map_compute_flow (Some Write) (Some Write)
                   (Some Read) (Some Schedule)))
    /\ present (RAW (fst (runOnScop this S))) = true
    /\ present (WAR (fst (runOnScop this S))) = true
    /\ present (WAW (fst (runOnScop this S))) = true.
Proof.
  intros H. destruct (collectInfo_present S H) as [r [w [ps E]]].
  exists r, w, (mk_umap (Context S) []), (mk_umap ps (schedule_points S)).
  split; [exact E|].
  unfold runOnScop, calculateDependences. cbn [fst]. rewrite E.
  repeat split.
Qed.

(** C5, witness: the Scop with the mismatched parameters. *)
Lemma runOnScop_no_parameter_check_witness :
  accesses_in_domain mismatch_scop = true
  /\ exists Read Write MayWrite Schedule,
       collectInfo mismatch_scop
       = (Some Read, Some Write, Some MayWrite, Some Schedule)
       /\ RAW (fst (runOnScop Dependences_ctor mismatch_scop))
          = isl_union_map_coalesce
              (fst (isl_union_map_compute_flow (Some Read) (Some Write)
                      (Some MayWrite) (Some Schedule)))
       /\ WAW (fst (runOnScop Dependences_ctor mismatch_scop))
          = isl_union_map_coalesce
              (fst (isl_union_map_compute_flow (Some Write) (Some Write)
                      (Some Read) (Some Schedule)))
       /\ WAR (fst (runOnScop Dependences_ctor mismatch_scop))
          = isl_union_map_coalesce
              (snd (isl_union_map_compute_flow (Some Write) (Some Write)
                      (Some Read) (Some Schedule)))
       /\ present (RAW (fst (runOnScop Dependences_ctor mismatch_scop))) = true
       /\ present (WAR (fst (runOnScop Dependences_ctor mismatch_scop))) = true
       /\ present (WAW (fst (runOnScop Dependences_ctor mismatch_scop))) = true.
Proof.
  split; [reflexivity|].
  apply (runOnScop_no_parameter_check Dependences_ctor mismatch_scop).
  reflexivity.
Defined.

(** C6, as stated, fails.  After [releaseMemory] the reversed schedule of
    the recurrence is reported valid: the query has not failed, and it has
    not recomputed the cache, on which the answer is false. *)
Lemma isValidScattering_on_released_cache :
  isValidScattering false (releaseMemory rec_cache) rec_scop reversed = true
  /\ isValidScattering false
       (fst (runOnScop (releaseMemory rec_cache) rec_scop)) rec_scop reversed
     = false
  /\ serve (releaseMemory rec_cache)
       (ReqIsValidScattering false rec_scop reversed)
     = releaseMemory rec_cache.
Proof. repeat split; reflexivity. Qed.

(** C6, as the pass does it.  After [releaseMemory] and any number of
    queries, [getDependences] returns NULL for every mask of kinds, never
    a relation of the released cache, and the cache is still cleared: no
    query recomputes it. *)
Theorem getDependences_on_released_cache (this : Dependences)
    (rs : list request) (Kinds : Z) :
  forallb is_query rs = true ->
  fold_left serve rs (releaseMemory this) = Dependences_ctor
  /\ getDependences (fold_left serve rs (releaseMemory this)) Kinds = None.
Proof.
  intros H. rewrite (serve_queries rs _ H). split; [reflexivity|].
  unfold getDependences. cbn [releaseMemory RAW WAR WAW isl_union_map_get_space
                              isl_union_map_empty isl_union_map_copy].
  destruct (int_to_bool (Z.land Kinds TYPE_RAW)),
    (int_to_bool (Z.land Kinds TYPE_WAR)),
    (int_to_bool (Z.land Kinds TYPE_WAW)); reflexivity.
Qed.

(** C6, witness: two queries on the released cache of the recurrence. *)
Lemma getDependences_on_released_cache_witness :
  forallb is_query
    [ReqIsValidScattering false rec_scop reversed; ReqGetDependences TYPE_RAW]
  = true
  /\ fold_left serve
    [ReqIsValidScattering false rec_scop reversed; ReqGetDependences TYPE_RAW]
    (releaseMemory rec_cache) = Dependences_ctor
  /\ getDependences
       (fold_left serve
          [ReqIsValidScattering false rec_scop reversed;
           ReqGetDependences TYPE_RAW]
          (releaseMemory rec_cache)) TYPE_ALL = None.
Proof.
  split; [reflexivity|].
  apply (getDependences_on_released_cache rec_cache
           [ReqIsValidScattering false rec_scop reversed;
            ReqGetDependences TYPE_RAW] TYPE_ALL).
  reflexivity.
Defined.

(** C7.  After any sequence of requests to a new pass the cache holds all
    three relations or none.  [releaseMemory] leaves none of the three;
    [runOnScop] clears the cache before it computes, so that its result
    does not depend on the cache it finds, and leaves all three relations
    when the computation succeeds, which it does when every access
    relation starts in the tuple of its statement's domain, and none of
    them when it fails. *)
Theorem cache_all_or_none (rs : list request) :
  all_or_none (fold_left serve rs Dependences_ctor) = true
  /\ forall this S,
       releaseMemory this = {| RAW := None; WAR := None; WAW := None |}
       /\ runOnScop this S = (calculateDependences (releaseMemory this) S, false)
       /\ runOnScop this S = runOnScop Dependences_ctor S
       /\ present (RAW (fst (runOnScop this S))) = accesses_in_domain S
       /\ present (WAR (fst (runOnScop this S))) = accesses_in_domain S
       /\ present (WAW (fst (runOnScop this S))) = accesses_in_domain S.
Proof.
  split.
  - assert (G : forall this, all_or_none this = true ->
                             all_or_none (fold_left serve rs this) = true).
    { induction rs as [|r rs IH]; intros this H; [exact H|].
      cbn [fold_left]. apply IH. now apply serve_all_or_none. }
    apply G. reflexivity.
  - intros this S. split; [reflexivity|]. split; [reflexivity|].
    split; [reflexivity|].
    unfold runOnScop, calculateDependences. cbn [fst].
    destruct (accesses_in_domain S) eqn:H.
    + destruct (collectInfo_present S H) as [r [w [ps E]]]. rewrite E.
      repeat split.
    + pose proof (collectInfo_fail S H) as F.
      destruct (collectInfo_spec S) as [R [W [ps E]]]. rewrite E in *.
      cbn [fst snd] in F.
      destruct R, W; destruct F as [F|F]; try discriminate F; repeat split.
Qed.

(** C8.  With the legality check disabled [isValidScattering] returns
    true, whatever the cache, the Scop and the new scattering. *)
Theorem isValidScattering_disabled (this : Dependences) (S : Scop)
    (NewScattering : StatementToIslMapTy) :
  isValidScattering true this S NewScattering = true.
Proof. reflexivity. Qed.

(** C9.  On a computed cache [getDependences] returns, without repeated
    pairs, the union of the cached relations whose kind is in the mask, and
    returns the same after any number of queries. *)
Theorem getDependences_union_of_kinds (this : Dependences) (Kinds : Z)
    (raw war waw : umap_rep) (rs : list request) :
  RAW this = Some raw -> WAR this = Some war -> WAW this = Some waw ->
  forallb is_query rs = true ->
  exists u,
    getDependences this Kinds = Some u
    /\ getDependences (fold_left serve rs this) Kinds = Some u
    /\ NoDup (umap_pairs u)
    /\ forall pq,
         In pq (umap_pairs u) <->
         (Z.land Kinds TYPE_RAW <> 0 /\ In pq (umap_pairs raw))
         \/ (Z.land Kinds TYPE_WAR <> 0 /\ In pq (umap_pairs war))
         \/ (Z.land Kinds TYPE_WAW <> 0 /\ In pq (umap_pairs waw)).
Proof.
  intros HR HA HW Hq. rewrite (serve_queries rs this Hq).
  unfold getDependences. rewrite HR, HA, HW.
  pose proof (int_to_bool_true (Z.land Kinds TYPE_RAW)) as B1.
  pose proof (int_to_bool_true (Z.land Kinds TYPE_WAR)) as B2.
  pose proof (int_to_bool_true (Z.land Kinds TYPE_WAW)) as B3.
  destruct (int_to_bool (Z.land Kinds TYPE_RAW)),
    (int_to_bool (Z.land Kinds TYPE_WAR)),
    (int_to_bool (Z.land Kinds TYPE_WAW));
    (eexists; split; [reflexivity|]; split; [reflexivity|];
     split; [apply NoDup_nodup|];
     intros pq; cbn [umap_pairs]; rewrite nodup_In;
     cbn [app]; rewrite ?in_app_iff;
     assert (T : true = true) by reflexivity;
     intuition (try discriminate; auto)).
Qed.

(** C9, witness: the cache of the recurrence, asked for every kind. *)
Lemma getDependences_union_of_kinds_witness :
  RAW rec_cache = Some (deref (RAW rec_cache))
  /\ WAR rec_cache = Some (deref (WAR rec_cache))
  /\ WAW rec_cache = Some (deref (WAW rec_cache))
  /\ forallb is_query [ReqGetDependences TYPE_ALL] = true
  /\ exists u,
    getDependences rec_cache TYPE_ALL = Some u
    /\ getDependences
         (fold_left serve [ReqGetDependences TYPE_ALL] rec_cache) TYPE_ALL
       = Some u
    /\ NoDup (umap_pairs u)
    /\ forall pq,
         In pq (umap_pairs u) <->
         (Z.land TYPE_ALL TYPE_RAW <> 0 /\ In pq (umap_pairs (deref (RAW rec_cache))))
         \/ (Z.land TYPE_ALL TYPE_WAR <> 0
             /\ In pq (umap_pairs (deref (WAR rec_cache))))
         \/ (Z.land TYPE_ALL TYPE_WAW <> 0
             /\ In pq (umap_pairs (deref (WAW rec_cache)))).
Proof.
  split; [reflexivity|]. split; [reflexivity|]. split; [reflexivity|].
  split; [reflexivity|].
  apply (getDependences_union_of_kinds rec_cache TYPE_ALL
           (deref (RAW rec_cache)) (deref (WAR rec_cache))
           (deref (WAW rec_cache)) [ReqGetDependences TYPE_ALL]);
    reflexivity.
Defined.

(** C10.  On a computed cache a mask with none of the three kinds gives
    the empty relation over the parameters of the cache. *)
Theorem getDependences_no_kind (this : Dependences) (Kinds : Z) (raw : umap_rep) :
  RAW this = Some raw ->
  Z.land Kinds TYPE_RAW = 0 -> Z.land Kinds TYPE_WAR = 0 ->
  Z.land Kinds TYPE_WAW = 0 ->
  getDependences this Kinds = Some (mk_umap (umap_params raw) [])
  /\ getDependences this Kinds
     = isl_union_map_empty (isl_union_map_get_space (RAW this)).
Proof.
  intros HR H1 H2 H3. unfold getDependences. rewrite HR, H1, H2, H3.
  split; reflexivity.
Qed.

(** C10, witness: the cache of the recurrence and the mask 8. *)
Lemma getDependences_no_kind_witness :
  RAW rec_cache = Some (deref (RAW rec_cache))
  /\ Z.land 8 TYPE_RAW = 0 /\ Z.land 8 TYPE_WAR = 0 /\ Z.land 8 TYPE_WAW = 0
  /\ getDependences rec_cache 8 = Some (mk_umap (umap_params (deref (RAW rec_cache))) [])
  /\ getDependences rec_cache 8
     = isl_union_map_empty (isl_union_map_get_space (RAW rec_cache)).
Proof.
  split; [reflexivity|]. split; [reflexivity|]. split; [reflexivity|].
  split; [reflexivity|].
  apply (getDependences_no_kind rec_cache 8 (deref (RAW rec_cache)));
    reflexivity.
Defined.

(** * Further properties of the pass *)

(** ** What [collectInfo] gathers *)

Lemma collectInfo_access_exact (Stmt : ScopStmt) (l : list MemoryAccess)
    (r w : umap_rep) :
  forallb (fun MA => if tuple_eq_dec (map_in (AccessRelation MA))
                          (set_tuple (Domain Stmt))
                     then true else false) l = true ->
  exists r' w',
    fold_left (collectInfo_access Stmt) l (Some r, Some w) = (Some r', Some w')
    /\ umap_pairs r'
       = umap_pairs r
         ++ flat_map (fun MA => if isRead MA then domain_access_points Stmt MA
                                else []) l
    /\ umap_pairs w'
       = umap_pairs w
         ++ flat_map (fun MA => if isWrite MA then domain_access_points Stmt MA
                                else []) l.
Proof.
  revert r w. induction l as [|MA l IH]; intros r w Hl.
  - exists r, w. simpl. now rewrite !app_nil_r.
  - cbn [forallb] in Hl. apply andb_true_iff in Hl. destruct Hl as [HMA Hl].
    cbn [fold_left]. unfold collectInfo_access at 2.
    unfold getAccessRelation, getDomain, isl_map_intersect_domain.
    destruct (tuple_eq_dec (map_in (AccessRelation MA)) (set_tuple (Domain Stmt)));
      [|discriminate].
    unfold isWrite. cbn [flat_map].
    destruct (isRead MA); cbn [isl_union_map_add_map negb];
      match goal with
      | |- context [fold_left _ l (Some ?r1, Some ?w1)] =>
          destruct (IH r1 w1 Hl) as [r' [w' [E [Hr Hw]]]]
      end;
      exists r', w'; (split; [exact E|]); rewrite Hr, Hw;
      cbn [umap_pairs app]; rewrite ?app_nil_r, <- ?app_assoc; split; reflexivity.
Qed.

Lemma collectInfo_fold_exact (l : list ScopStmt) (r w : umap_rep)
    (M Sch : isl_union_map) :
  forallb (fun Stmt =>
             forallb (fun MA => if tuple_eq_dec (map_in (AccessRelation MA))
                                     (set_tuple (Domain Stmt))
                                then true else false) (MemAccs Stmt)) l = true ->
  exists r' w' Sch',
    fold_left collectInfo_stmt l (Some r, Some w, M, Sch)
    = (Some r', Some w', M, Sch')
    /\ umap_pairs r'
       = umap_pairs r
         ++ flat_map (fun Stmt =>
                        flat_map (fun MA => if isRead MA
                                            then domain_access_points Stmt MA
                                            else []) (MemAccs Stmt)) l
    /\ umap_pairs w'
       = umap_pairs w
         ++ flat_map (fun Stmt =>
                        flat_map (fun MA => if isWrite MA
                                            then domain_access_points Stmt MA
                                            else []) (MemAccs Stmt)) l.
Proof.
  revert r w Sch. induction l as [|Stmt l IH]; intros r w Sch Hl.
  - exists r, w, Sch. simpl. now rewrite !app_nil_r.
  - cbn [forallb] in Hl. apply andb_true_iff in Hl. destruct Hl as [HS Hl].
    cbn [fold_left]. unfold collectInfo_stmt at 2.
    destruct (collectInfo_access_exact Stmt (MemAccs Stmt) r w HS)
      as [r1 [w1 [E1 [Hr1 Hw1]]]].
    assert (G : (let '(Read, Write) :=
                   fold_left (collectInfo_access Stmt) (MemAccs Stmt)
                     (Some r, Some w) in
                 (Read, Write, M, isl_union_map_add_map Sch (getScattering Stmt)))
                = (Some r1, Some w1, M,
                   isl_union_map_add_map Sch (getScattering Stmt)))
      by (rewrite E1; reflexivity).
    destruct (IH r1 w1 (isl_union_map_add_map Sch (getScattering Stmt)) Hl)
      as [r' [w' [Sch' [E [Hr Hw]]]]].
    exists r', w', Sch'.
    split; [exact (eq_trans (f_equal (fold_left collectInfo_stmt l) G) E)|].
    rewrite Hr, Hw, Hr1, Hw1. cbn [flat_map]. rewrite <- !app_assoc.
    split; reflexivity.
Qed.

Lemma collectInfo_exact (S : Scop) :
  accesses_in_domain S = true ->
  exists Read Write ps,
    collectInfo S
    = (Some Read, Some Write, Some (mk_umap (Context S) []),
       Some (mk_umap ps (schedule_points S)))
    /\ umap_pairs Read = access_points isRead S
    /\ umap_pairs Write = access_points isWrite S.
Proof.
  intros H. destruct (collectInfo_spec S) as [R [W [ps E]]].
  destruct (collectInfo_fold_exact (Stmts S) (mk_umap (Context S) [])
              (mk_umap (Context S) [])
              (isl_union_map_empty (isl_space_copy (getParamSpace S)))
              (isl_union_map_empty (getParamSpace S)) H)
    as [r' [w' [Sch' [E' [Hr Hw]]]]].
  assert (E2 : collectInfo S
               = (Some r', Some w',
                  isl_union_map_empty (isl_space_copy (getParamSpace S)), Sch'))
    by exact E'.
  rewrite E in E2. injection E2 as -> -> _.
  exists r', w', ps. split; [exact E|]. split; assumption.
Qed.

(** X1.  When every access relation starts in the tuple of its statement's
    domain, [collectInfo] gathers in [Read] exactly the pairs of the read
    accesses whose instance lies in that domain, and in [Write] those of
    all the other accesses, in the order of the statements and of their
    accesses. *)
Theorem collectInfo_Read_Write (S : Scop) :
  accesses_in_domain S = true ->
  exists Read Write,
    fst (fst (fst (collectInfo S))) = Some Read
    /\ snd (fst (fst (collectInfo S))) = Some Write
    /\ umap_pairs Read = access_points isRead S
    /\ umap_pairs Write = access_points isWrite S.
Proof.
  intros H. destruct (collectInfo_exact S H) as [r [w [ps [E [Hr Hw]]]]].
  exists r, w. rewrite E. repeat split; assumption.
Qed.

Lemma collectInfo_Read_Write_witness :
  accesses_in_domain rec_scop = true
  /\ exists Read Write,
       fst (fst (fst (collectInfo rec_scop))) = Some Read
       /\ snd (fst (fst (collectInfo rec_scop))) = Some Write
       /\ umap_pairs Read = access_points isRead rec_scop
       /\ umap_pairs Write = access_points isWrite rec_scop.
Proof.
  split; [reflexivity|]. apply (collectInfo_Read_Write rec_scop). reflexivity.
Defined.

(** X2.  Whatever the Scop, [collectInfo] leaves [MayWrite] empty and
    returns a [Schedule] that is never NULL and holds every pair of every
    scattering, also for instances outside the domain of the statement. *)
Theorem collectInfo_MayWrite_Schedule (S : Scop) :
  snd (fst (collectInfo S)) = Some (mk_umap (Context S) [])
  /\ exists Schedule,
       snd (collectInfo S) = Some Schedule
       /\ forall p d,
            In (p, d) (umap_pairs Schedule) <->
            exists Stmt, In Stmt (Stmts S) /\ In (p, d) (map_points (Scattering Stmt)).
Proof.
  destruct (collectInfo_spec S) as [R [W [ps E]]]. rewrite E. cbn [fst snd].
  split; [reflexivity|]. eexists. split; [reflexivity|].
  intros p d. cbn [umap_pairs]. unfold schedule_points. apply in_flat_map.
Qed.

(** X3.  [runOnScop] caches the three relations exactly when every access
    relation starts in the tuple of its statement's domain; otherwise the
    intersection with the domain fails and all three relations are left
    NULL. *)
Theorem runOnScop_populates_iff (this : Dependences) (S : Scop) :
  present (RAW (fst (runOnScop this S))) = accesses_in_domain S
  /\ present (WAR (fst (runOnScop this S))) = accesses_in_domain S
  /\ present (WAW (fst (runOnScop this S))) = accesses_in_domain S.
Proof.
  unfold runOnScop, calculateDependences. cbn [fst].
  destruct (accesses_in_domain S) eqn:H.
  - destruct (collectInfo_present S H) as [r [w [ps E]]]. rewrite E.
    repeat split.
  - pose proof (collectInfo_fail S H) as F.
    destruct (collectInfo_spec S) as [R [W [ps E]]]. rewrite E in *.
    cbn [fst snd] in F.
    destruct R, W; destruct F as [F|F]; try discriminate F; repeat split.
Qed.

(** ** What the cache holds *)

Lemma cache_contents (this : Dependences) (S : Scop) :
  accesses_in_domain S = true ->
  pairs_of (RAW (fst (runOnScop this S)))
  = nodup pair_eq_dec
      (flat_map (must_deps_of (schedule_points S) (access_points isWrite S) [])
         (access_points isRead S))
  /\ pairs_of (WAW (fst (runOnScop this S)))
     = nodup pair_eq_dec
         (flat_map (must_deps_of (schedule_points S) (access_points isWrite S)
                      (access_points isRead S))
            (access_points isWrite S))
  /\ pairs_of (WAR (fst (runOnScop this S)))
     = nodup pair_eq_dec
         (flat_map (may_deps_of (schedule_points S) (access_points isWrite S)
                      (access_points isRead S))
            (access_points isWrite S)).
Proof.
  intros H. destruct (collectInfo_exact S H) as [r [w [ps [E [Hr Hw]]]]].
  unfold runOnScop, calculateDependences. cbn [fst]. rewrite E.
  cbn -[nodup must_deps_of may_deps_of]. rewrite Hr, Hw. repeat split.
Qed.

(** X4.  What [runOnScop] caches joins accesses to one memory element, the
    source dated strictly before the target.  A pair of RAW goes from a
    write to a read, with no write of the element dated between the two.
    A pair of WAW goes from a write to a write, with no write of the
    element dated between the two, and every read of the element before
    the target is a read of the source itself or is dated before the
    source.  The source of a pair of WAR reads or writes an element that
    an instance dated after it writes. *)
Theorem cached_dependences_join_accesses (this : Dependences) (S : Scop) :
  accesses_in_domain S = true ->
  (forall j i, In (j, i) (pairs_of (RAW (fst (runOnScop this S)))) ->
               exists e, In (i, e) (access_points isRead S)
                         /\ In (j, e) (access_points isWrite S)
                         /\ before (schedule_points S) j i = true
                         /\ forall k, In (k, e) (access_points isWrite S) ->
                                      before (schedule_points S) j k = true ->
                                      before (schedule_points S) k i = false)
  /\ (forall j i, In (j, i) (pairs_of (WAW (fst (runOnScop this S)))) ->
                  exists e, In (i, e) (access_points isWrite S)
                            /\ In (j, e) (access_points isWrite S)
                            /\ before (schedule_points S) j i = true
                            /\ (forall k, In (k, e) (access_points isWrite S) ->
                                          before (schedule_points S) j k = true ->
                                          before (schedule_points S) k i = false)
                            /\ (forall k, In (k, e) (access_points isRead S) ->
                                          before (schedule_points S) k i = true ->
                                          k = j
                                          \/ before (schedule_points S) k j = true))
  /\ (forall j x, In (j, x) (pairs_of (WAR (fst (runOnScop this S)))) ->
                  exists i e, In (i, e) (access_points isWrite S)
                              /\ (In (j, e) (access_points isRead S)
                                  \/ In (j, e) (access_points isWrite S))
                              /\ before (schedule_points S) j i = true).
Proof.
  intros H. destruct (cache_contents this S H) as [E1 [E2 E3]].
  rewrite E1, E2, E3.
  assert (Last : forall sched must e i j k,
             In j (last_must sched must e i) -> In (k, e) must ->
             before sched j k = true -> before sched k i = false).
  { intros sched must e i j k Hj Hk Hjk. apply In_last_must in Hj.
    destruct Hj as [_ [_ Hn]].
    destruct (before sched k i) eqn:Hki; [|reflexivity].
    specialize (Hn k Hk Hki). unfold hides in Hn. rewrite Hjk in Hn.
    discriminate. }
  split; [|split]; intros j i Hji;
    apply nodup_In in Hji; apply in_flat_map in Hji;
    destruct Hji as [[i0 e] [Hie Hji]].
  - apply In_must_deps_of in Hji. cbn [fst snd] in Hji.
    destruct Hji as [-> [Hl _]]. pose proof Hl as Hl'.
    apply In_last_must in Hl'. destruct Hl' as [Hj [Hb _]].
    exists e. split; [assumption|]. split; [assumption|]. split; [assumption|].
    intros k. now apply Last.
  - apply In_must_deps_of in Hji. cbn [fst snd] in Hji.
    destruct Hji as [-> [Hl Hu]]. pose proof Hl as Hl'.
    apply In_last_must in Hl'. destruct Hl' as [Hj [Hb _]].
    exists e. split; [assumption|]. split; [assumption|]. split; [assumption|].
    split; [intros k; now apply Last|].
    intros k Hk Hki. rewrite unrivalled_spec in Hu. apply Hu.
    apply in_or_app. right. now apply In_sources_before.
  - apply In_may_deps_of in Hji. destruct Hji as [-> [Hj Hb]].
    exists i0, e. cbn [fst snd] in *. split; [assumption|].
    split; [tauto|assumption].
Qed.

Lemma cached_dependences_join_accesses_witness :
  accesses_in_domain mixed_scop = true
  /\ (forall j i, In (j, i) (pairs_of (RAW mixed_cache)) ->
                  exists e, In (i, e) (access_points isRead mixed_scop)
                            /\ In (j, e) (access_points isWrite mixed_scop)
                            /\ before (schedule_points mixed_scop) j i = true
                            /\ forall k,
                                 In (k, e) (access_points isWrite mixed_scop) ->
                                 before (schedule_points mixed_scop) j k = true ->
                                 before (schedule_points mixed_scop) k i = false)
  /\ (forall j i, In (j, i) (pairs_of (WAW mixed_cache)) ->
                  exists e, In (i, e) (access_points isWrite mixed_scop)
                            /\ In (j, e) (access_points isWrite mixed_scop)
                            /\ before (schedule_points mixed_scop) j i = true
                            /\ (forall k,
                                  In (k, e) (access_points isWrite mixed_scop) ->
                                  before (schedule_points mixed_scop) j k = true ->
                                  before (schedule_points mixed_scop) k i = false)
                            /\ (forall k,
                                  In (k, e) (access_points isRead mixed_scop) ->
                                  before (schedule_points mixed_scop) k i = true ->
                                  k = j
                                  \/ before (schedule_points mixed_scop) k j = true))
  /\ (forall j x, In (j, x) (pairs_of (WAR mixed_cache)) ->
                  exists i e, In (i, e) (access_points isWrite mixed_scop)
                              /\ (In (j, e) (access_points isRead mixed_scop)
                                  \/ In (j, e) (access_points isWrite mixed_scop))
                              /\ before (schedule_points mixed_scop) j i = true).
Proof.
  split; [reflexivity|].
  apply (cached_dependences_join_accesses Dependences_ctor mixed_scop).
  reflexivity.
Defined.

Lemma lex_ltb_length_irrefl (a : list Z) : lex_ltb a a = false.
Proof.
  induction a as [|x a IH]; [reflexivity|]. cbn [lex_ltb].
  rewrite Z.ltb_irrefl, Z.eqb_refl, IH. reflexivity.
Qed.

Lemma lex_ltb_trans (a b c : list Z) :
  length a = length b -> length b = length c ->
  lex_ltb a b = true -> lex_ltb b c = true -> lex_ltb a c = true.
Proof.
  revert b c. induction a as [|x a IH]; intros [|y b] [|z c] L1 L2 H1 H2;
    simpl in *; try discriminate.
  apply orb_true_iff in H1. apply orb_true_iff in H2. apply orb_true_iff.
  destruct H1 as [H1|H1], H2 as [H2|H2].
  - left. apply Z.ltb_lt in H1, H2. apply Z.ltb_lt. lia.
  - apply andb_true_iff in H2. destruct H2 as [E _]. apply Z.eqb_eq in E.
    subst z. now left.
  - apply andb_true_iff in H1. destruct H1 as [E _]. apply Z.eqb_eq in E.
    subst y. now left.
  - apply andb_true_iff in H1. destruct H1 as [E1 H1].
    apply andb_true_iff in H2. destruct H2 as [E2 H2].
    apply Z.eqb_eq in E1, E2. subst y z. right. rewrite Z.eqb_refl.
    apply (IH b c); (lia || assumption).
Qed.

Lemma before_trans (sched : list ((string * list Z) * (string * list Z)))
    (a b c : string * list Z) :
  single_valued sched = true ->
  before sched a b = true -> before sched b c = true -> before sched a c = true.
Proof.
  intros Hsv H1 H2. apply before_spec in H1, H2. apply before_spec.
  destruct H1 as [ta [tb [Ha [Hb [S1 L1]]]]].
  destruct H2 as [tb' [tc [Hb' [Hc [S2 L2]]]]].
  rewrite <- (single_valued_spec _ Hsv b tb tb' Hb Hb') in *.
  exists ta, tc. split; [assumption|]. split; [assumption|].
  split; [congruence|].
  unfold point_space in S1, S2. injection S1 as _ S1. injection S2 as _ S2.
  now apply (lex_ltb_trans _ (snd tb)).
Qed.

Lemma before_irrefl (sched : list ((string * list Z) * (string * list Z)))
    (a : string * list Z) :
  single_valued sched = true -> before sched a a = false.
Proof.
  intros Hsv. destruct (before sched a a) eqn:H; [|reflexivity].
  apply before_spec in H. destruct H as [ta [ta' [Ha [Ha' [_ L]]]]].
  rewrite (single_valued_spec _ Hsv a ta ta' Ha Ha') in L.
  rewrite lex_ltb_length_irrefl in L. discriminate.
Qed.

(** X5.  With a schedule that gives every statement instance one date, the
    dependences of the cache computed by [runOnScop] have no cycle: no
    chain of dependences of any kinds leads from an instance back to
    itself. *)
Theorem cached_dependences_acyclic (this : Dependences) (S : Scop)
    (a : string * list Z) :
  single_valued (schedule_points S) = true ->
  ~ clos_trans _
      (fun x y =>
         In (x, y) (pairs_of (getDependences (fst (runOnScop this S)) TYPE_ALL)))
      a a.
Proof.
  intros Hsv Hc.
  assert (G : forall x y,
             clos_trans _
               (fun x y =>
                  In (x, y)
                    (pairs_of (getDependences (fst (runOnScop this S)) TYPE_ALL)))
               x y ->
             before (schedule_points S) x y = true).
  { intros x y Hxy. induction Hxy as [x y Hxy | x y z _ IH1 _ IH2].
    - destruct (getDependences (fst (runOnScop this S)) TYPE_ALL) as [deps|] eqn:E;
        [|destruct Hxy].
      exact (cache_before this S deps E (x, y) Hxy).
    - now apply (before_trans _ x y z). }
  specialize (G a a Hc). rewrite before_irrefl in G by assumption. discriminate.
Qed.

Lemma cached_dependences_acyclic_witness :
  single_valued (schedule_points nest_scop) = true
  /\ ~ clos_trans _
         (fun x y =>
            In (x, y)
              (pairs_of (getDependences (fst (runOnScop Dependences_ctor nest_scop))
                           TYPE_ALL)))
         ("S"%string, [0; 0]) ("S"%string, [0; 0]).
Proof.
  split; [reflexivity|].
  apply (cached_dependences_acyclic Dependences_ctor nest_scop). reflexivity.
Defined.

(** X6.  The flow dependences name the last writer only: whatever the
    schedule, a read instance that reads one memory element has at most
    one source in RAW. *)
Theorem RAW_last_writer_unique (this : Dependences) (S : Scop)
    (i j j' : string * list Z) :
  accesses_in_domain S = true ->
  (forall e e', In (i, e) (access_points isRead S) ->
                In (i, e') (access_points isRead S) -> e = e') ->
  In (j, i) (pairs_of (RAW (fst (runOnScop this S)))) ->
  In (j', i) (pairs_of (RAW (fst (runOnScop this S)))) ->
  j = j'.
Proof.
  intros Hacc Hone H1 H2.
  destruct (cache_contents this S Hacc) as [E _]. rewrite E in H1, H2.
  apply nodup_In in H1, H2. apply in_flat_map in H1, H2.
  destruct H1 as [[i1 e1] [Hr1 H1]]. destruct H2 as [[i2 e2] [Hr2 H2]].
  apply In_must_deps_of in H1, H2. cbn [fst snd] in H1, H2.
  destruct H1 as [<- [Hl1 Hu1]]. destruct H2 as [<- [Hl2 Hu2]].
  assert (e2 = e1) by exact (Hone e2 e1 Hr2 Hr1). subst e2.
  rewrite unrivalled_spec in Hu1.
  destruct (Hu1 j' (in_or_app _ _ _ (or_introl Hl2))) as [Heq|Hb];
    [now symmetry|exfalso].
  apply In_last_must in Hl1, Hl2.
  destruct Hl1 as [Hw1 [Hb1 _]]. destruct Hl2 as [_ [_ Hn2]].
  specialize (Hn2 j Hw1 Hb1). unfold hides in Hn2. rewrite Hb in Hn2.
  discriminate.
Qed.

(** X6, witness: in [A[i] = A[i-1] + A[0]] the instance 1 reads the
    element [A[0]] alone, and its source is the instance 0. *)
Lemma RAW_last_writer_unique_witness :
  accesses_in_domain prefix_scop = true
  /\ (forall e e',
        In (("S"%string, [1]), e) (access_points isRead prefix_scop) ->
        In (("S"%string, [1]), e') (access_points isRead prefix_scop) -> e = e')
  /\ In (("S"%string, [0]), ("S"%string, [1])) (pairs_of (RAW prefix_cache))
  /\ ("S"%string, [0]) = ("S"%string, [0]).
Proof.
  assert (H : In (("S"%string, [0]), ("S"%string, [1]))
                (pairs_of (RAW prefix_cache)))
    by (vm_compute; tauto).
  assert (Hone : forall e e',
             In (("S"%string, [1]), e) (access_points isRead prefix_scop) ->
             In (("S"%string, [1]), e') (access_points isRead prefix_scop) ->
             e = e').
  { intros e e' He He'.
    assert (G : forall x, In (("S"%string, [1]), x)
                            (access_points isRead prefix_scop) ->
                          x = ("A"%string, [0])).
    { intros x Hx. vm_compute in Hx.
      repeat (destruct Hx as [Hx|Hx]; [congruence|]). destruct Hx. }
    rewrite (G e He), (G e' He'). reflexivity. }
  split; [reflexivity|]. split; [exact Hone|]. split; [exact H|].
  exact (RAW_last_writer_unique Dependences_ctor prefix_scop
           ("S"%string, [1]) ("S"%string, [0]) ("S"%string, [0])
           eq_refl Hone H H).
Defined.

(** ** [getDependences] *)

Lemma land_lor_nonzero (a b t : Z) :
  Z.land (Z.lor a b) t <> 0 <-> Z.land a t <> 0 \/ Z.land b t <> 0.
Proof.
  rewrite Z.land_lor_distr_l. split.
  - intros H. destruct (Z.eq_dec (Z.land a t) 0) as [E|E]; [|now left].
    right. intros F. apply H. apply Z.lor_eq_0_iff. now split.
  - intros H F. apply Z.lor_eq_0_iff in F. tauto.
Qed.

(** X7.  On a computed cache the relation [getDependences] returns for
    the union of two masks of kinds is the union of the relations it
    returns for each of them. *)
Theorem getDependences_mask_union (this : Dependences) (K1 K2 : Z)
    (raw war waw : umap_rep) (pq : (string * list Z) * (string * list Z)) :
  RAW this = Some raw -> WAR this = Some war -> WAW this = Some waw ->
  In pq (pairs_of (getDependences this (Z.lor K1 K2))) <->
  In pq (pairs_of (getDependences this K1))
  \/ In pq (pairs_of (getDependences this K2)).
Proof.
  intros HR HA HW.
  rewrite !(getDependences_members this _ raw war waw pq HR HA HW).
  rewrite !land_lor_nonzero. tauto.
Qed.

Lemma getDependences_mask_union_witness :
  RAW rec_cache = Some (deref (RAW rec_cache))
  /\ WAR rec_cache = Some (deref (WAR rec_cache))
  /\ WAW rec_cache = Some (deref (WAW rec_cache))
  /\ (In (("S"%string, [0]), ("S"%string, [1]))
        (pairs_of (getDependences rec_cache (Z.lor TYPE_RAW TYPE_WAW))) <->
      In (("S"%string, [0]), ("S"%string, [1]))
        (pairs_of (getDependences rec_cache TYPE_RAW))
      \/ In (("S"%string, [0]), ("S"%string, [1]))
           (pairs_of (getDependences rec_cache TYPE_WAW))).
Proof.
  split; [reflexivity|]. split; [reflexivity|]. split; [reflexivity|].
  apply (getDependences_mask_union rec_cache TYPE_RAW TYPE_WAW
           (deref (RAW rec_cache)) (deref (WAR rec_cache))
           (deref (WAW rec_cache))); reflexivity.
Defined.

(** ** [isValidScattering] on its edges *)

Lemma fold_scattering_absorb (N : StatementToIslMapTy)
    (l : list (nat * ScopStmt)) (sp : isl_space) :
  fst (fold_left (isValidScattering_stmt N) l (None, sp)) = None.
Proof.
  revert sp. induction l as [|SI l IH]; intros sp; [reflexivity|].
  cbn [fold_left]. unfold isValidScattering_stmt at 2.
  cbn [isl_union_map_add_map]. apply IH.
Qed.

Lemma fold_scattering_null (N : StatementToIslMapTy)
    (l : list (nat * ScopStmt)) (u : isl_union_map) (sp : isl_space) :
  Exists (fun SI => stmtScattering N SI = None) l ->
  fst (fold_left (isValidScattering_stmt N) l (u, sp)) = None.
Proof.
  intros H. revert u sp. induction H as [SI l HSI | SI l _ IH]; intros u sp.
  - cbn [fold_left]. unfold isValidScattering_stmt at 2.
    fold (stmtScattering N SI). rewrite HSI, add_map_None.
    apply fold_scattering_absorb.
  - cbn [fold_left].
    destruct (isValidScattering_stmt N (u, sp) SI) as [u1 sp1]. apply IH.
Qed.

Lemma isValidScattering_null_scattering (this : Dependences) (S : Scop)
    (N : StatementToIslMapTy) :
  Exists (fun SI => stmtScattering N SI = None) (statements S) ->
  isValidScattering false this S N = true.
Proof.
  intros H. unfold isValidScattering. cbv zeta.
  pose proof (fold_scattering_null N (statements S)
                (isl_union_map_empty (getParamSpace S)) None H) as F.
  destruct (fold_left (isValidScattering_stmt N) (statements S) _) as [sc sp].
  cbn [fst] in F. subst sc.
  destruct (getDependences this TYPE_ALL); reflexivity.
Qed.

(** X8.  [isValidScattering] answers true, valid, without any test of the
    dependences when the cache holds no relations, when the Scop has no
    statement, or when the new scattering of one of its statements is
    NULL. *)
Theorem isValidScattering_true_on_null (this : Dependences) (S : Scop)
    (NewScattering : StatementToIslMapTy) :
  getDependences this TYPE_ALL = None
  \/ Stmts S = []
  \/ (exists i Stmt, nth_error (Stmts S) i = Some Stmt
                     /\ find NewScattering i = Some None) ->
  isValidScattering false this S NewScattering = true.
Proof.
  intros [H | [H | [i [Stmt [Hi Hf]]]]].
  - now apply isValidScattering_null.
  - apply isValidScattering_no_stmt. unfold statements. now rewrite H.
  - apply isValidScattering_null_scattering. apply Exists_exists.
    exists (i, Stmt). split.
    + unfold statements.
      assert (G : forall (l : list ScopStmt) k j s,
                 nth_error l j = Some s -> In ((k + j)%nat, s) (combine (seq k (length l)) l)).
      { clear. induction l as [|x l IH]; intros k [|j] s H; simpl in *;
          try discriminate.
        - injection H as ->. left. f_equal. lia.
        - right. replace (k + S j)%nat with (S k + j)%nat by lia. now apply IH. }
      exact (G (Stmts S) 0%nat i Stmt Hi).
    + unfold stmtScattering. cbn [fst]. now rewrite Hf.
Qed.

Lemma isValidScattering_true_on_null_witness :
  (getDependences rec_cache TYPE_ALL = None
   \/ Stmts rec_scop = []
   \/ (exists i Stmt, nth_error (Stmts rec_scop) i = Some Stmt
                      /\ find [(0%nat, None)] i = Some None))
  /\ isValidScattering false rec_cache rec_scop [(0%nat, None)] = true.
Proof.
  assert (H : getDependences rec_cache TYPE_ALL = None
              \/ Stmts rec_scop = []
              \/ (exists i Stmt, nth_error (Stmts rec_scop) i = Some Stmt
                                 /\ find [(0%nat, None)] i = Some None)).
  { right. right. exists 0%nat, rec_stmt. split; reflexivity. }
  split; [exact H|].
  exact (isValidScattering_true_on_null rec_cache rec_scop [(0%nat, None)] H).
Defined.

Lemma fold_left_ext_in {A B : Type} (f g : A -> B -> A) (l : list B) (a : A) :
  (forall x b, In b l -> f x b = g x b) -> fold_left f l a = fold_left g l a.
Proof.
  revert a. induction l as [|b l IH]; intros a H; [reflexivity|].
  cbn [fold_left]. rewrite (H a b (or_introl eq_refl)).
  apply IH. intros x c Hc. apply H. now right.
Qed.

(** X9.  The answer of [isValidScattering] depends on [NewScattering] only
    through the scatterings it gives to the statements of the Scop: two
    maps that agree on them, whatever their other entries, get the same
    answer. *)
Theorem isValidScattering_agree (LegalityCheckDisabled : bool)
    (this : Dependences) (S : Scop) (N1 N2 : StatementToIslMapTy) :
  (forall i, (i < length (Stmts S))%nat -> find N1 i = find N2 i) ->
  isValidScattering LegalityCheckDisabled this S N1
  = isValidScattering LegalityCheckDisabled this S N2.
Proof.
  intros H. unfold isValidScattering.
  destruct LegalityCheckDisabled; [reflexivity|]. cbv zeta.
  rewrite (fold_left_ext_in (isValidScattering_stmt N1) (isValidScattering_stmt N2)
             (statements S)); [reflexivity|].
  intros [sc sp] [i Stmt] Hin. unfold isValidScattering_stmt. cbn [fst snd].
  rewrite H; [reflexivity|].
  unfold statements in Hin. apply in_combine_l in Hin. apply in_seq in Hin. lia.
Qed.

Lemma isValidScattering_agree_witness :
  (forall i, (i < length (Stmts rec_scop))%nat ->
             find reversed i = find (reversed ++ [(7%nat, None)]) i)
  /\ isValidScattering false rec_cache rec_scop reversed
     = isValidScattering false rec_cache rec_scop (reversed ++ [(7%nat, None)]).
Proof.
  assert (H : forall i, (i < length (Stmts rec_scop))%nat ->
                        find reversed i = find (reversed ++ [(7%nat, None)]) i).
  { intros i Hi. simpl in Hi. destruct i as [|i]; [reflexivity|lia]. }
  split; [exact H|].
  exact (isValidScattering_agree false rec_cache rec_scop reversed
           (reversed ++ [(7%nat, None)]) H).
Defined.

Lemma scatterings_present_or_null (N : StatementToIslMapTy)
    (l : list (nat * ScopStmt)) :
  Forall (fun SI => stmtScattering N SI <> None) l
  \/ Exists (fun SI => stmtScattering N SI = None) l.
Proof.
  induction l as [|SI l [IH|IH]].
  - left. constructor.
  - destruct (stmtScattering N SI) eqn:E.
    + left. constructor; [congruence | assumption].
    + right. now constructor.
  - right. now constructor 2.
Qed.

(** X10.  Fewer dependences keep a scattering valid: when
    [isValidScattering] answers true on a cache, it answers true on every
    cache whose dependences are among those of the first. *)
Theorem isValidScattering_fewer_dependences (this this' : Dependences)
    (S : Scop) (NewScattering : StatementToIslMapTy) (deps deps' : umap_rep) :
  getDependences this TYPE_ALL = Some deps ->
  getDependences this' TYPE_ALL = Some deps' ->
  incl (umap_pairs deps') (umap_pairs deps) ->
  isValidScattering false this S NewScattering = true ->
  isValidScattering false this' S NewScattering = true.
Proof.
  intros Hd Hd' Hincl Hv.
  destruct (scatterings_present_or_null NewScattering (statements S)) as [Hall|Hex].
  2:{ now apply isValidScattering_null_scattering. }
  destruct (statements S) as [|SI0 rest] eqn:Hst.
  { now apply isValidScattering_no_stmt. }
  destruct (stmtScattering NewScattering SI0) as [m0|] eqn:Em0.
  2:{ inversion Hall; subst. contradiction. }
  rewrite <- Hst in Hall.
  rewrite (isValidScattering_gen this S NewScattering deps SI0 rest m0
             Hd Hall Hst Em0) in Hv.
  apply (isValidScattering_gen this' S NewScattering deps' SI0 rest m0
           Hd' Hall Hst Em0).
  intros s t ds dt Hin. apply Hv. now apply Hincl.
Qed.

(** X10, witness: the nest with its two loops interchanged, on the cache
    of the nest and on a cache with two of its four dependences. *)
Lemma isValidScattering_fewer_dependences_witness :
  getDependences nest_cache TYPE_ALL = Some (deref (getDependences nest_cache TYPE_ALL))
  /\ getDependences nest_half TYPE_ALL
     = Some (deref (getDependences nest_half TYPE_ALL))
  /\ incl (umap_pairs (deref (getDependences nest_half TYPE_ALL)))
       (umap_pairs (deref (getDependences nest_cache TYPE_ALL)))
  /\ umap_pairs (deref (getDependences nest_half TYPE_ALL))
     = [(("S"%string, [0; 0]), ("S"%string, [1; 0]));
        (("S"%string, [1; 1]), ("S"%string, [2; 1]))]
  /\ isValidScattering false nest_cache nest_scop interchanged = true
  /\ isValidScattering false nest_half nest_scop interchanged = true.
Proof.
  assert (Hincl : incl (umap_pairs (deref (getDependences nest_half TYPE_ALL)))
                    (umap_pairs (deref (getDependences nest_cache TYPE_ALL)))).
  { intros pq Hpq. vm_compute in Hpq. vm_compute.
    destruct Hpq as [<-|[<-|[]]]; tauto. }
  split; [reflexivity|]. split; [reflexivity|]. split; [exact Hincl|].
  split; [reflexivity|]. split; [reflexivity|].
  exact (isValidScattering_fewer_dependences nest_cache nest_half nest_scop
           interchanged
           (deref (getDependences nest_cache TYPE_ALL))
           (deref (getDependences nest_half TYPE_ALL))
           eq_refl eq_refl Hincl eq_refl).
Defined.

(** ** [getCombinedScheduleForSpace] and [isParallelDimension] *)

Lemma truncated_fold_exact (dimLevel : Z) (l : list ScopStmt) (u : umap_rep) :
  0 <= dimLevel ->
  forallb (fun Stmt =>
             (dimLevel <=? getNumScattering Stmt)
             && (getNumScattering Stmt <? 2 ^ 32)
             && forallb (fun ab => Nat.eqb (length (snd ab))
                                     (snd (map_out (Scattering Stmt))))
                  (map_pairs (Scattering Stmt))) l = true ->
  exists ps,
    fold_left (getCombinedScheduleForSpace_stmt dimLevel) l (Some u)
    = Some (mk_umap ps
              (umap_pairs u
               ++ flat_map (fun Stmt =>
                              map (fun ab => ((fst (map_in (Scattering Stmt)), fst ab),
                                              (EmptyString,
                                               firstn (Z.to_nat dimLevel) (snd ab))))
                                (map_pairs (Scattering Stmt))) l)).
Proof.
  intros Hd. revert u. induction l as [|Stmt l IH]; intros u Hl.
  - exists (umap_params u). simpl. rewrite app_nil_r. now destruct u.
  - cbn [forallb] in Hl. apply andb_true_iff in Hl. destruct Hl as [HS Hl].
    apply andb_true_iff in HS. destruct HS as [HS Hlen].
    apply andb_true_iff in HS. destruct HS as [Hle Hlt].
    apply Z.leb_le in Hle. apply Z.ltb_lt in Hlt.
    cbn [fold_left]. unfold getCombinedScheduleForSpace_stmt at 2.
    unfold wrap32. rewrite Z.mod_small by lia.
    unfold getScattering, isl_map_project_out.
    unfold getNumScattering in *.
    destruct (Z.leb_spec 0 dimLevel); [|lia].
    destruct (Z.leb_spec 0 (Z.of_nat (snd (map_out (Scattering Stmt))) - dimLevel));
      [|lia].
    destruct (Z.leb_spec
                (dimLevel + (Z.of_nat (snd (map_out (Scattering Stmt))) - dimLevel))
                (Z.of_nat (snd (map_out (Scattering Stmt))))); [|lia].
    cbn [andb isl_union_map_add_map].
    match goal with
    | |- context [fold_left _ l (Some ?u1)] => destruct (IH u1 Hl) as [ps E]
    end.
    exists ps. rewrite E. f_equal. f_equal. cbn [umap_pairs flat_map].
    rewrite <- app_assoc. f_equal. f_equal.
    unfold map_points. cbn [map_pairs map_in map_out fst]. rewrite map_map.
    apply map_ext_in. intros ab Hin. cbn [fst snd]. do 2 f_equal.
    rewrite forallb_forall in Hlen. specialize (Hlen ab Hin).
    apply Nat.eqb_eq in Hlen. unfold drop_dims.
    rewrite skipn_all2 by lia. apply app_nil_r.
Qed.

(** X11.  For a level within the dimensions of every scattering,
    [getCombinedScheduleForSpace] dates every statement instance by the
    first [dimLevel] coordinates of its date, in the anonymous tuple, and
    drops no instance. *)
Theorem getCombinedScheduleForSpace_prefixes (S : Scop) (dimLevel : Z) :
  0 <= dimLevel -> truncatable dimLevel S = true ->
  exists sched,
    getCombinedScheduleForSpace S dimLevel = Some sched
    /\ umap_pairs sched = truncated_points (Z.to_nat dimLevel) S.
Proof.
  intros Hd Ht. unfold getCombinedScheduleForSpace.
  destruct (truncated_fold_exact dimLevel (Stmts S) (mk_umap (Context S) []) Hd Ht)
    as [ps E].
  eexists. split; [exact E|]. reflexivity.
Qed.

Lemma getCombinedScheduleForSpace_prefixes_witness :
  0 <= 1 /\ truncatable 1 nest_scop = true
  /\ exists sched,
       getCombinedScheduleForSpace nest_scop 1 = Some sched
       /\ umap_pairs sched = truncated_points (Z.to_nat 1) nest_scop.
Proof.
  split; [lia|]. split; [reflexivity|].
  apply (getCombinedScheduleForSpace_prefixes nest_scop 1); [lia | reflexivity].
Defined.

Lemma fix_zero_fold_None (l : list nat) :
  fold_left (fun Set_ i => isl_set_fix_si Set_ isl_dim_set (Z.of_nat i) 0) l None
  = None.
Proof. induction l as [|i l IH]; [reflexivity | exact IH]. Qed.

Lemma fix_zero_out_of_range (n : Z) (s : isl_set) :
  0 < n -> isl_set_dim s isl_dim_set = 0 -> fix_zero n s = None.
Proof.
  intros Hn Hs. unfold fix_zero.
  destruct (Z.to_nat n) as [|k] eqn:E; [lia|].
  cbn [seq fold_left]. destruct s as [r|]; [|apply fix_zero_fold_None].
  unfold isl_set_fix_si at 2. cbn [isl_set_dim isl_dim_set] in Hs.
  cbn [is_dim_out isl_dim_set Z.of_nat].
  destruct (Z.ltb_spec 0 (Z.of_nat (snd (set_tuple r)))); [lia|].
  rewrite andb_false_r. apply fix_zero_fold_None.
Qed.

(** X12.  At depth zero the bound [Dimensions - 1] of the second loop of
    [isParallelDimension] wraps around and the loop fixes positions that
    the empty tuple does not have: the set of valid distances is NULL and
    the answer is true, whatever the dependences. *)
Theorem isParallelDimension_depth_zero (this : Dependences) (S : Scop)
    (Domain : isl_set) :
  isParallelDimension this S Domain 0 = true.
Proof.
  unfold isParallelDimension. cbv zeta.
  match goal with
  | |- context [fix_zero (wrap32 ?a) ?s] =>
      assert (LU : fix_zero (wrap32 a) s = None)
        by (apply fix_zero_out_of_range; reflexivity);
      rewrite LU
  end.
  cbn [isl_set_align_params isl_set_subtract isl_set_complement
       isl_union_set_from_set].
  destruct (isl_union_map_deltas _); reflexivity.
Qed.

(** X13.  [isParallelDimension] answers true, parallel, when the cache
    holds no relations or when the domain is NULL. *)
Theorem isParallelDimension_true_on_null (this : Dependences) (S : Scop)
    (Domain : isl_set) (ParallelDim : Z) :
  getDependences this TYPE_ALL = None \/ Domain = None ->
  isParallelDimension this S Domain ParallelDim = true.
Proof.
  intros [H | ->]; unfold isParallelDimension; cbv zeta.
  - rewrite H. reflexivity.
  - destruct (getDependences this TYPE_ALL) as [d|];
      destruct (getCombinedScheduleForSpace S ParallelDim) as [s|]; reflexivity.
Qed.

Lemma isParallelDimension_true_on_null_witness :
  (getDependences Dependences_ctor TYPE_ALL = None \/ Some line = None)
  /\ isParallelDimension Dependences_ctor rec_scop (Some line) 1 = true.
Proof.
  assert (H : getDependences Dependences_ctor TYPE_ALL = None \/ Some line = None)
    by (left; reflexivity).
  split; [exact H|].
  exact (isParallelDimension_true_on_null Dependences_ctor rec_scop (Some line) 1 H).
Defined.

(** X14.  Fewer dependences and a smaller domain keep a dimension
    parallel: when [isParallelDimension] answers true for a cache and a
    domain, it answers true for every cache whose dependences are among
    those of the first and every domain inside the first. *)
Theorem isParallelDimension_monotone (this this' : Dependences) (S : Scop)
    (dom dom' : set_rep) (ParallelDim : Z) (deps deps' : umap_rep) :
  0 < ParallelDim < 2 ^ 32 ->
  truncatable ParallelDim S = true ->
  getDependences this TYPE_ALL = Some deps ->
  getDependences this' TYPE_ALL = Some deps' ->
  incl (umap_pairs deps') (umap_pairs deps) ->
  (forall d, in_set dom' d = true -> in_set dom d = true) ->
  isParallelDimension this S (Some dom) ParallelDim = true ->
  isParallelDimension this' S (Some dom') ParallelDim = true.
Proof.
  intros HPD Htr Hd Hd' Hincl Hdom Hp.
  destruct (getCombinedScheduleForSpace_dates S ParallelDim) as [sched [Es _]];
    [lia | assumption |].
  rewrite (isParallelDimension_char this S dom ParallelDim deps sched
             HPD Htr Hd Es) in Hp.
  apply (isParallelDimension_char this' S dom' ParallelDim deps' sched
           HPD Htr Hd' Es).
  intros src tgt dsrc dtgt Hin Hs Ht Is It.
  apply (Hp src tgt); auto.
Qed.

Lemma universe_mem_plane (v : list Z) :
  length v = 2%nat -> set_mem plane v = true.
Proof.
  intros H. unfold plane.
  change [[NoneOf []; NoneOf []]] with [cell_univ (snd (EmptyString, 2%nat))].
  rewrite universe_mem. cbn [snd]. now rewrite H.
Defined.

Lemma isParallelDimension_monotone_witness :
  0 < 2 < 2 ^ 32
  /\ truncatable 2 nest_scop = true
  /\ isParallelDimension nest_cache nest_scop (Some plane) 2 = true
  /\ isParallelDimension nest_cache nest_scop
       (Some (mk_set [] (EmptyString, 2%nat) [[OneOf [0; 1]; NoneOf []]])) 2
     = true.
Proof.
  split; [lia|]. split; [reflexivity|]. split; [reflexivity|].
  apply (isParallelDimension_monotone nest_cache nest_cache nest_scop plane
           (mk_set [] (EmptyString, 2%nat) [[OneOf [0; 1]; NoneOf []]]) 2
           (deref (getDependences nest_cache TYPE_ALL))
           (deref (getDependences nest_cache TYPE_ALL)));
    [lia | reflexivity | reflexivity | reflexivity | apply incl_refl | | reflexivity].
  intros d Hd. unfold in_set in *. apply andb_true_iff in Hd.
  destruct Hd as [Ht Hm]. apply tuple_eqb_true in Ht. cbn [set_tuple] in Ht.
  apply andb_true_iff. split.
  - apply tuple_eqb_true. exact Ht.
  - apply set_mem_length in Hm. cbn [set_tuple snd] in Hm.
    rewrite universe_mem_plane; [reflexivity | exact Hm].
Defined.

Lemma isParallelDimension_true_on_null_case (this : Dependences) (S : Scop)
    (ParallelDim : Z) :
  isParallelDimension this S None ParallelDim = true.
Proof.
  unfold isParallelDimension. cbv zeta.
  destruct (getDependences this TYPE_ALL) as [d|];
    destruct (getCombinedScheduleForSpace S ParallelDim) as [s|]; reflexivity.
Qed.

(** X15.  A cache without dependences makes every dimension parallel: for
    every domain and every positive depth within the scatterings
    [isParallelDimension] answers true. *)
Theorem isParallelDimension_no_dependence (this : Dependences) (S : Scop)
    (Domain : isl_set) (ParallelDim : Z) (deps : umap_rep) :
  0 < ParallelDim < 2 ^ 32 ->
  truncatable ParallelDim S = true ->
  getDependences this TYPE_ALL = Some deps ->
  umap_pairs deps = [] ->
  isParallelDimension this S Domain ParallelDim = true.
Proof.
  intros HPD Htr Hd He. destruct Domain as [dom|].
  2:{ apply isParallelDimension_true_on_null_case. }
  destruct (getCombinedScheduleForSpace_dates S ParallelDim) as [sched [Es _]];
    [lia | assumption |].
  apply (isParallelDimension_char this S dom ParallelDim deps sched HPD Htr Hd Es).
  intros src tgt dsrc dtgt Hin. rewrite He in Hin. destruct Hin.
Qed.

Lemma isParallelDimension_no_dependence_witness :
  0 < 1 < 2 ^ 32
  /\ truncatable 1 indep_scop = true
  /\ getDependences indep_cache TYPE_ALL
     = Some (deref (getDependences indep_cache TYPE_ALL))
  /\ umap_pairs (deref (getDependences indep_cache TYPE_ALL)) = []
  /\ isParallelDimension indep_cache indep_scop (Some line) 1 = true.
Proof.
  split; [lia|]. split; [reflexivity|]. split; [reflexivity|].
  split; [reflexivity|].
  apply (isParallelDimension_no_dependence indep_cache indep_scop (Some line) 1
           (deref (getDependences indep_cache TYPE_ALL)));
    [lia | reflexivity | reflexivity | reflexivity].
Defined.

(** X16.  The domain is compared with dates in the anonymous tuple of
    [ParallelDim] dimensions, which is what the projection of the
    scatterings gives: for a domain in any other tuple, a named one or
    one of another dimension, no dependence is kept and the answer is
    true. *)
Theorem isParallelDimension_foreign_domain (this : Dependences) (S : Scop)
    (dom : set_rep) (ParallelDim : Z) (deps : umap_rep) :
  0 < ParallelDim < 2 ^ 32 ->
  truncatable ParallelDim S = true ->
  getDependences this TYPE_ALL = Some deps ->
  set_tuple dom <> (EmptyString, Z.to_nat ParallelDim) ->
  isParallelDimension this S (Some dom) ParallelDim = true.
Proof.
  intros HPD Htr Hd Hne.
  destruct (getCombinedScheduleForSpace_dates S ParallelDim) as [sched [Es Hdates]];
    [lia | assumption |].
  apply (isParallelDimension_char this S dom ParallelDim deps sched HPD Htr Hd Es).
  intros src tgt dsrc dtgt _ Hs _ Is _. exfalso. apply Hne.
  unfold in_set in Is. apply andb_true_iff in Is. destruct Is as [Is _].
  apply tuple_eqb_true in Is. rewrite Is. exact (Hdates _ _ Hs).
Qed.

Lemma isParallelDimension_foreign_domain_witness :
  0 < 1 < 2 ^ 32
  /\ truncatable 1 rec_scop = true
  /\ getDependences rec_cache TYPE_ALL
     = Some (deref (getDependences rec_cache TYPE_ALL))
  /\ set_tuple (mk_set [] tuple_T1 [[NoneOf []]]) <> (EmptyString, Z.to_nat 1)
  /\ isParallelDimension rec_cache rec_scop
       (Some (mk_set [] tuple_T1 [[NoneOf []]])) 1 = true.
Proof.
  assert (Hne : set_tuple (mk_set [] tuple_T1 [[NoneOf []]])
                <> (EmptyString, Z.to_nat 1)) by discriminate.
  split; [lia|]. split; [reflexivity|]. split; [reflexivity|].
  split; [exact Hne|].
  apply (isParallelDimension_foreign_domain rec_cache rec_scop
           (mk_set [] tuple_T1 [[NoneOf []]]) 1
           (deref (getDependences rec_cache TYPE_ALL)));
    [lia | reflexivity | reflexivity | exact Hne].
Defined.

(** X17.  [isParallelFor] fails its assertion on a NULL domain; on a
    domain in the anonymous tuple it tests the dimension of that very
    domain: with the three relations cached and scatterings of at least as
    many dimensions, it answers true exactly when no pair of the cached
    RAW, WAR or WAW between two instances dated inside the domain has a
    distance carried by the last dimension of the domain. *)
Theorem isParallelFor_spec (this : Dependences) (S : Scop) (dom : set_rep)
    (raw war waw sched : umap_rep) :
  0 < Z.of_nat (snd (set_tuple dom)) < 2 ^ 32 ->
  truncatable (Z.of_nat (snd (set_tuple dom))) S = true ->
  RAW this = Some raw -> WAR this = Some war -> WAW this = Some waw ->
  getCombinedScheduleForSpace S (Z.of_nat (snd (set_tuple dom))) = Some sched ->
  isParallelFor this S None = None
  /\ exists b,
       isParallelFor this S (Some dom) = Some b
       /\ (b = true <->
           forall src tgt dsrc dtgt,
             In (src, tgt) (umap_pairs raw) \/ In (src, tgt) (umap_pairs war)
             \/ In (src, tgt) (umap_pairs waw) ->
             In (src, dsrc) (umap_pairs sched) ->
             In (tgt, dtgt) (umap_pairs sched) ->
             in_set dom dsrc = true -> in_set dom dtgt = true ->
             carried_by_last (vsub (snd dtgt) (snd dsrc)) = false).
Proof.
  intros Hn Htr HR HA HW Hs. split; [reflexivity|].
  destruct (getDependences_all this raw war waw HR HA HW) as [deps [Hd Hmem]].
  eexists. split; [reflexivity|].
  unfold isl_set_n_dim, isl_set_dim, isl_dim_set.
  rewrite (isParallelDimension_char this S dom _ deps sched Hn Htr Hd Hs).
  split; intros H src tgt dsrc dtgt Hin; apply (H src tgt); now apply Hmem.
Qed.

Lemma isParallelFor_spec_witness :
  0 < Z.of_nat (snd (set_tuple line)) < 2 ^ 32
  /\ truncatable (Z.of_nat (snd (set_tuple line))) rec_scop = true
  /\ RAW rec_cache = Some (deref (RAW rec_cache))
  /\ WAR rec_cache = Some (deref (WAR rec_cache))
  /\ WAW rec_cache = Some (deref (WAW rec_cache))
  /\ isParallelFor rec_cache rec_scop None = None
  /\ exists b,
       isParallelFor rec_cache rec_scop (Some line) = Some b
       /\ (b = true <->
           forall src tgt dsrc dtgt,
             In (src, tgt) (umap_pairs (deref (RAW rec_cache)))
             \/ In (src, tgt) (umap_pairs (deref (WAR rec_cache)))
             \/ In (src, tgt) (umap_pairs (deref (WAW rec_cache))) ->
             In (src, dsrc)
               (umap_pairs (deref (getCombinedScheduleForSpace rec_scop 1))) ->
             In (tgt, dtgt)
               (umap_pairs (deref (getCombinedScheduleForSpace rec_scop 1))) ->
             in_set line dsrc = true -> in_set line dtgt = true ->
             carried_by_last (vsub (snd dtgt) (snd dsrc)) = false).
Proof.
  split; [cbn; lia|]. split; [reflexivity|]. split; [reflexivity|].
  split; [reflexivity|]. split; [reflexivity|].
  apply (isParallelFor_spec rec_cache rec_scop line
           (deref (RAW rec_cache)) (deref (WAR rec_cache))
           (deref (WAW rec_cache))
           (deref (getCombinedScheduleForSpace rec_scop 1)));
    [cbn; lia | reflexivity | reflexivity | reflexivity | reflexivity
     | reflexivity].
Defined.
